(** * The Windsurf bridge: wire encoder, request builder, response extractor,
      model table, tool-call planner and streaming client.

    A shallow embedding of [src/plugin/grpc-client.ts], [src/plugin/models.ts]
    and [src/plugin.ts].  JavaScript strings are sequences of UTF-16 code
    units, [number[]] arrays and [Buffer]s are lists of integers. *)

From Stdlib Require Import String Ascii.
From Stdlib Require Import ZArith List Bool Lia.
From Equations Require Import Equations.
Import ListNotations.

Local Open Scope Z_scope.

(** ** JavaScript values used by the plugin *)

Module Js.

(** A JavaScript string: its UTF-16 code units. *)
Definition JsString := list Z.

(** A string literal of the source (all literals of the plugin are ASCII). *)
Definition lit (s : string) : JsString :=
  map (fun a => Z.of_N (N_of_ascii a)) (list_ascii_of_string s).

(** A literal in which the apostrophe stands for the double quote. *)
Definition quoted (s : string) : JsString :=
  map (fun c => if c =? 39 then 34 else c) (lit s).

(** [a === b] on strings. *)
Fixpoint str_eqb (a b : JsString) : bool :=
  match a, b with
  | [], [] => true
  | x :: a', y :: b' => (x =? y) && str_eqb a' b'
  | _, _ => false
  end.

(** [ToInt32]: the operand conversion of [<<] and [|]. *)
Definition toInt32 (x : Z) : Z := (x + 2 ^ 31) mod 2 ^ 32 - 2 ^ 31.

(** [a << n] on numbers. *)
Definition shl32 (a n : Z) : Z := toInt32 (Z.shiftl (toInt32 a) (Z.land n 31)).

(** [a | b] on numbers. *)
Definition or32 (a b : Z) : Z := Z.lor (toInt32 a) (toInt32 b).

(** WhiteSpace and LineTerminator code units: what [trim] strips and what
    [\s] matches. *)
Definition isWhiteSpace (c : Z) : bool :=
  (c =? 9) || (c =? 10) || (c =? 11) || (c =? 12) || (c =? 13) || (c =? 32)
  || (c =? 160) || (c =? 5760) || ((8192 <=? c) && (c <=? 8202))
  || (c =? 8232) || (c =? 8233) || (c =? 8239) || (c =? 8287)
  || (c =? 12288) || (c =? 65279).

Fixpoint trimStart (s : JsString) : JsString :=
  match s with
  | c :: r => if isWhiteSpace c then trimStart r else s
  | [] => []
  end.

Definition trimEnd (s : JsString) : JsString := rev (trimStart (rev s)).

(** [s.trim()] *)
Definition trim (s : JsString) : JsString := trimEnd (trimStart s).

(** [s.toLowerCase()] on ASCII strings: the letters [A-Z] are mapped, every
    other code unit is kept.  On a string with other characters the
    built-in does more (U+212A KELVIN SIGN becomes [k]), so a statement
    about names carries the hypothesis that the name is ASCII, unless its
    other hypotheses already force that. *)
Definition toLowerCase (s : JsString) : JsString :=
  map (fun c => if (65 <=? c) && (c <=? 90) then c + 32 else c) s.

Definition isHighSurrogate (c : Z) : bool := (0xD800 <=? c) && (c <=? 0xDBFF).
Definition isLowSurrogate (c : Z) : bool := (0xDC00 <=? c) && (c <=? 0xDFFF).

(** The three bytes of U+FFFD, written for an unpaired surrogate. *)
Definition replacementBytes : list Z := [0xEF; 0xBF; 0xBD].

(** [Buffer.from(str, 'utf8')]: the UTF-8 bytes of a string. *)
Fixpoint utf8Encode (s : JsString) : list Z :=
  match s with
  | [] => []
  | c :: r =>
    if c <? 0x80 then c :: utf8Encode r
    else if c <? 0x800 then
      Z.lor 0xC0 (Z.shiftr c 6) :: Z.lor 0x80 (Z.land c 0x3F) :: utf8Encode r
    else if isHighSurrogate c then
      match r with
      | d :: r' =>
        if isLowSurrogate d then
          let cp := 0x10000 + Z.shiftl (c - 0xD800) 10 + (d - 0xDC00) in
          Z.lor 0xF0 (Z.shiftr cp 18)
            :: Z.lor 0x80 (Z.land (Z.shiftr cp 12) 0x3F)
            :: Z.lor 0x80 (Z.land (Z.shiftr cp 6) 0x3F)
            :: Z.lor 0x80 (Z.land cp 0x3F) :: utf8Encode r'
        else replacementBytes ++ utf8Encode r
      | [] => replacementBytes
      end
    else if isLowSurrogate c then replacementBytes ++ utf8Encode r
    else
      Z.lor 0xE0 (Z.shiftr c 12)
        :: Z.lor 0x80 (Z.land (Z.shiftr c 6) 0x3F)
        :: Z.lor 0x80 (Z.land c 0x3F) :: utf8Encode r
  end.

(** [Buffer.from(array)]: every entry is truncated to a byte. *)
Definition bufferFrom (a : list Z) : list Z := map (fun x => Z.land x 255) a.

End Js.

Import Js.

(** ** Protobuf encoding helpers ([grpc-client.ts]) *)

Module Wire.

(** [encodeVarint]: the loop [while (v > 127n) { push((v & 0x7f) | 0x80);
    v >>= 7n }; push(v)] on the BigInt [v]. *)
Equations? encodeVarint (v : Z) : list Z by wf (Z.to_nat (Z.log2 v)) lt :=
  encodeVarint v with Z_gt_le_dec v 127 => {
    | left _ => or32 (Z.land v 0x7f) 0x80 :: encodeVarint (Z.shiftr v 7);
    | right _ => [v] }.
Proof.
  rewrite Z.log2_shiftr by lia.
  assert (7 <= Z.log2 v) by (apply Z.log2_le_pow2; lia).
  lia.
Qed.

(** [encodeString]: tag, byte length, bytes. *)
Definition encodeString (fieldNum : Z) (str : JsString) : list Z :=
  let strBytes := utf8Encode str in
  or32 (shl32 fieldNum 3) 2
    :: encodeVarint (Z.of_nat (length strBytes)) ++ strBytes.

(** [encodeMessage]: a nested message, length-delimited. *)
Definition encodeMessage (fieldNum : Z) (data : list Z) : list Z :=
  or32 (shl32 fieldNum 3) 2 :: encodeVarint (Z.of_nat (length data)) ++ data.

(** [encodeVarintField]: wire type 0. *)
Definition encodeVarintField (fieldNum value : Z) : list Z :=
  or32 (shl32 fieldNum 3) 0 :: encodeVarint value.

(** The continuation bit and the seven payload bits of a varint byte. *)
Definition hasContinuation (b : Z) : bool := negb (Z.land b 0x80 =? 0).

(** The sum of the groups [(b_i & 0x7F) << 7*i], counting from index [i]. *)
Fixpoint varintSum (i : Z) (bs : list Z) : Z :=
  match bs with
  | [] => 0
  | b :: r => Z.shiftl (Z.land b 0x7F) (7 * i) + varintSum (i + 1) r
  end.

(** The standard base-128 decoder: read groups, least significant first,
    until a byte without continuation bit; returns the value and the
    unread bytes. *)
Fixpoint decodeVarintFrom (shift acc : Z) (bs : list Z) : option (Z * list Z) :=
  match bs with
  | [] => None
  | b :: r =>
    let acc' := Z.lor acc (Z.shiftl (Z.land b 0x7F) shift) in
    if hasContinuation b then decodeVarintFrom (shift + 7) acc' r
    else Some (acc', r)
  end.

Definition decodeVarint (bs : list Z) : option (Z * list Z) :=
  decodeVarintFrom 0 0 bs.

(** All bytes but the last carry the continuation bit, the last does not. *)
Fixpoint wellFormedVarint (bs : list Z) : Prop :=
  match bs with
  | [] => False
  | [b] => hasContinuation b = false
  | b :: r => hasContinuation b = true /\ wellFormedVarint r
  end.

Definition isByte (b : Z) : Prop := 0 <= b < 256.

End Wire.

Import Wire.

(** ** Request building ([grpc-client.ts]) *)

Module Request.

(** The two ambient sources a request reads: [Date.now()] and
    [crypto.randomUUID()].  A world gives the value of every read, in
    order, and counts the reads made so far. *)
Record World := mkWorld {
  clock : nat -> Z;
  clockReads : nat;
  uuids : nat -> JsString;
  uuidReads : nat
}.

Definition Eff (A : Type) : Type := World -> A * World.

Definition ret {A} (a : A) : Eff A := fun w => (a, w).

Definition bind {A B} (m : Eff A) (k : A -> Eff B) : Eff B :=
  fun w => let (a, w') := m w in k a w'.

Notation "x <- m ;; k" := (bind m (fun x => k))
  (at level 61, m at next level, right associativity).

Definition Date_now : Eff Z :=
  fun w => (clock w (clockReads w),
            mkWorld (clock w) (S (clockReads w)) (uuids w) (uuidReads w)).

Definition randomUUID : Eff JsString :=
  fun w => (uuids w (uuidReads w),
            mkWorld (clock w) (clockReads w) (uuids w) (S (uuidReads w))).

Inductive Role := user | assistant | system | tool.

Definition Role_eqb (a b : Role) : bool :=
  match a, b with
  | user, user | assistant, assistant | system, system | tool, tool => true
  | _, _ => false
  end.

Record ChatMessage := mkChatMessage { role : Role; content : JsString }.

Section Builder.

(** [ChatMessageSource.USER] of [types.ts]. *)
Variable ChatMessageSource_USER : Z.

Definition encodeMetadata (apiKey version : JsString) : Eff (list Z) :=
  requestId <- Date_now ;;
  sessionId <- randomUUID ;;
  ret (encodeString 1 (lit "windsurf-next")
       ++ encodeString 2 version
       ++ encodeString 3 apiKey
       ++ encodeString 4 (lit "en")
       ++ encodeString 7 version
       ++ encodeVarintField 9 requestId
       ++ encodeString 10 sessionId
       ++ encodeString 12 (lit "windsurf")).

(** [seconds = Math.floor(now / 1000)], [nanos = (now % 1000) * 1000000]. *)
Definition encodeTimestamp : Eff (list Z) :=
  now <- Date_now ;;
  let seconds := now / 1000 in
  let nanos := Z.rem now 1000 * 1000000 in
  ret (encodeVarintField 1 seconds ++ encodeVarintField 2 nanos).

Definition encodeIntentGeneric (text : JsString) : list Z :=
  encodeString 1 text.

Definition encodeChatMessageIntent (text : JsString) : list Z :=
  let generic := encodeIntentGeneric text in
  encodeMessage 1 generic.

Definition encodeChatMessage (source : Z) (text : JsString) : Eff (list Z) :=
  let intent := encodeChatMessageIntent text in
  msgId <- randomUUID ;;
  convId <- randomUUID ;;
  timestamp <- encodeTimestamp ;;
  ret (encodeString 1 msgId
       ++ encodeVarintField 2 source
       ++ encodeMessage 3 timestamp
       ++ encodeString 4 convId
       ++ encodeMessage 5 intent).

(** [xs.pop()] read as a value: the last element, if any. *)
Definition pop {A} (xs : list A) : option A :=
  match rev xs with
  | x :: _ => Some x
  | [] => None
  end.

(** [messages.filter((m) => m.role === 'user').pop()] *)
Definition lastUserMessage (messages : list ChatMessage) : option ChatMessage :=
  pop (filter (fun m => Role_eqb (role m) user) messages).

(** [lastUserMessage?.content || ''] *)
Definition promptOf (messages : list ChatMessage) : JsString :=
  match lastUserMessage messages with
  | Some m => match content m with [] => lit "" | c => c end
  | None => lit ""
  end.

(** The [request] array: metadata, chat message, model. *)
Definition requestFields (apiKey version : JsString) (modelEnum : Z)
    (messages : list ChatMessage) : Eff (list Z) :=
  metadata <- encodeMetadata apiKey version ;;
  let prompt := promptOf messages in
  chatMessage <- encodeChatMessage ChatMessageSource_USER prompt ;;
  ret (encodeMessage 1 metadata
       ++ encodeMessage 2 chatMessage
       ++ encodeVarintField 4 modelEnum).

(** [buf.writeUInt32BE(value, offset)]: the four bytes written, or [None]
    for the range error on a value outside 0 .. 2^32 - 1. *)
Definition writeUInt32BE (value : Z) : option (list Z) :=
  if (0 <=? value) && (value <=? 0xFFFFFFFF) then
    Some [Z.land (Z.shiftr value 24) 255; Z.land (Z.shiftr value 16) 255;
          Z.land (Z.shiftr value 8) 255; Z.land value 255]
  else None.

(** The frame: [frame[0] = 0], the length at offset 1, the payload at
    offset 5. *)
Definition frameOf (payload : list Z) : option (list Z) :=
  match writeUInt32BE (Z.of_nat (length payload)) with
  | Some lengthBytes => Some (0 :: lengthBytes ++ payload)
  | None => None
  end.

Definition buildChatRequest (apiKey version : JsString) (modelEnum : Z)
    (messages : list ChatMessage) : Eff (option (list Z)) :=
  request <- requestFields apiKey version modelEnum messages ;;
  let payload := bufferFrom request in
  ret (frameOf payload).

End Builder.

(** Reading a big-endian integer back from its bytes. *)
Definition readUIntBE (bs : list Z) : Z :=
  fold_left (fun acc b => acc * 256 + b) bs 0.

(** The text of the last turn authored by the user: the content of a
    message of role [user] that no later [user] message follows, or the
    empty string when no message has that role. *)
Inductive LastUserText : list ChatMessage -> JsString -> Prop :=
| NoUserTurn ms :
    Forall (fun m => role m <> user) ms -> LastUserText ms []
| LastUserTurn pre m post :
    role m = user -> Forall (fun m' => role m' <> user) post ->
    LastUserText (pre ++ m :: post) (content m).

(** The layout of a request that carries [text] as its chat turn: field 1
    the metadata, field 2 the chat message (id, source, timestamp,
    conversation id, and in field 5 the intent whose generic part holds the
    text), field 4 the model. *)
Definition requestCarrying (source : Z) (metadata : list Z)
    (msgId : JsString) (timestamp : list Z) (convId : JsString)
    (text : JsString) (modelEnum : Z) : list Z :=
  encodeMessage 1 metadata
  ++ encodeMessage 2
       (encodeString 1 msgId
        ++ encodeVarintField 2 source
        ++ encodeMessage 3 timestamp
        ++ encodeString 4 convId
        ++ encodeMessage 5 (encodeMessage 1 (encodeString 1 text)))
  ++ encodeVarintField 4 modelEnum.

(** What the builder reads from a world, in the order of its calls: the
    clock and an identifier for the metadata, two identifiers for the chat
    message, the clock for its timestamp. *)
Definition metadataIn (w : World) (apiKey version : JsString) : list Z :=
  encodeString 1 (lit "windsurf-next")
  ++ encodeString 2 version
  ++ encodeString 3 apiKey
  ++ encodeString 4 (lit "en")
  ++ encodeString 7 version
  ++ encodeVarintField 9 (clock w (clockReads w))
  ++ encodeString 10 (uuids w (uuidReads w))
  ++ encodeString 12 (lit "windsurf").

Definition messageIdIn (w : World) : JsString := uuids w (S (uuidReads w)).

Definition conversationIdIn (w : World) : JsString :=
  uuids w (S (S (uuidReads w))).

Definition timestampIn (w : World) : list Z :=
  let now := clock w (S (clockReads w)) in
  encodeVarintField 1 (now / 1000)
  ++ encodeVarintField 2 (Z.rem now 1000 * 1000000).

(** A world for examples: a fixed clock and a fixed identifier. *)
Definition sampleWorld : World :=
  mkWorld (fun _ => 1700000000123) 0
          (fun _ => lit "123e4567-e89b-42d3-a456-426614174000") 0.

End Request.

Import Request.

(** ** Model name to enum mappings ([models.ts]) *)

Module Models.

(** The members of [ModelEnum] that the table names.  Their numbers are
    set in [types.ts]; a member stands for its number here. *)
Inductive ModelEnum :=
  | CLAUDE_3_OPUS_20240229 | CLAUDE_3_SONNET_20240229
  | CLAUDE_3_HAIKU_20240307 | CLAUDE_3_5_SONNET_20241022
  | CLAUDE_3_5_HAIKU_20241022 | CLAUDE_3_7_SONNET_20250219
  | CLAUDE_3_7_SONNET_20250219_THINKING | CLAUDE_4_OPUS
  | CLAUDE_4_OPUS_THINKING | CLAUDE_4_SONNET | CLAUDE_4_SONNET_THINKING
  | CLAUDE_4_1_OPUS | CLAUDE_4_1_OPUS_THINKING | CLAUDE_4_5_SONNET
  | CLAUDE_4_5_SONNET_THINKING | CLAUDE_4_5_SONNET_1M | CLAUDE_4_5_OPUS
  | CLAUDE_4_5_OPUS_THINKING | CLAUDE_CODE | GPT_4 | GPT_4_1106_PREVIEW
  | GPT_4O_2024_08_06 | GPT_4O_MINI_2024_07_18 | GPT_4_5
  | GPT_4_1_2025_04_14 | GPT_4_1_MINI_2025_04_14 | GPT_4_1_NANO_2025_04_14
  | GPT_5 | GPT_5_NANO | GPT_5_LOW | GPT_5_HIGH | GPT_5_CODEX
  | GPT_5_2_MEDIUM | GPT_5_2_LOW | GPT_5_2_HIGH | GPT_5_2_XHIGH | O1
  | O1_MINI | O1_PREVIEW | O3 | O3_MINI | O3_LOW | O3_HIGH | O3_PRO
  | O3_PRO_LOW | O3_PRO_HIGH | O4_MINI | O4_MINI_LOW | O4_MINI_HIGH
  | GEMINI_1_0_PRO | GEMINI_1_5_PRO | GEMINI_2_0_FLASH | GEMINI_2_5_PRO
  | GEMINI_2_5_FLASH | GEMINI_2_5_FLASH_THINKING | GEMINI_2_5_FLASH_LITE
  | GEMINI_3_0_PRO_LOW | GEMINI_3_0_PRO_HIGH | DEEPSEEK_V3 | DEEPSEEK_V3_2
  | DEEPSEEK_R1 | DEEPSEEK_R1_FAST | DEEPSEEK_R1_SLOW
  | LLAMA_3_1_8B_INSTRUCT | LLAMA_3_1_70B_INSTRUCT
  | LLAMA_3_1_405B_INSTRUCT | LLAMA_3_3_70B_INSTRUCT
  | LLAMA_3_3_70B_INSTRUCT_R1 | QWEN_2_5_7B_INSTRUCT
  | QWEN_2_5_32B_INSTRUCT | QWEN_2_5_72B_INSTRUCT | QWEN_3_235B_INSTRUCT
  | QWEN_3_CODER_480B_INSTRUCT | GROK_2 | GROK_3 | GROK_3_MINI_REASONING
  | GROK_CODE_FAST | MISTRAL_7B | KIMI_K2 | KIMI_K2_THINKING | GLM_4_5
  | GLM_4_6 | MINIMAX_M2 | SWE_1_5 | SWE_1_5_THINKING.


Scheme Equality for ModelEnum.

(** [MODEL_NAME_TO_ENUM], in the order of the source. *)
Definition MODEL_NAME_TO_ENUM : list (JsString * ModelEnum) := [
  (lit "claude-3-opus", CLAUDE_3_OPUS_20240229);
  (lit "claude-3-opus-20240229", CLAUDE_3_OPUS_20240229);
  (lit "claude-3-sonnet", CLAUDE_3_SONNET_20240229);
  (lit "claude-3-sonnet-20240229", CLAUDE_3_SONNET_20240229);
  (lit "claude-3-haiku", CLAUDE_3_HAIKU_20240307);
  (lit "claude-3-haiku-20240307", CLAUDE_3_HAIKU_20240307);
  (lit "claude-3.5-sonnet", CLAUDE_3_5_SONNET_20241022);
  (lit "claude-3-5-sonnet", CLAUDE_3_5_SONNET_20241022);
  (lit "claude-3-5-sonnet-20241022", CLAUDE_3_5_SONNET_20241022);
  (lit "claude-3.5-haiku", CLAUDE_3_5_HAIKU_20241022);
  (lit "claude-3-5-haiku", CLAUDE_3_5_HAIKU_20241022);
  (lit "claude-3-5-haiku-20241022", CLAUDE_3_5_HAIKU_20241022);
  (lit "claude-3.7-sonnet", CLAUDE_3_7_SONNET_20250219);
  (lit "claude-3-7-sonnet", CLAUDE_3_7_SONNET_20250219);
  (lit "claude-3-7-sonnet-20250219", CLAUDE_3_7_SONNET_20250219);
  (lit "claude-3.7-sonnet-thinking", CLAUDE_3_7_SONNET_20250219_THINKING);
  (lit "claude-3-7-sonnet-thinking", CLAUDE_3_7_SONNET_20250219_THINKING);
  (lit "claude-4-opus", CLAUDE_4_OPUS);
  (lit "claude-4-opus-thinking", CLAUDE_4_OPUS_THINKING);
  (lit "claude-4-sonnet", CLAUDE_4_SONNET);
  (lit "claude-4-sonnet-thinking", CLAUDE_4_SONNET_THINKING);
  (lit "claude-4.1-opus", CLAUDE_4_1_OPUS);
  (lit "claude-4-1-opus", CLAUDE_4_1_OPUS);
  (lit "claude-4.1-opus-thinking", CLAUDE_4_1_OPUS_THINKING);
  (lit "claude-4-1-opus-thinking", CLAUDE_4_1_OPUS_THINKING);
  (lit "claude-4.5-sonnet", CLAUDE_4_5_SONNET);
  (lit "claude-4-5-sonnet", CLAUDE_4_5_SONNET);
  (lit "claude-4.5-sonnet-thinking", CLAUDE_4_5_SONNET_THINKING);
  (lit "claude-4-5-sonnet-thinking", CLAUDE_4_5_SONNET_THINKING);
  (lit "claude-4.5-sonnet-1m", CLAUDE_4_5_SONNET_1M);
  (lit "claude-4-5-sonnet-1m", CLAUDE_4_5_SONNET_1M);
  (lit "claude-4.5-opus", CLAUDE_4_5_OPUS);
  (lit "claude-4-5-opus", CLAUDE_4_5_OPUS);
  (lit "claude-4.5-opus-thinking", CLAUDE_4_5_OPUS_THINKING);
  (lit "claude-4-5-opus-thinking", CLAUDE_4_5_OPUS_THINKING);
  (lit "claude-code", CLAUDE_CODE);
  (lit "gpt-4", GPT_4);
  (lit "gpt-4-turbo", GPT_4_1106_PREVIEW);
  (lit "gpt-4-1106-preview", GPT_4_1106_PREVIEW);
  (lit "gpt-4o", GPT_4O_2024_08_06);
  (lit "gpt-4o-2024-08-06", GPT_4O_2024_08_06);
  (lit "gpt-4o-mini", GPT_4O_MINI_2024_07_18);
  (lit "gpt-4o-mini-2024-07-18", GPT_4O_MINI_2024_07_18);
  (lit "gpt-4.5", GPT_4_5);
  (lit "gpt-4-5", GPT_4_5);
  (lit "gpt-4.1", GPT_4_1_2025_04_14);
  (lit "gpt-4-1", GPT_4_1_2025_04_14);
  (lit "gpt-4.1-mini", GPT_4_1_MINI_2025_04_14);
  (lit "gpt-4-1-mini", GPT_4_1_MINI_2025_04_14);
  (lit "gpt-4.1-nano", GPT_4_1_NANO_2025_04_14);
  (lit "gpt-4-1-nano", GPT_4_1_NANO_2025_04_14);
  (lit "gpt-5", GPT_5);
  (lit "gpt-5-nano", GPT_5_NANO);
  (lit "gpt-5-low", GPT_5_LOW);
  (lit "gpt-5-high", GPT_5_HIGH);
  (lit "gpt-5-codex", GPT_5_CODEX);
  (lit "gpt-5.2", GPT_5_2_MEDIUM);
  (lit "gpt-5-2", GPT_5_2_MEDIUM);
  (lit "gpt-5.2-low", GPT_5_2_LOW);
  (lit "gpt-5-2-low", GPT_5_2_LOW);
  (lit "gpt-5.2-high", GPT_5_2_HIGH);
  (lit "gpt-5-2-high", GPT_5_2_HIGH);
  (lit "gpt-5.2-xhigh", GPT_5_2_XHIGH);
  (lit "gpt-5-2-xhigh", GPT_5_2_XHIGH);
  (lit "o1", O1);
  (lit "o1-mini", O1_MINI);
  (lit "o1-preview", O1_PREVIEW);
  (lit "o3", O3);
  (lit "o3-mini", O3_MINI);
  (lit "o3-low", O3_LOW);
  (lit "o3-high", O3_HIGH);
  (lit "o3-pro", O3_PRO);
  (lit "o3-pro-low", O3_PRO_LOW);
  (lit "o3-pro-high", O3_PRO_HIGH);
  (lit "o4-mini", O4_MINI);
  (lit "o4-mini-low", O4_MINI_LOW);
  (lit "o4-mini-high", O4_MINI_HIGH);
  (lit "gemini-1.0-pro", GEMINI_1_0_PRO);
  (lit "gemini-1-0-pro", GEMINI_1_0_PRO);
  (lit "gemini-1.5-pro", GEMINI_1_5_PRO);
  (lit "gemini-1-5-pro", GEMINI_1_5_PRO);
  (lit "gemini-2.0-flash", GEMINI_2_0_FLASH);
  (lit "gemini-2-0-flash", GEMINI_2_0_FLASH);
  (lit "gemini-2.5-pro", GEMINI_2_5_PRO);
  (lit "gemini-2-5-pro", GEMINI_2_5_PRO);
  (lit "gemini-2.5-flash", GEMINI_2_5_FLASH);
  (lit "gemini-2-5-flash", GEMINI_2_5_FLASH);
  (lit "gemini-2.5-flash-thinking", GEMINI_2_5_FLASH_THINKING);
  (lit "gemini-2-5-flash-thinking", GEMINI_2_5_FLASH_THINKING);
  (lit "gemini-2.5-flash-lite", GEMINI_2_5_FLASH_LITE);
  (lit "gemini-2-5-flash-lite", GEMINI_2_5_FLASH_LITE);
  (lit "gemini-3.0-pro-low", GEMINI_3_0_PRO_LOW);
  (lit "gemini-3-0-pro-low", GEMINI_3_0_PRO_LOW);
  (lit "gemini-3.0-pro-high", GEMINI_3_0_PRO_HIGH);
  (lit "gemini-3-0-pro-high", GEMINI_3_0_PRO_HIGH);
  (lit "deepseek-v3", DEEPSEEK_V3);
  (lit "deepseek-v3-2", DEEPSEEK_V3_2);
  (lit "deepseek-r1", DEEPSEEK_R1);
  (lit "deepseek-r1-fast", DEEPSEEK_R1_FAST);
  (lit "deepseek-r1-slow", DEEPSEEK_R1_SLOW);
  (lit "llama-3.1-8b", LLAMA_3_1_8B_INSTRUCT);
  (lit "llama-3-1-8b", LLAMA_3_1_8B_INSTRUCT);
  (lit "llama-3.1-70b", LLAMA_3_1_70B_INSTRUCT);
  (lit "llama-3-1-70b", LLAMA_3_1_70B_INSTRUCT);
  (lit "llama-3.1-405b", LLAMA_3_1_405B_INSTRUCT);
  (lit "llama-3-1-405b", LLAMA_3_1_405B_INSTRUCT);
  (lit "llama-3.3-70b", LLAMA_3_3_70B_INSTRUCT);
  (lit "llama-3-3-70b", LLAMA_3_3_70B_INSTRUCT);
  (lit "llama-3.3-70b-r1", LLAMA_3_3_70B_INSTRUCT_R1);
  (lit "llama-3-3-70b-r1", LLAMA_3_3_70B_INSTRUCT_R1);
  (lit "qwen-2.5-7b", QWEN_2_5_7B_INSTRUCT);
  (lit "qwen-2-5-7b", QWEN_2_5_7B_INSTRUCT);
  (lit "qwen-2.5-32b", QWEN_2_5_32B_INSTRUCT);
  (lit "qwen-2-5-32b", QWEN_2_5_32B_INSTRUCT);
  (lit "qwen-2.5-72b", QWEN_2_5_72B_INSTRUCT);
  (lit "qwen-2-5-72b", QWEN_2_5_72B_INSTRUCT);
  (lit "qwen-3-235b", QWEN_3_235B_INSTRUCT);
  (lit "qwen-3-coder-480b", QWEN_3_CODER_480B_INSTRUCT);
  (lit "grok-2", GROK_2);
  (lit "grok-3", GROK_3);
  (lit "grok-3-mini", GROK_3_MINI_REASONING);
  (lit "grok-code-fast", GROK_CODE_FAST);
  (lit "mistral-7b", MISTRAL_7B);
  (lit "kimi-k2", KIMI_K2);
  (lit "kimi-k2-thinking", KIMI_K2_THINKING);
  (lit "glm-4.5", GLM_4_5);
  (lit "glm-4-5", GLM_4_5);
  (lit "glm-4.6", GLM_4_6);
  (lit "glm-4-6", GLM_4_6);
  (lit "minimax-m2", MINIMAX_M2);
  (lit "swe-1.5", SWE_1_5);
  (lit "swe-1-5", SWE_1_5);
  (lit "swe-1.5-thinking", SWE_1_5_THINKING);
  (lit "swe-1-5-thinking", SWE_1_5_THINKING)
].

(** What reading a property of the table object yields when it is not
    [undefined]: a member of the enum for an own key, a member of
    [Object.prototype] for a name found up the prototype chain. *)
Inductive ModelEnumValue :=
| Member (e : ModelEnum)
| ObjectPrototypeMember (key : JsString).

Fixpoint ownProperty (key : JsString) (table : list (JsString * ModelEnum))
  : option ModelEnum :=
  match table with
  | [] => None
  | (k, e) :: rest => if str_eqb k key then Some e else ownProperty key rest
  end.

(** The lower-case names that every object inherits. *)
Definition inheritedNames : list JsString := [lit "constructor"; lit "__proto__"].

(** [MODEL_NAME_TO_ENUM[key]] *)
Definition getProperty (key : JsString) : option ModelEnumValue :=
  match ownProperty key MODEL_NAME_TO_ENUM with
  | Some e => Some (Member e)
  | None =>
    if existsb (str_eqb key) inheritedNames then Some (ObjectPrototypeMember key)
    else None
  end.

(** [modelNameToEnum]: lower-case, trim, look up, default to Claude 3.5
    Sonnet. *)
Definition modelNameToEnum (modelName : JsString) : ModelEnumValue :=
  let normalized := trim (toLowerCase modelName) in
  match getProperty normalized with
  | Some v => v
  | None => Member CLAUDE_3_5_SONNET_20241022
  end.

(** The name is one of [Object.keys(MODEL_NAME_TO_ENUM)], the names the
    table lists. *)
Definition isTableKey (key : JsString) : bool :=
  existsb (fun entry => str_eqb (fst entry) key) MODEL_NAME_TO_ENUM.

(** Two names that differ only in '.' against '-' have the same image when
    every '.' is written as '-'. *)
Definition dashed (name : JsString) : JsString :=
  map (fun c => if c =? 46 then 45 else c) name.

(** Both names resolve to the same member. *)
Definition sameMember (k1 k2 : JsString) : bool :=
  match getProperty k1, getProperty k2 with
  | Some (Member a), Some (Member b) =>
    if ModelEnum_eq_dec a b then true else false
  | _, _ => false
  end.

End Models.

Import Models.

(** ** Response parsing ([grpc-client.ts]) *)

Module Extract.

(** How a call ends: with a value, or with a thrown [TypeError]. *)
Inductive Completion (A : Type) :=
| Returned (a : A)
| Thrown (error : JsString).
Arguments Returned {A} a.
Arguments Thrown {A} error.

Fixpoint takeWhile (p : Z -> bool) (s : JsString) : JsString :=
  match s with
  | c :: r => if p c then c :: takeWhile p r else []
  | [] => []
  end.

Fixpoint dropWhile (p : Z -> bool) (s : JsString) : JsString :=
  match s with
  | c :: r => if p c then dropWhile p r else s
  | [] => []
  end.

(** *** [chunk.toString('utf8')]

    The UTF-8 decoder: an ill-formed sequence becomes U+FFFD, once per
    maximal ill-formed part; a code point above U+FFFF becomes a surrogate
    pair. *)
Record Utf8State := mkUtf8 {
  needed : Z;      (* continuation bytes still expected *)
  codePoint : Z;   (* bits gathered so far *)
  lower : Z;       (* bounds of the next continuation byte *)
  upper : Z
}.

Definition utf8Start : Utf8State := mkUtf8 0 0 0x80 0xBF.

Definition codeUnitsOf (cp : Z) : JsString :=
  if cp <? 0x10000 then [cp]
  else [0xD800 + Z.shiftr (cp - 0x10000) 10; 0xDC00 + Z.land (cp - 0x10000) 0x3FF].

(** A byte read when no sequence is open. *)
Definition utf8Lead (b : Z) : JsString * Utf8State :=
  if b <=? 0x7F then ([b], utf8Start)
  else if (0xC2 <=? b) && (b <=? 0xDF) then
    ([], mkUtf8 1 (Z.land b 0x1F) 0x80 0xBF)
  else if (0xE0 <=? b) && (b <=? 0xEF) then
    ([], mkUtf8 2 (Z.land b 0xF)
           (if b =? 0xE0 then 0xA0 else 0x80) (if b =? 0xED then 0x9F else 0xBF))
  else if (0xF0 <=? b) && (b <=? 0xF4) then
    ([], mkUtf8 3 (Z.land b 0x7)
           (if b =? 0xF0 then 0x90 else 0x80) (if b =? 0xF4 then 0x8F else 0xBF))
  else ([0xFFFD], utf8Start).

Definition utf8Step (st : Utf8State) (b : Z) : JsString * Utf8State :=
  if needed st =? 0 then utf8Lead b
  else if (lower st <=? b) && (b <=? upper st) then
    let cp := Z.lor (Z.shiftl (codePoint st) 6) (Z.land b 0x3F) in
    if needed st =? 1 then (codeUnitsOf cp, utf8Start)
    else ([], mkUtf8 (needed st - 1) cp 0x80 0xBF)
  else
    let (out, st') := utf8Lead b in (0xFFFD :: out, st').

Fixpoint utf8Decode (st : Utf8State) (bytes : list Z) : JsString :=
  match bytes with
  | [] => if needed st =? 0 then [] else [0xFFFD]
  | b :: r => let (out, st') := utf8Step st b in out ++ utf8Decode st' r
  end.

Definition toStringUtf8 (chunk : list Z) : JsString := utf8Decode utf8Start chunk.

(** *** The regular expressions of the extractor *)

(** [.replace(/[^\x20-\x7E\n]/g, ' ')] *)
Definition replaceNonPrintable (s : JsString) : JsString :=
  map (fun c => if ((0x20 <=? c) && (c <=? 0x7E)) || (c =? 10) then c else 32) s.

Definition isAsterisk (c : Z) : bool := c =? 42.
Definition notZeroDigit (c : Z) : bool := negb (c =? 48).
Definition isDigit (c : Z) : bool := (48 <=? c) && (c <=? 57).

(** [/\*\s*([^0]+)/] tried right after a '*': [\s*] first takes the whole
    run of white space and [[^0]+] the run of characters other than '0'
    that follows; when that run is empty, [\s*] gives back its last
    character, which [[^0]+] then takes alone.  Returns the match after
    the '*' and capture 1. *)
Definition markerAfterAsterisk (rest : JsString) : option (JsString * JsString) :=
  let spaces := takeWhile isWhiteSpace rest in
  match takeWhile notZeroDigit (dropWhile isWhiteSpace rest) with
  | c :: g => Some (spaces ++ c :: g, c :: g)
  | [] =>
    match rev spaces with
    | c :: _ => Some (spaces, [c])
    | [] => None
    end
  end.

(** [readable.match(/\*\s*([^0]+)/)]: the match array of the leftmost
    match, [null] as [None]. *)
Fixpoint markerMatch (s : JsString) : option (list (option JsString)) :=
  match s with
  | [] => None
  | c :: rest =>
    if isAsterisk c then
      match markerAfterAsterisk rest with
      | Some (m, g) => Some [Some (c :: m); Some g]
      | None => markerMatch rest
      end
    else markerMatch rest
  end.

Definition startsWithSpace (s : JsString) : bool :=
  match s with
  | c :: _ => isWhiteSpace c
  | [] => false
  end.

(** [readable.split(/\s{2,}/)]: [inSeparator] holds while a run of two or
    more white-space characters is being skipped, [part] is the part read
    so far, last character first. *)
Fixpoint splitWide (inSeparator : bool) (part : JsString) (s : JsString)
  : list JsString :=
  match s with
  | [] => [rev part]
  | c :: r =>
    if inSeparator then
      if isWhiteSpace c then splitWide true [] r else splitWide false [c] r
    else if isWhiteSpace c && startsWithSpace r then
      rev part :: splitWide true [] r
    else splitWide false (c :: part) r
  end.

(** [part.includes('-')] *)
Definition includesDash (part : JsString) : bool := existsb (fun c => c =? 45) part.

Definition isHexOrDash (c : Z) : bool :=
  ((97 <=? c) && (c <=? 102)) || ((65 <=? c) && (c <=? 70)) || isDigit c
  || (c =? 45).

(** [part.match(/^[a-f0-9-]+$/i)] is not null. *)
Definition looksLikeId (part : JsString) : bool :=
  match part with
  | [] => false
  | _ => forallb isHexOrDash part
  end.

(** [part.replace(/^[\s\d*]+/, '')] *)
Definition stripLead (part : JsString) : JsString :=
  dropWhile (fun c => isWhiteSpace c || isDigit c || isAsterisk c) part.

(** What one part of the fallback recovers: the cleaned text, when the
    part passes the tests of the loop and the cleaned text is not empty. *)
Definition candidate (part : JsString) : option JsString :=
  if (0 <? Z.of_nat (length part)) && negb (includesDash part)
     && negb (looksLikeId part)
  then
    let cleaned := trim (stripLead part) in
    if 0 <? Z.of_nat (length cleaned) then Some cleaned else None
  else None.

(** The [for] loop over the parts and the final [return '']. *)
Fixpoint firstCandidate (parts : list JsString) : JsString :=
  match parts with
  | [] => lit ""
  | part :: rest =>
    match candidate part with
    | Some cleaned => cleaned
    | None => firstCandidate rest
    end
  end.

Definition readableOf (chunk : list Z) : JsString :=
  trim (replaceNonPrintable (toStringUtf8 chunk)).

(** [textMatch[1].trim()]: a [TypeError] when the capture is undefined. *)
Definition trimCapture (textMatch : list (option JsString)) : Completion JsString :=
  match nth 1 textMatch None with
  | Some g => Returned (trim g)
  | None => Thrown (lit "TypeError")
  end.

Definition extractTextFromChunk (chunk : list Z) : Completion JsString :=
  let readable := readableOf chunk in
  match markerMatch readable with
  | Some textMatch => trimCapture textMatch
  | None =>
    let parts := splitWide false [] readable in
    Returned (firstCandidate parts)
  end.

End Extract.

Import Extract.

(** ** The tool-call planner ([plugin.ts]) *)

Module Planner.

(** *** JSON values and [JSON.parse] *)

(** A value that [JSON.parse] returns.  A number is kept as its literal; an
    object keeps one member per key, in the order of first occurrence.
    (JavaScript lists the keys that are array indices first, and two
    literals can denote one number; nothing stated below depends on the
    order of members or on the spelling of a number.) *)
#[warnings="-register-all"]
Inductive JsValue :=
| JNull
| JBool (b : bool)
| JNumber (literal : JsString)
| JString (s : JsString)
| JArray (items : list JsValue)
| JObject (members : list (JsString * JsValue)).

(** Defining a property: a later member of the same key replaces the value. *)
Fixpoint setProperty (key : JsString) (v : JsValue)
    (members : list (JsString * JsValue)) : list (JsString * JsValue) :=
  match members with
  | [] => [(key, v)]
  | (k, v') :: rest =>
    if str_eqb k key then (key, v) :: rest else (k, v') :: setProperty key v rest
  end.

(** The outcome of a parsing function: a value and the unread text, a
    syntax error, or recursion cut off. *)
Inductive Parsed (A : Type) :=
| Done (a : A) (rest : JsString)
| SyntaxError
| OutOfFuel.
Arguments Done {A} a rest.
Arguments SyntaxError {A}.
Arguments OutOfFuel {A}.

Definition isJsonSpace (c : Z) : bool :=
  (c =? 9) || (c =? 10) || (c =? 13) || (c =? 32).

Definition skipSpace (s : JsString) : JsString := dropWhile isJsonSpace s.

Definition hexValue (c : Z) : option Z :=
  if isDigit c then Some (c - 48)
  else if (97 <=? c) && (c <=? 102) then Some (c - 87)
  else if (65 <=? c) && (c <=? 70) then Some (c - 55)
  else None.

(** The characters of a string literal after the opening quote. *)
Fixpoint parseChars (s : JsString) (acc : JsString) : Parsed JsString :=
  match s with
  | [] => SyntaxError
  | c :: r =>
    if c =? 34 then Done (rev acc) r
    else if c =? 92 then
      match r with
      | [] => SyntaxError
      | e :: r' =>
        if e =? 34 then parseChars r' (34 :: acc)
        else if e =? 92 then parseChars r' (92 :: acc)
        else if e =? 47 then parseChars r' (47 :: acc)
        else if e =? 98 then parseChars r' (8 :: acc)
        else if e =? 102 then parseChars r' (12 :: acc)
        else if e =? 110 then parseChars r' (10 :: acc)
        else if e =? 114 then parseChars r' (13 :: acc)
        else if e =? 116 then parseChars r' (9 :: acc)
        else if e =? 117 then
          match r' with
          | h1 :: h2 :: h3 :: h4 :: r'' =>
            match hexValue h1, hexValue h2, hexValue h3, hexValue h4 with
            | Some a, Some b, Some c', Some d =>
              parseChars r'' (((a * 16 + b) * 16 + c') * 16 + d :: acc)
            | _, _, _, _ => SyntaxError
            end
          | _ => SyntaxError
          end
        else SyntaxError
      end
    else if c <? 32 then SyntaxError
    else parseChars r (c :: acc)
  end.

(** The exponent of a number, after the integer and fraction [lexeme]. *)
Definition parseExponent (lexeme rest : JsString) : Parsed JsString :=
  match rest with
  | e :: r =>
    if (e =? 101) || (e =? 69) then
      let sign := match r with
                  | c :: _ => if (c =? 43) || (c =? 45) then [c] else []
                  | [] => []
                  end in
      let r1 := match r with
                | c :: r' => if (c =? 43) || (c =? 45) then r' else r
                | [] => r
                end in
      match takeWhile isDigit r1 with
      | [] => SyntaxError
      | ds => Done (lexeme ++ e :: sign ++ ds) (dropWhile isDigit r1)
      end
    else Done lexeme rest
  | [] => Done lexeme rest
  end.

Definition parseFraction (lexeme rest : JsString) : Parsed JsString :=
  match rest with
  | c :: r =>
    if c =? 46 then
      match takeWhile isDigit r with
      | [] => SyntaxError
      | ds => parseExponent (lexeme ++ c :: ds) (dropWhile isDigit r)
      end
    else parseExponent lexeme rest
  | [] => Done lexeme rest
  end.

Definition parseInteger (sign rest : JsString) : Parsed JsString :=
  match rest with
  | c :: r =>
    if c =? 48 then parseFraction (sign ++ [c]) r
    else if isDigit c then
      parseFraction (sign ++ c :: takeWhile isDigit r) (dropWhile isDigit r)
    else SyntaxError
  | [] => SyntaxError
  end.

(** A number: an optional '-', then '0' or a digit from 1 to 9 followed
    by digits, then an optional fraction and an optional exponent. *)
Definition parseNumber (s : JsString) : Parsed JsString :=
  match s with
  | c :: r => if c =? 45 then parseInteger [c] r else parseInteger [] s
  | [] => SyntaxError
  end.

Fixpoint stripPrefix (prefix s : JsString) : option JsString :=
  match prefix, s with
  | [], _ => Some s
  | p :: prefix', c :: s' => if p =? c then stripPrefix prefix' s' else None
  | _ :: _, [] => None
  end.

Definition parseLiteral (word : JsString) (v : JsValue) (s : JsString)
  : Parsed JsValue :=
  match stripPrefix word s with
  | Some rest => Done v rest
  | None => SyntaxError
  end.

(** A value, the elements of an array after '[' or ',', and the members of
    an object after '{' or ','. *)
Fixpoint parseValue (fuel : nat) (s : JsString) : Parsed JsValue :=
  match fuel with
  | O => OutOfFuel
  | S fuel' =>
    match skipSpace s with
    | [] => SyntaxError
    | c :: r =>
      if c =? 123 then
        match skipSpace r with
        | d :: r' =>
          if d =? 125 then Done (JObject []) r' else parseMembers fuel' (d :: r') []
        | [] => SyntaxError
        end
      else if c =? 91 then
        match skipSpace r with
        | d :: r' =>
          if d =? 93 then Done (JArray []) r' else parseElements fuel' (d :: r') []
        | [] => SyntaxError
        end
      else if c =? 34 then
        match parseChars r [] with
        | Done str rest => Done (JString str) rest
        | SyntaxError => SyntaxError
        | OutOfFuel => OutOfFuel
        end
      else if c =? 116 then parseLiteral (lit "true") (JBool true) (c :: r)
      else if c =? 102 then parseLiteral (lit "false") (JBool false) (c :: r)
      else if c =? 110 then parseLiteral (lit "null") JNull (c :: r)
      else
        match parseNumber (c :: r) with
        | Done lexeme rest => Done (JNumber lexeme) rest
        | SyntaxError => SyntaxError
        | OutOfFuel => OutOfFuel
        end
    end
  end
with parseElements (fuel : nat) (s : JsString) (acc : list JsValue)
  : Parsed JsValue :=
  match fuel with
  | O => OutOfFuel
  | S fuel' =>
    match parseValue fuel' s with
    | Done v rest =>
      match skipSpace rest with
      | c :: r =>
        if c =? 44 then parseElements fuel' r (v :: acc)
        else if c =? 93 then Done (JArray (rev (v :: acc))) r
        else SyntaxError
      | [] => SyntaxError
      end
    | SyntaxError => SyntaxError
    | OutOfFuel => OutOfFuel
    end
  end
with parseMembers (fuel : nat) (s : JsString) (acc : list (JsString * JsValue))
  : Parsed JsValue :=
  match fuel with
  | O => OutOfFuel
  | S fuel' =>
    match skipSpace s with
    | q :: r0 =>
      if q =? 34 then
        match parseChars r0 [] with
        | Done key rest =>
          match skipSpace rest with
          | c :: r =>
            if c =? 58 then
              match parseValue fuel' r with
              | Done v rest' =>
                match skipSpace rest' with
                | d :: r' =>
                  if d =? 44 then parseMembers fuel' r' (setProperty key v acc)
                  else if d =? 125 then Done (JObject (setProperty key v acc)) r'
                  else SyntaxError
                | [] => SyntaxError
                end
              | SyntaxError => SyntaxError
              | OutOfFuel => OutOfFuel
              end
            else SyntaxError
          | [] => SyntaxError
          end
        | SyntaxError => SyntaxError
        | OutOfFuel => OutOfFuel
        end
      else SyntaxError
    | [] => SyntaxError
    end
  end.

(** Recursion allowed for a text: more than any text of that length needs. *)
Definition parseFuel (text : JsString) : nat := S (2 * length text).

(** [JSON.parse(text)]: the value, or [None] for the thrown [SyntaxError]. *)
Definition JSON_parse (text : JsString) : option JsValue :=
  match parseValue (parseFuel text) text with
  | Done v rest =>
    match skipSpace rest with
    | [] => Some v
    | _ :: _ => None
    end
  | SyntaxError => None
  | OutOfFuel => None
  end.

(** *** Reading the parsed value *)

(** [v.key]: [None] is [undefined]. *)
Definition getProp (v : JsValue) (key : JsString) : option JsValue :=
  match v with
  | JObject members =>
    match find (fun m => str_eqb (fst m) key) members with
    | Some m => Some (snd m)
    | None => None
    end
  | _ => None
  end.

(** The literal of a number denotes zero. *)
Definition isZeroLiteral (literal : JsString) : bool :=
  forallb (fun c => negb (isDigit c) || (c =? 48))
          (takeWhile (fun c => negb ((c =? 101) || (c =? 69))) literal).

(** [ToBoolean] *)
Definition truthy (v : JsValue) : bool :=
  match v with
  | JNull => false
  | JBool b => b
  | JNumber literal => negb (isZeroLiteral literal)
  | JString s => negb (str_eqb s [])
  | JArray _ | JObject _ => true
  end.

(** [x === 'word'] for a property that may be undefined. *)
Definition isString (x : option JsValue) (word : JsString) : bool :=
  match x with
  | Some (JString s) => str_eqb s word
  | _ => false
  end.

Record ToolCall := mkToolCall { name : JsString; arguments : JsValue }.

Inductive ToolCallPlan :=
| Final (content : JsString)
| ToolCalls (tool_calls : list ToolCall).

(** *** [normalizeToolArguments] *)

Fixpoint weight (v : JsValue) : nat :=
  match v with
  | JString s => S (length s)
  | JArray items => S (list_sum (map weight items))
  | JObject members => S (list_sum (map (fun m => weight (snd m)) members))
  | _ => 1%nat
  end.

Definition weights (vs : list JsValue) : nat := list_sum (map weight vs).

Definition memberWeights (ms : list (JsString * JsValue)) : nat :=
  list_sum (map (fun m => weight (snd m)) ms).

Definition firstIs (c : Z) (s : JsString) : bool :=
  match s with
  | d :: _ => d =? c
  | [] => false
  end.

(** [s.startsWith(open) && s.endsWith(close)] for one-character strings. *)
Definition enclosedBy (open close : Z) (s : JsString) : bool :=
  firstIs open s && firstIs close (rev s).

(** The recursion of [normalizeToolArguments], on the weight of the value.
    An object is rebuilt member by member with [result[key] = ...]; for the
    key [__proto__] that assignment sets no own property, a case the
    model leaves out: it keeps the member, normalized like the others. *)
Fixpoint normalize (fuel : nat) (raw : JsValue) : JsValue :=
  match fuel with
  | O => raw
  | S fuel' =>
    match raw with
    | JNull => JObject []
    | JString s =>
      let trimmed := trim s in
      let looksJson := enclosedBy 123 125 trimmed || enclosedBy 91 93 trimmed in
      if looksJson then
        match JSON_parse trimmed with
        | Some parsed => normalize fuel' parsed
        | None => raw
        end
      else raw
    | JArray items => JArray (map (normalize fuel') items)
    | JObject members =>
      JObject (map (fun m => (fst m, normalize fuel' (snd m))) members)
    | _ => raw
    end
  end.

(** [normalizeToolArguments(raw)]; [None] is [undefined]. *)
Definition normalizeToolArguments (raw : option JsValue) : JsValue :=
  match raw with
  | None => JObject []
  | Some v => normalize (weight v) v
  end.

(** *** The tagged syntax

    [/<tool_call>\s*([\w.-]+)\s*(\{[\s\S]*?\})(?=\s*(?:<tool_call>|$))/g] *)

Definition toolCallTag : JsString := lit "<tool_call>".

Definition isWordChar (c : Z) : bool :=
  ((97 <=? c) && (c <=? 122)) || ((65 <=? c) && (c <=? 90)) || isDigit c
  || (c =? 95).

(** [[\w.-]] *)
Definition isNameChar (c : Z) : bool := isWordChar c || (c =? 46) || (c =? 45).

(** [(?=\s*(?:<tool_call>|$))] *)
Definition tagOrEndAhead (s : JsString) : bool :=
  match dropWhile isWhiteSpace s with
  | [] => true
  | t => match stripPrefix toolCallTag t with Some _ => true | None => false end
  end.

(** [[\s\S]*?\}] before the lookahead: the shortest run that ends in a '}'
    after which the lookahead holds.  Returns the run and what follows. *)
Fixpoint shortestClose (s : JsString) (acc : JsString)
  : option (JsString * JsString) :=
  match s with
  | [] => None
  | c :: r =>
    if (c =? 125) && tagOrEndAhead r then Some (rev (c :: acc), r)
    else shortestClose r (c :: acc)
  end.

(** A match that starts here: capture 1, capture 2 and the length of the
    match. *)
Definition taggedMatchAt (s : JsString) : option (JsString * JsString * nat) :=
  match stripPrefix toolCallTag s with
  | Some r1 =>
    let r2 := dropWhile isWhiteSpace r1 in
    match takeWhile isNameChar r2 with
    | [] => None
    | callName =>
      match dropWhile isWhiteSpace (dropWhile isNameChar r2) with
      | c :: r3 =>
        if c =? 123 then
          match shortestClose r3 [] with
          | Some (body, rest) =>
            Some (callName, c :: body, (length s - length rest)%nat)
          | None => None
          end
        else None
      | [] => None
      end
    end
  | None => None
  end.

(** [output.matchAll(...)]: the captures of the successive matches; [skip]
    counts the characters of the last match still to pass. *)
Fixpoint taggedMatches (skip : nat) (s : JsString) : list (JsString * JsString) :=
  match s with
  | [] => []
  | _ :: r =>
    match skip with
    | S k => taggedMatches k r
    | O =>
      match taggedMatchAt s with
      | Some (callName, rawArgs, len) =>
        (callName, rawArgs) :: taggedMatches (len - 1) r
      | None => taggedMatches 0 r
      end
    end
  end.

(** *** [parseToolCallPlan] *)

Fixpoint indexOf (c : Z) (s : JsString) : option nat :=
  match s with
  | [] => None
  | d :: r =>
    if d =? c then Some 0%nat
    else match indexOf c r with
         | Some i => Some (S i)
         | None => None
         end
  end.

Fixpoint lastIndexOf (c : Z) (s : JsString) : option nat :=
  match s with
  | [] => None
  | d :: r =>
    match lastIndexOf c r with
    | Some i => Some (S i)
    | None => if d =? c then Some 0%nat else None
    end
  end.

(** [s.slice(from, to)] for [0 <= from <= to]. *)
Definition slice (from to : nat) (s : JsString) : JsString :=
  firstn (to - from) (skipn from s).

(** The entries of [parsed.tool_calls] that are kept, mapped. *)
Definition toolCallOf (t : JsValue) : option ToolCall :=
  if truthy t then
    match getProp t (lit "name") with
    | Some (JString n) =>
      Some (mkToolCall n (normalizeToolArguments (getProp t (lit "arguments"))))
    | _ => None
    end
  else None.

Fixpoint keep {A B} (f : A -> option B) (xs : list A) : list B :=
  match xs with
  | [] => []
  | x :: r => match f x with
              | Some y => y :: keep f r
              | None => keep f r
              end
  end.

(** The [try] block after a successful parse: the two tests in turn, each
    guarding the property it reads. *)
Definition planOfParsed (parsed : JsValue) : option ToolCallPlan :=
  let action := getProp parsed (lit "action") in
  match (if truthy parsed && isString action (lit "final")
         then getProp parsed (lit "content") else None) with
  | Some (JString content) => Some (Final content)
  | _ =>
    match (if truthy parsed && isString action (lit "tool_call")
           then getProp parsed (lit "tool_calls") else None) with
    | Some (JArray items) => Some (ToolCalls (keep toolCallOf items))
    | _ => None
    end
  end.

(** One match of the tagged syntax, as a call or [null]. *)
Definition toolCallOfMatch (m : JsString * JsString) : option ToolCall :=
  match JSON_parse (snd m) with
  | Some args => Some (mkToolCall (fst m) (normalizeToolArguments (Some args)))
  | None => None
  end.

(** The [catch] block. *)
Definition planOfTags (output : JsString) : option ToolCallPlan :=
  match taggedMatches 0 output with
  | [] => None
  | matches =>
    match keep toolCallOfMatch matches with
    | [] => None
    | calls => Some (ToolCalls calls)
    end
  end.

(** The text between the first '{' and the last '}', both included, when
    the first comes before the second. *)
Definition jsonTextOf (output : JsString) : option JsString :=
  match indexOf 123 output, lastIndexOf 125 output with
  | Some start, Some stop =>
    if (stop <=? start)%nat then None else Some (slice start (S stop) output)
  | _, _ => None
  end.

Definition parseToolCallPlan (output : JsString) : option ToolCallPlan :=
  match jsonTextOf output with
  | None => None
  | Some jsonText =>
    match JSON_parse jsonText with
    | Some parsed => planOfParsed parsed
    | None => planOfTags output
    end
  end.

(** *** Invariants of the parser, by the fuel it runs on *)

(** What the recursion of the parser keeps: it is not cut off when the fuel
    exceeds twice the length of the text, and it consumes text. *)
Definition valueOk (fuel : nat) : Prop :=
  forall s,
    ((2 * length s + 1 <= fuel)%nat -> parseValue fuel s <> OutOfFuel)
    /\ forall v rest, parseValue fuel s = Done v rest -> (length rest < length s)%nat.

Definition elementsOk (fuel : nat) : Prop :=
  forall s acc,
    ((2 * length s + 2 <= fuel)%nat -> parseElements fuel s acc <> OutOfFuel)
    /\ forall v rest, parseElements fuel s acc = Done v rest ->
                      (length rest < length s)%nat.

Definition membersOk (fuel : nat) : Prop :=
  forall s acc,
    ((2 * length s + 2 <= fuel)%nat -> parseMembers fuel s acc <> OutOfFuel)
    /\ forall v rest, parseMembers fuel s acc = Done v rest ->
                      (length rest < length s)%nat.

Definition valueSize (fuel : nat) : Prop :=
  forall s v rest, parseValue fuel s = Done v rest ->
    (weight v + length rest <= length s)%nat.

Definition elementsSize (fuel : nat) : Prop :=
  forall s acc v rest, parseElements fuel s acc = Done v rest ->
    (weight v + length rest <= weights acc + length s)%nat.

Definition membersSize (fuel : nat) : Prop :=
  forall s acc v rest, parseMembers fuel s acc = Done v rest ->
    (weight v + length rest <= memberWeights acc + length s)%nat.

End Planner.

Import Planner.

(** ** The planning handler ([plugin.ts]) *)

Module Handler.

Inductive FinishReason := finish_stop | finish_tool_calls.

(** One entry of [message.tool_calls]: the id [call_<now>_<i>], the name,
    and the value whose [JSON.stringify] is the [arguments] string. *)
Record ToolCallEntry := mkEntry {
  entryStamp : Z;
  entryIndex : nat;
  entryName : JsString;
  entryArguments : JsValue
}.

(** The completion object of the response body, before [JSON.stringify]:
    the stamp of the id [windsurf-tools-<now>], [created], the model, the
    message and the finish reason. *)
Record ChatCompletion := mkCompletion {
  idStamp : Z;
  created : Z;
  completionModel : JsString;
  messageContent : JsString;
  messageToolCalls : option (list ToolCallEntry);
  finishReason : FinishReason
}.

Record Response := mkResponse {
  status : Z;
  contentType : JsString;
  body : ChatCompletion
}.

(** [request.model || getDefaultModel()] *)
Definition modelOf (requestModel : option JsString) : JsString :=
  match requestModel with
  | Some (c :: m) => c :: m
  | _ => lit "claude-3.5-sonnet"
  end.

(** [toolCalls.map((tc, i) => ...)] *)
Fixpoint mapCalls (i : nat) (toolCalls : list ToolCall) : Eff (list ToolCallEntry) :=
  match toolCalls with
  | [] => ret []
  | tc :: rest =>
    now <- Date_now ;;
    mapped <- mapCalls (S i) rest ;;
    ret (mkEntry now i (name tc) (arguments tc) :: mapped)
  end.

Definition buildToolCallPayload (model : JsString) (toolCalls : list ToolCall)
  : Eff ChatCompletion :=
  mapped <- mapCalls 0 toolCalls ;;
  stamp <- Date_now ;;
  now <- Date_now ;;
  ret (mkCompletion stamp (now / 1000) model (lit "") (Some mapped)
         finish_tool_calls).

Definition jsonResponse (payload : ChatCompletion) : Response :=
  mkResponse 200 (lit "application/json") payload.

(** [handleToolPlanning], from the point where the single call to the
    bridge has ended: [bridge] is the text that [runWindsurfOnce] returned
    or the error it threw. *)
Definition handleToolPlanning (requestModel : option JsString)
    (bridge : Completion JsString) : Eff (Completion Response) :=
  match bridge with
  | Thrown e => ret (Thrown e)
  | Returned content =>
    let model := modelOf requestModel in
    let plan := parseToolCallPlan content in
    match plan with
    | Some (ToolCalls calls) =>
      payload <- buildToolCallPayload model calls ;;
      ret (Returned (jsonResponse payload))
    | _ =>
      let finalContent := match plan with
                          | Some (Final c) => c
                          | _ => content
                          end in
      stamp <- Date_now ;;
      now <- Date_now ;;
      ret (Returned (jsonResponse
             (mkCompletion stamp (now / 1000) model finalContent None finish_stop)))
    end
  end.

End Handler.

Import Handler.

(** ** Streaming ([grpc-client.ts]) *)

Module Stream.

Inductive WindsurfErrorCode := CONNECTION_FAILED | STREAM_ERROR.

(** A [WindsurfError]: its code and the text its message is built from. *)
Record WindsurfError := mkError {
  code : WindsurfErrorCode;
  detail : JsString
}.

(** What the runtime delivers to a call: the events of the HTTP/2 client
    and request, and the expiry of a timer set to 120000 ms. *)
Inductive Event :=
| ClientError (message : JsString)
| Connect
| Data (chunk : list Z)
| Trailers (grpcStatus : option JsString) (grpcMessage : option JsString)
| End
| RequestError (message : JsString)
| TimerElapsed.

(** [chunks.join('')] *)
Definition join (chunks : list JsString) : JsString := concat chunks.

(** The text a ['data'] handler keeps: the extracted text when it is not
    empty. *)
Definition keptText (chunk : list Z) : option JsString :=
  match extractTextFromChunk chunk with
  | Returned (c :: t) => Some (c :: t)
  | _ => None
  end.

Definition statusIsZero (grpcStatus : option JsString) : bool :=
  match grpcStatus with
  | Some s => str_eqb s (lit "0")
  | None => false
  end.

(** *** [decodeURIComponent]

    The decoder reads one code unit at a time.  A [%] opens an escape of
    two hexadecimal digits; an escaped octet below 0x80 is a character, a
    higher one starts or continues a UTF-8 sequence, whose further octets
    must be escapes as well.  [None] is the thrown [URIError]: an escape cut
    short or with a digit that is none, an octet that does not fit the
    sequence, a sequence left open. *)
Inductive EscapePhase :=
| Plain
| AfterPercent
| AfterDigit (high : Z).

Record UriState := mkUri {
  octets : Utf8State;    (* the UTF-8 sequence that is open, if any *)
  phase : EscapePhase
}.

Definition uriStart : UriState := mkUri utf8Start Plain.

Definition uriStep (st : UriState) (c : Z) : option (JsString * UriState) :=
  match phase st with
  | Plain =>
    if c =? 37 then Some ([], mkUri (octets st) AfterPercent)
    else if needed (octets st) =? 0 then Some ([c], st)
    else None
  | AfterPercent =>
    match hexValue c with
    | Some high => Some ([], mkUri (octets st) (AfterDigit high))
    | None => None
    end
  | AfterDigit high =>
    match hexValue c with
    | Some low =>
      let b := high * 16 + low in
      if needed (octets st) =? 0 then
        if b <? 0x80 then Some ([b], uriStart)
        else
          let (_, lead) := utf8Lead b in
          if needed lead =? 0 then None else Some ([], mkUri lead Plain)
      else if (lower (octets st) <=? b) && (b <=? upper (octets st)) then
        let (out, next) := utf8Step (octets st) b in
        Some (out, mkUri next Plain)
      else None
    | None => None
    end
  end.

Fixpoint decodeFrom (st : UriState) (s : JsString) : option JsString :=
  match s with
  | [] =>
    match phase st with
    | Plain => if needed (octets st) =? 0 then Some [] else None
    | _ => None
    end
  | c :: r =>
    match uriStep st c with
    | Some (out, st') =>
      match decodeFrom st' r with
      | Some text => Some (out ++ text)
      | None => None
      end
    | None => None
    end
  end.

Definition decodeURIComponent (s : JsString) : option JsString :=
  decodeFrom uriStart s.

(** [message ? decodeURIComponent(message) : 'Unknown error'] *)
Definition errorText (grpcMessage : option JsString) : Completion JsString :=
  match grpcMessage with
  | Some (c :: m) =>
    match decodeURIComponent (c :: m) with
    | Some text => Returned text
    | None => Thrown (lit "URIError")
    end
  | _ => Returned (lit "Unknown error")
  end.

(** [new WindsurfError(`gRPC error ${status}: ...`, STREAM_ERROR)]: the
    error, or the [URIError] thrown while its message is built. *)
Definition grpcError (grpcStatus grpcMessage : option JsString)
  : Completion WindsurfError :=
  match errorText grpcMessage with
  | Returned text => Returned (mkError STREAM_ERROR text)
  | Thrown e => Thrown e
  end.

(** *** [streamChat] *)

Inductive Settlement :=
| Resolved (fullText : JsString)
| Rejected (error : WindsurfError).

(** The promise of [streamChat] and what its handlers share. *)
Record Call := mkCall {
  connected : bool;            (* the request handlers are registered *)
  chunks : list JsString;      (* [chunks], in order *)
  settled : option Settlement  (* the promise, once resolved or rejected *)
}.

Definition newCall : Call := mkCall false [] None.

(** [resolve] and [reject] act only on a pending promise. *)
Definition settle (c : Call) (s : Settlement) : Call :=
  match settled c with
  | Some _ => c
  | None => mkCall (connected c) (chunks c) (Some s)
  end.

(** One event delivered to the handlers of [streamChat].  An exception
    thrown inside a handler (the [URIError] of [decodeURIComponent]) ends
    that handler where it stands: what it had not yet done stays undone,
    and the handlers stay registered. *)
Definition streamChatStep (c : Call) (e : Event) : Call :=
  match e with
  | ClientError message => settle c (Rejected (mkError CONNECTION_FAILED message))
  | Connect => mkCall true (chunks c) (settled c)
  | TimerElapsed => settle c (Resolved (join (chunks c)))
  | _ =>
    if connected c then
      match e with
      | Data chunk =>
        match keptText chunk with
        | Some text => mkCall true (chunks c ++ [text]) (settled c)
        | None => c
        end
      | Trailers grpcStatus grpcMessage =>
        if statusIsZero grpcStatus then c
        else
          match grpcError grpcStatus grpcMessage with
          | Returned err => settle c (Rejected err)
          | Thrown _ => c   (* thrown before [reject(err)] is reached *)
          end
      | End => settle c (Resolved (join (chunks c)))
      | RequestError message => settle c (Rejected (mkError STREAM_ERROR message))
      | _ => c
      end
    else c
  end.

Definition streamChat (events : list Event) : Call :=
  fold_left streamChatStep events newCall.

(** *** [streamChatGenerator] *)

(** What the handlers of the generator share, with the chunks already
    yielded to the consumer. *)
Record Generator := mkGenerator {
  chunkQueue : list JsString;
  done : bool;
  error : option WindsurfError;
  yielded : list JsString
}.

Definition newGenerator : Generator := mkGenerator [] false None [].

(** The handlers that [streamChatGenerator] registers; it sets no timer,
    so the expiry of one changes nothing. *)
Definition handlerStep (g : Generator) (e : Event) : Generator :=
  match e with
  | ClientError message =>
    mkGenerator (chunkQueue g) true (Some (mkError CONNECTION_FAILED message))
                (yielded g)
  | Connect => g
  | Data chunk =>
    match keptText chunk with
    | Some text => mkGenerator (chunkQueue g ++ [text]) (done g) (error g) (yielded g)
    | None => g
    end
  | Trailers grpcStatus grpcMessage =>
    if statusIsZero grpcStatus then g
    else
      match grpcError grpcStatus grpcMessage with
      | Returned err => mkGenerator (chunkQueue g) (done g) (Some err) (yielded g)
      | Thrown _ => g   (* thrown before [error = ...] is reached *)
      end
  | End => mkGenerator (chunkQueue g) true (error g) (yielded g)
  | RequestError message =>
    mkGenerator (chunkQueue g) true (Some (mkError STREAM_ERROR message)) (yielded g)
  | TimerElapsed => g
  end.

(** The [while] loop run by a consumer that takes every chunk: the queue
    is handed over. *)
Definition drain (g : Generator) : Generator :=
  mkGenerator [] (done g) (error g) (yielded g ++ chunkQueue g).

Definition generatorStep (g : Generator) (e : Event) : Generator :=
  drain (handlerStep g e).

Definition streamChatGenerator (events : list Event) : Generator :=
  fold_left generatorStep events newGenerator.

(** Where the generator stands: waiting on [await], returned, or thrown. *)
Inductive Standing :=
| Waiting
| Finished
| Failed (error : WindsurfError).

Definition standing (g : Generator) : Standing :=
  if done g then
    match error g with
    | Some err => Failed err
    | None => Finished
    end
  else Waiting.

(** The events that leave a call open: data, trailers, and time. *)
Definition keepsOpen (e : Event) : bool :=
  match e with
  | Data _ | Trailers _ _ | Connect | TimerElapsed => true
  | _ => false
  end.

End Stream.

Import Stream.

(** ** Reading the wire format back *)

Module Reader.

(** What a field holds: a varint, or the bytes of a length-delimited field. *)
Inductive FieldValue :=
| VarintValue (v : Z)
| Bytes (data : list Z).

(** The reader of one field, as a protobuf decoder does it: the tag is a
    varint whose low three bits are the wire type and whose other bits are
    the field number; wire type 0 is followed by a varint, wire type 2 by a
    varint length and that many bytes.  Returns the field number, the value
    and the unread bytes. *)
Definition readField (bs : list Z) : option (Z * FieldValue * list Z) :=
  match decodeVarint bs with
  | Some (tag, rest) =>
    let fieldNum := Z.shiftr tag 3 in
    let wireType := Z.land tag 7 in
    if wireType =? 0 then
      match decodeVarint rest with
      | Some (v, rest') => Some (fieldNum, VarintValue v, rest')
      | None => None
      end
    else if wireType =? 2 then
      match decodeVarint rest with
      | Some (len, rest') =>
        if (Z.to_nat len <=? length rest')%nat then
          Some (fieldNum, Bytes (firstn (Z.to_nat len) rest'),
                skipn (Z.to_nat len) rest')
        else None
      | None => None
      end
    else None
  | None => None
  end.

(** The fields of a message, in order; [fuel] bounds their number. *)
Fixpoint readFields (fuel : nat) (bs : list Z) : option (list (Z * FieldValue)) :=
  match bs with
  | [] => Some []
  | _ :: _ =>
    match fuel with
    | O => None
    | S fuel' =>
      match readField bs with
      | Some (fieldNum, v, rest) =>
        match readFields fuel' rest with
        | Some fields => Some ((fieldNum, v) :: fields)
        | None => None
        end
      | None => None
      end
    end
  end.

(** A message holds at most as many fields as bytes. *)
Definition readMessage (bs : list Z) : option (list (Z * FieldValue)) :=
  readFields (length bs) bs.

(** A code unit of a string: 0 .. 0xFFFF. *)
Definition isCodeUnit (c : Z) : Prop := 0 <= c < 65536.

End Reader.

Import Reader.

(** ** The request tester ([tests/live/request.ts]) *)

Module Tester.

(** [ToUint32]: the operand conversion of [>>>]. *)
Definition toUint32 (x : Z) : Z := x mod 2 ^ 32.

(** [a & b] on numbers. *)
Definition and32 (a b : Z) : Z := Z.land (toInt32 a) (toInt32 b).

(** [a >>> n] on numbers. *)
Definition shru32 (a n : Z) : Z := Z.shiftr (toUint32 a) (Z.land n 31).

(** The loop of the tester's [encodeVarint], on a number:
    [while (v > 0x7f) { bytes.push((v & 0x7f) | 0x80); v >>>= 7 }
    bytes.push(v)]. *)
Equations? pushGroups (v : Z) : list Z by wf (Z.to_nat (Z.log2 v)) lt :=
  pushGroups v with Z_gt_le_dec v 127 => {
    | left _ => or32 (and32 v 0x7f) 0x80 :: pushGroups (shru32 v 7);
    | right _ => [v] }.
Proof.
  unfold shru32, toUint32. change (Z.land 7 31) with 7.
  assert (7 <= Z.log2 v) by (apply Z.log2_le_pow2; lia).
  assert (0 <= v mod 2 ^ 32 <= v).
  { split; [apply Z.mod_pos_bound; lia|]. apply Z.mod_le; lia. }
  assert (Z.log2 (v mod 2 ^ 32) <= Z.log2 v) by (apply Z.log2_le_mono; lia).
  destruct (Z.eq_dec (v mod 2 ^ 32) 0) as [E|E].
  - rewrite E. change (Z.log2 (Z.shiftr 0 7)) with 0. lia.
  - rewrite Z.log2_shiftr by lia. lia.
Qed.

(** [encodeVarint(value: number)]: [return bytes.length ? bytes : [0]]. *)
Definition encodeVarint (value : Z) : list Z :=
  let bytes := pushGroups value in
  match bytes with
  | [] => [0]
  | _ :: _ => bytes
  end.

End Tester.

(** ** The canonical names of the models ([models.ts]) *)

Module ModelNames.

(** [ENUM_TO_MODEL_NAME], in the order of the source; a member stands for
    its number. *)
Definition ENUM_TO_MODEL_NAME : list (ModelEnum * JsString) := [
  (CLAUDE_3_OPUS_20240229, lit "claude-3-opus");
  (CLAUDE_3_SONNET_20240229, lit "claude-3-sonnet");
  (CLAUDE_3_HAIKU_20240307, lit "claude-3-haiku");
  (CLAUDE_3_5_SONNET_20241022, lit "claude-3.5-sonnet");
  (CLAUDE_3_5_HAIKU_20241022, lit "claude-3.5-haiku");
  (CLAUDE_3_7_SONNET_20250219, lit "claude-3.7-sonnet");
  (CLAUDE_3_7_SONNET_20250219_THINKING, lit "claude-3.7-sonnet-thinking");
  (CLAUDE_4_OPUS, lit "claude-4-opus");
  (CLAUDE_4_OPUS_THINKING, lit "claude-4-opus-thinking");
  (CLAUDE_4_SONNET, lit "claude-4-sonnet");
  (CLAUDE_4_SONNET_THINKING, lit "claude-4-sonnet-thinking");
  (CLAUDE_4_1_OPUS, lit "claude-4.1-opus");
  (CLAUDE_4_1_OPUS_THINKING, lit "claude-4.1-opus-thinking");
  (CLAUDE_4_5_SONNET, lit "claude-4.5-sonnet");
  (CLAUDE_4_5_SONNET_THINKING, lit "claude-4.5-sonnet-thinking");
  (CLAUDE_4_5_SONNET_1M, lit "claude-4.5-sonnet-1m");
  (CLAUDE_4_5_OPUS, lit "claude-4.5-opus");
  (CLAUDE_4_5_OPUS_THINKING, lit "claude-4.5-opus-thinking");
  (CLAUDE_CODE, lit "claude-code");
  (GPT_4, lit "gpt-4");
  (GPT_4_1106_PREVIEW, lit "gpt-4-turbo");
  (GPT_4O_2024_08_06, lit "gpt-4o");
  (GPT_4O_MINI_2024_07_18, lit "gpt-4o-mini");
  (GPT_4_5, lit "gpt-4.5");
  (GPT_4_1_2025_04_14, lit "gpt-4.1");
  (GPT_4_1_MINI_2025_04_14, lit "gpt-4.1-mini");
  (GPT_4_1_NANO_2025_04_14, lit "gpt-4.1-nano");
  (GPT_5, lit "gpt-5");
  (GPT_5_NANO, lit "gpt-5-nano");
  (GPT_5_LOW, lit "gpt-5-low");
  (GPT_5_HIGH, lit "gpt-5-high");
  (GPT_5_CODEX, lit "gpt-5-codex");
  (GPT_5_2_LOW, lit "gpt-5.2-low");
  (GPT_5_2_MEDIUM, lit "gpt-5.2");
  (GPT_5_2_HIGH, lit "gpt-5.2-high");
  (GPT_5_2_XHIGH, lit "gpt-5.2-xhigh");
  (O1, lit "o1");
  (O1_MINI, lit "o1-mini");
  (O1_PREVIEW, lit "o1-preview");
  (O3, lit "o3");
  (O3_MINI, lit "o3-mini");
  (O3_LOW, lit "o3-low");
  (O3_HIGH, lit "o3-high");
  (O3_PRO, lit "o3-pro");
  (O3_PRO_LOW, lit "o3-pro-low");
  (O3_PRO_HIGH, lit "o3-pro-high");
  (O4_MINI, lit "o4-mini");
  (O4_MINI_LOW, lit "o4-mini-low");
  (O4_MINI_HIGH, lit "o4-mini-high");
  (GEMINI_1_0_PRO, lit "gemini-1.0-pro");
  (GEMINI_1_5_PRO, lit "gemini-1.5-pro");
  (GEMINI_2_0_FLASH, lit "gemini-2.0-flash");
  (GEMINI_2_5_PRO, lit "gemini-2.5-pro");
  (GEMINI_2_5_FLASH, lit "gemini-2.5-flash");
  (GEMINI_2_5_FLASH_THINKING, lit "gemini-2.5-flash-thinking");
  (GEMINI_2_5_FLASH_LITE, lit "gemini-2.5-flash-lite");
  (GEMINI_3_0_PRO_LOW, lit "gemini-3.0-pro-low");
  (GEMINI_3_0_PRO_HIGH, lit "gemini-3.0-pro-high");
  (DEEPSEEK_V3, lit "deepseek-v3");
  (DEEPSEEK_V3_2, lit "deepseek-v3-2");
  (DEEPSEEK_R1, lit "deepseek-r1");
  (DEEPSEEK_R1_FAST, lit "deepseek-r1-fast");
  (DEEPSEEK_R1_SLOW, lit "deepseek-r1-slow");
  (LLAMA_3_1_8B_INSTRUCT, lit "llama-3.1-8b");
  (LLAMA_3_1_70B_INSTRUCT, lit "llama-3.1-70b");
  (LLAMA_3_1_405B_INSTRUCT, lit "llama-3.1-405b");
  (LLAMA_3_3_70B_INSTRUCT, lit "llama-3.3-70b");
  (LLAMA_3_3_70B_INSTRUCT_R1, lit "llama-3.3-70b-r1");
  (QWEN_2_5_7B_INSTRUCT, lit "qwen-2.5-7b");
  (QWEN_2_5_32B_INSTRUCT, lit "qwen-2.5-32b");
  (QWEN_2_5_72B_INSTRUCT, lit "qwen-2.5-72b");
  (QWEN_3_235B_INSTRUCT, lit "qwen-3-235b");
  (QWEN_3_CODER_480B_INSTRUCT, lit "qwen-3-coder-480b");
  (GROK_2, lit "grok-2");
  (GROK_3, lit "grok-3");
  (GROK_3_MINI_REASONING, lit "grok-3-mini");
  (GROK_CODE_FAST, lit "grok-code-fast");
  (MISTRAL_7B, lit "mistral-7b");
  (KIMI_K2, lit "kimi-k2");
  (KIMI_K2_THINKING, lit "kimi-k2-thinking");
  (GLM_4_5, lit "glm-4.5");
  (GLM_4_6, lit "glm-4.6");
  (MINIMAX_M2, lit "minimax-m2");
  (SWE_1_5, lit "swe-1.5");
  (SWE_1_5_THINKING, lit "swe-1.5-thinking")
].

Fixpoint nameOfMember (e : ModelEnum) (table : list (ModelEnum * JsString))
  : option JsString :=
  match table with
  | [] => None
  | (e', n) :: rest =>
    if ModelEnum_beq e' e then Some n else nameOfMember e rest
  end.

(** [getDefaultModel] *)
Definition getDefaultModel : JsString := lit "claude-3.5-sonnet".

(** [getDefaultModelEnum] *)
Definition getDefaultModelEnum : ModelEnum := CLAUDE_3_5_SONNET_20241022.

(** [enumToModelName] *)
Definition enumToModelName (enumValue : ModelEnum) : JsString :=
  match nameOfMember enumValue ENUM_TO_MODEL_NAME with
  | Some n => n
  | None => lit "claude-3.5-sonnet"
  end.

(** [getSupportedModels]: [Object.keys(MODEL_NAME_TO_ENUM)] *)
Definition getSupportedModels : list JsString := map fst MODEL_NAME_TO_ENUM.

(** [getCanonicalModels]: the values of [ENUM_TO_MODEL_NAME], here in the
    order of the source ([Object.values] lists them by enum number). *)
Definition getCanonicalModels : list JsString := map snd ENUM_TO_MODEL_NAME.

(** [isModelSupported]: [normalized in MODEL_NAME_TO_ENUM], which holds for
    own and for inherited names. *)
Definition isModelSupported (modelName : JsString) : bool :=
  match getProperty (trim (toLowerCase modelName)) with
  | Some _ => true
  | None => false
  end.

(** Every member of the enum that the tables name. *)
Definition allMembers : list ModelEnum := map fst ENUM_TO_MODEL_NAME.

End ModelNames.

Import ModelNames.

(** ** Characters of the readable text *)

Module Readable.

(** What [/[^\x20-\x7E\n]/] leaves in place: printable ASCII and the line
    feed. *)
Definition isReadable (c : Z) : Prop := 0x20 <= c <= 0x7E \/ c = 10.

(** A printable ASCII character, as a byte of a chunk. *)
Definition isPrintable (c : Z) : Prop := 0x20 <= c <= 0x7E.

(** What the decoder holds between two bytes: the bounds of the next
    continuation byte lie in 0x80 .. 0xBF, and the bits gathered so far
    leave only code points from U+0080 on. *)
Definition utf8Inv (st : Utf8State) : Prop :=
  0x80 <= lower st /\ upper st <= 0xBF /\ 0 <= codePoint st
  /\ (needed st = 0
      \/ (needed st = 1 /\ 128 <= codePoint st * 64 + (lower st - 128))
      \/ (needed st = 2 /\ 2 <= codePoint st * 64 + (lower st - 128))
      \/ (needed st = 3 /\ 1 <= codePoint st * 64 + (lower st - 128))).

(** No two white-space characters in a row: [/\s{2,}/] finds nothing to
    split at. *)
Fixpoint noWideGap (s : JsString) : bool :=
  match s with
  | c :: r => negb (isWhiteSpace c && startsWithSpace r) && noWideGap r
  | [] => true
  end.

(** A control byte, 0x00 .. 0x1F. *)
Definition isControlByte (b : Z) : Prop := 0 <= b < 0x20.

(** The text after the capture of the marker pattern: nothing, or a [0]
    and anything. *)
Definition stopsCapture (tail : list Z) : Prop :=
  tail = [] \/ exists more, tail = 48 :: more.

End Readable.

Import Readable.

(** ** The shape of normalized tool arguments *)

Module ArgShape.

(** No [null] at any depth. *)
Fixpoint nullFree (v : JsValue) : bool :=
  match v with
  | JNull => false
  | JArray items => forallb nullFree items
  | JObject members => forallb (fun m => nullFree (snd m)) members
  | _ => true
  end.

(** A string that [normalizeToolArguments] replaces: trimmed, it is
    enclosed in braces or brackets and [JSON.parse] accepts it. *)
Definition holdsJson (s : JsString) : bool :=
  let trimmed := trim s in
  (enclosedBy 123 125 trimmed || enclosedBy 91 93 trimmed)
  && match JSON_parse trimmed with
     | Some _ => true
     | None => false
     end.

(** Nothing is left to normalize: no [null] and no string that holds JSON,
    at any depth. *)
Fixpoint settledValue (v : JsValue) : bool :=
  match v with
  | JNull => false
  | JString s => negb (holdsJson s)
  | JArray items => forallb settledValue items
  | JObject members => forallb (fun m => settledValue (snd m)) members
  | _ => true
  end.

End ArgShape.

Import ArgShape.

(** ** Plans as the prompt asks for them *)

Module PlanText.

(** A character that stands for itself inside a JSON string literal. *)
Definition isPlainChar (c : Z) : Prop := 32 <= c /\ c <> 34 /\ c <> 92.

(** The JSON text of a final answer, [{"action":"final","content":"..."}],
    for a content of plain characters. *)
Definition finalPlanText (content : JsString) : JsString :=
  quoted "{'action':'final','content':'" ++ content ++ quoted "'}".

(** The JSON text of a plan that calls no tool. *)
Definition emptyCallsText : JsString :=
  quoted "{'action':'tool_call','tool_calls':[]}".

End PlanText.

Import PlanText.

(** * Theorems *)

(** ** Strings *)

Lemma str_eqb_eq a b : str_eqb a b = true <-> a = b.
Proof.
  revert b. induction a as [|x a IH]; intros [|y b]; simpl; split;
    try congruence; try discriminate.
  - intros H. apply andb_true_iff in H. destruct H as [H1 H2].
    apply Z.eqb_eq in H1. apply IH in H2. congruence.
  - intros H. injection H as -> ->. rewrite Z.eqb_refl. apply IH. reflexivity.
Qed.

(** ** The varint primitive *)

Example encodeVarint_300 : encodeVarint 300 = [0xAC; 0x02].
Proof. reflexivity. Qed.

(** A negative value is pushed as it is and leaves the loop at once; the
    byte image of the array wraps it. *)
Example encodeVarint_negative :
  encodeVarint (-1) = [-1] /\ bufferFrom (encodeVarint (-1)) = [255].
Proof. split; reflexivity. Qed.

Section VarintFacts.

Lemma toInt32_small x : - 2 ^ 31 <= x < 2 ^ 31 -> toInt32 x = x.
Proof. intros H. unfold toInt32. rewrite Z.mod_small; lia. Qed.

Lemma low7_range v : 0 <= Z.land v 0x7F < 128.
Proof.
  change 0x7F with (Z.ones 7). rewrite Z.land_ones by lia.
  apply Z.mod_pos_bound. lia.
Qed.

Lemma land_128_low x : 0 <= x < 128 -> Z.land x 128 = 0.
Proof.
  intros H. rewrite <- (Z.mod_small x (2 ^ 7)) by lia.
  rewrite <- Z.land_ones by lia. rewrite <- Z.land_assoc. apply Z.land_0_r.
Qed.

Lemma land_127_low x : 0 <= x < 128 -> Z.land x 127 = x.
Proof.
  intros H. change 127 with (Z.ones 7). rewrite Z.land_ones by lia.
  apply Z.mod_small. lia.
Qed.

Lemma or32_cont x : 0 <= x < 128 -> or32 x 0x80 = x + 128.
Proof.
  intros H. unfold or32. rewrite !toInt32_small by lia.
  rewrite <- Z.lxor_lor by (apply land_128_low; lia).
  symmetry. apply Z.add_nocarry_lxor. apply land_128_low; lia.
Qed.

Lemma cont_low7 x : 0 <= x < 128 -> Z.land (x + 128) 0x7F = x.
Proof.
  intros H. change 0x7F with (Z.ones 7). rewrite Z.land_ones by lia.
  replace (x + 128) with (x + 1 * 2 ^ 7) by lia.
  rewrite Z.mod_add by lia. apply Z.mod_small. lia.
Qed.

Lemma cont_flag x : 0 <= x < 128 -> hasContinuation (x + 128) = true.
Proof.
  intros H. unfold hasContinuation.
  rewrite <- or32_cont by lia. unfold or32. rewrite !toInt32_small by lia.
  rewrite Z.land_lor_distr_l. change (Z.land 128 128) with 128.
  destruct (Z.eqb_spec (Z.lor (Z.land x 128) 128) 0) as [E|E]; [|reflexivity].
  apply Z.lor_eq_0_iff in E. lia.
Qed.

Lemma last_flag x : 0 <= x <= 127 -> hasContinuation x = false.
Proof.
  intros H. unfold hasContinuation. rewrite land_128_low by lia. reflexivity.
Qed.

(** The defining equation of the loop. *)
Lemma encodeVarint_step v :
  encodeVarint v =
  if v >? 127 then or32 (Z.land v 0x7f) 0x80 :: encodeVarint (Z.shiftr v 7)
  else [v].
Proof.
  rewrite encodeVarint_equation_1. unfold encodeVarint_clause_1.
  destruct (Z_gt_le_dec v 127) as [H|H].
  - replace (v >? 127) with true by (symmetry; apply Z.gtb_lt; lia). reflexivity.
  - replace (v >? 127) with false; [reflexivity|].
    symmetry. rewrite Z.gtb_ltb. apply Z.ltb_ge. lia.
Qed.

Lemma split_low7 v : Z.lor (Z.land v 0x7F) (Z.shiftl (Z.shiftr v 7) 7) = v.
Proof.
  apply Z.bits_inj'. intros n Hn.
  rewrite Z.lor_spec, Z.land_spec.
  change 0x7F with (Z.ones 7).
  destruct (Z.ltb_spec n 7) as [L|L].
  - rewrite Z.ones_spec_low by lia. rewrite Z.shiftl_spec_low by lia.
    rewrite andb_true_r, orb_false_r. reflexivity.
  - rewrite Z.ones_spec_high by lia. rewrite Z.shiftl_spec by lia.
    rewrite Z.shiftr_spec by lia. rewrite andb_false_r. simpl.
    f_equal. lia.
Qed.

Lemma encodeVarint_facts v :
  0 <= v ->
  wellFormedVarint (encodeVarint v)
  /\ Forall isByte (encodeVarint v)
  /\ (forall i, 0 <= i -> varintSum i (encodeVarint v) = Z.shiftl v (7 * i))
  /\ (forall shift acc rest, 0 <= shift ->
        decodeVarintFrom shift acc (encodeVarint v ++ rest)
        = Some (Z.lor acc (Z.shiftl v shift), rest)).
Proof.
  intros Hv. pattern v. apply Zlt_0_ind; [clear v Hv|exact Hv].
  intros v IH Hv. rewrite encodeVarint_step.
  destruct (Z.gtb_spec v 127) as [Hbig|Hsmall].
  - pose proof (low7_range v) as Hlow.
    assert (Hq : 0 <= Z.shiftr v 7 < v).
    { rewrite Z.shiftr_div_pow2 by lia. split.
      - apply Z.div_pos; lia.
      - apply Z.div_lt; lia. }
    destruct (IH _ Hq) as (Hwf & Hbytes & Hsum & Hdec).
    rewrite or32_cont by lia.
    repeat split.
    + simpl. destruct (encodeVarint (Z.shiftr v 7)) eqn:E.
      * destruct Hwf.
      * split; [apply cont_flag; lia|exact Hwf].
    + constructor; [unfold isByte; lia|exact Hbytes].
    + intros i Hi. cbn [varintSum]. rewrite cont_low7 by lia.
      rewrite Hsum by lia.
      rewrite (Z.shiftl_mul_pow2 (Z.land v 127)) by lia.
      rewrite (Z.shiftl_mul_pow2 (Z.shiftr v 7)) by lia.
      rewrite (Z.shiftl_mul_pow2 v) by lia.
      rewrite Z.shiftr_div_pow2 by lia.
      change 127 with (Z.ones 7). rewrite Z.land_ones by lia.
      replace (7 * (i + 1)) with (7 + 7 * i) by lia.
      rewrite Z.pow_add_r by lia.
      rewrite (Z.div_mod v (2 ^ 7)) at 3 by lia. ring.
    + intros shift acc rest Hs. cbn [app decodeVarintFrom].
      rewrite cont_flag by lia. rewrite cont_low7 by lia.
      rewrite Hdec by lia. f_equal. f_equal.
      rewrite <- Z.lor_assoc. f_equal.
      replace (shift + 7) with (7 + shift) by lia.
      rewrite <- Z.shiftl_shiftl by lia.
      rewrite <- Z.shiftl_lor. rewrite split_low7. reflexivity.
  - repeat split.
    + simpl. apply last_flag. lia.
    + constructor; [unfold isByte; lia|constructor].
    + intros i Hi. simpl. rewrite land_127_low by lia. lia.
    + intros shift acc rest Hs. simpl.
      rewrite last_flag by lia. rewrite land_127_low by lia. reflexivity.
Qed.

End VarintFacts.

(** C10: for a non-negative integer the varint primitive emits a well-formed
    little-endian base-128 varint: every byte but the last has the
    continuation bit 0x80, the last has not, every entry is a byte, the
    groups [(b_i & 0x7F) << 7*i] sum to the value, and the standard decoder
    reads the value back and leaves the bytes that follow. *)
Theorem encodeVarint_roundtrip (v : Z) :
  0 <= v ->
  wellFormedVarint (encodeVarint v)
  /\ Forall isByte (encodeVarint v)
  /\ varintSum 0 (encodeVarint v) = v
  /\ forall rest, decodeVarint (encodeVarint v ++ rest) = Some (v, rest).
Proof.
  intros Hv. destruct (encodeVarint_facts v Hv) as (Hwf & Hb & Hsum & Hdec).
  repeat split; try assumption.
  - rewrite Hsum by lia. apply Z.shiftl_0_r.
  - intros rest. unfold decodeVarint. rewrite Hdec by lia.
    rewrite Z.shiftl_0_r. reflexivity.
Qed.

Lemma encodeVarint_roundtrip_witness :
  0 <= 300
  /\ wellFormedVarint (encodeVarint 300)
  /\ Forall isByte (encodeVarint 300)
  /\ varintSum 0 (encodeVarint 300) = 300
  /\ forall rest, decodeVarint (encodeVarint 300 ++ rest) = Some (300, rest).
Proof. split; [lia | apply (encodeVarint_roundtrip 300); lia]. Defined.

(** C3: field 1 with the string "hi" encodes to 0A 02 68 69. *)
Theorem encodeString_hi :
  encodeString 1 (lit "hi") = [0x0A; 0x02; 0x68; 0x69].
Proof. reflexivity. Qed.

(** ** The request frame *)

Section FrameFacts.

Lemma writeUInt32BE_spec n :
  0 <= n < 2 ^ 32 ->
  exists bs, writeUInt32BE n = Some bs
    /\ length bs = 4%nat /\ Forall isByte bs /\ readUIntBE bs = n.
Proof.
  intros Hn. unfold writeUInt32BE.
  replace ((0 <=? n) && (n <=? 0xFFFFFFFF)) with true
    by (symmetry; apply andb_true_iff; split; apply Z.leb_le; lia).
  eexists. split; [reflexivity|].
  change 255 with (Z.ones 8). rewrite !Z.land_ones by lia.
  rewrite !Z.shiftr_div_pow2 by lia.
  split; [reflexivity|]. split.
  - repeat constructor; unfold isByte; apply Z.mod_pos_bound; lia.
  - unfold readUIntBE. cbn [fold_left].
    change (2 ^ 24) with 16777216. change (2 ^ 16) with 65536.
    change (2 ^ 8) with 256. change (2 ^ 32) with 4294967296 in Hn.
    Z.div_mod_to_equations. lia.
Qed.

Lemma bufferFrom_length a : length (bufferFrom a) = length a.
Proof. apply length_map. Qed.

Lemma bufferFrom_bytes a : Forall isByte (bufferFrom a).
Proof.
  unfold bufferFrom. apply Forall_forall. intros x Hx.
  apply in_map_iff in Hx. destruct Hx as (y & <- & _).
  change 255 with (Z.ones 8). rewrite Z.land_ones by lia.
  unfold isByte. apply Z.mod_pos_bound. lia.
Qed.

Lemma frameOf_spec payload :
  Z.of_nat (length payload) < 2 ^ 32 ->
  exists lengthBytes,
    frameOf payload = Some (0 :: lengthBytes ++ payload)
    /\ length lengthBytes = 4%nat
    /\ Forall isByte lengthBytes
    /\ readUIntBE lengthBytes = Z.of_nat (length payload).
Proof.
  intros H. unfold frameOf.
  destruct (writeUInt32BE_spec (Z.of_nat (length payload))) as (bs & E & L & B & R);
    [lia|].
  rewrite E. exists bs. auto.
Qed.

End FrameFacts.

(** C1: whatever the credentials, the model enum and the messages, the
    request builder returns the flag byte 0, then the byte length of the
    payload as four big-endian bytes, then the payload, five bytes more than
    the payload in all.  The payload is the byte image of the request array,
    whose length a JavaScript array keeps below 2^32. *)
Theorem buildChatRequest_frame (USER : Z) (apiKey version : JsString)
    (modelEnum : Z) (messages : list ChatMessage) (w : World) :
  let payload :=
    bufferFrom (fst (requestFields USER apiKey version modelEnum messages w)) in
  Z.of_nat (length payload) < 2 ^ 32 ->
  exists lengthBytes frame,
    fst (buildChatRequest USER apiKey version modelEnum messages w) = Some frame
    /\ frame = [0] ++ lengthBytes ++ payload
    /\ length lengthBytes = 4%nat
    /\ Forall isByte lengthBytes
    /\ readUIntBE lengthBytes = Z.of_nat (length payload)
    /\ Forall isByte payload
    /\ length frame = (length payload + 5)%nat.
Proof.
  intros payload Hlen.
  destruct (frameOf_spec payload Hlen) as (bs & E & L & B & R).
  exists bs, (0 :: bs ++ payload).
  assert (Hrun : fst (buildChatRequest USER apiKey version modelEnum messages w)
                 = Some (0 :: bs ++ payload)).
  { unfold buildChatRequest, bind, ret. subst payload.
    destruct (requestFields USER apiKey version modelEnum messages w) as [req w'].
    exact E. }
  split; [exact Hrun|]. split; [reflexivity|].
  split; [exact L|]. split; [exact B|]. split; [exact R|].
  split; [apply bufferFrom_bytes|].
  cbn [length]. rewrite length_app, L. lia.
Qed.

Lemma buildChatRequest_frame_witness :
  let payload :=
    bufferFrom (fst (requestFields 1 (lit "key") (lit "1.13.104") 166
                       [mkChatMessage user (lit "hello")] sampleWorld)) in
  Z.of_nat (length payload) < 2 ^ 32
  /\ exists lengthBytes frame,
      fst (buildChatRequest 1 (lit "key") (lit "1.13.104") 166
             [mkChatMessage user (lit "hello")] sampleWorld) = Some frame
      /\ frame = [0] ++ lengthBytes ++ payload
      /\ length lengthBytes = 4%nat
      /\ Forall isByte lengthBytes
      /\ readUIntBE lengthBytes = Z.of_nat (length payload)
      /\ Forall isByte payload
      /\ length frame = (length payload + 5)%nat.
Proof.
  split; [vm_compute; reflexivity|].
  apply (buildChatRequest_frame 1 (lit "key") (lit "1.13.104") 166
           [mkChatMessage user (lit "hello")] sampleWorld).
  vm_compute; reflexivity.
Defined.

(** ** The chat turn of a request *)

Section PromptFacts.

Lemma filter_no_user ms :
  Forall (fun m => role m <> user) ms ->
  filter (fun m => Role_eqb (role m) user) ms = [].
Proof.
  induction 1 as [|m ms Hm _ IH]; [reflexivity|].
  simpl. destruct (role m); try congruence; exact IH.
Qed.

Lemma pop_snoc {A} (xs : list A) (x : A) : pop (xs ++ [x]) = Some x.
Proof. unfold pop. rewrite rev_app_distr. reflexivity. Qed.

(** The prompt of the builder is the text of the last user turn. *)
Lemma promptOf_unique ms text : LastUserText ms text -> promptOf ms = text.
Proof.
  intros H. unfold promptOf, lastUserMessage. destruct H as [ms H|pre m post Hm Hpost].
  - rewrite filter_no_user by assumption. reflexivity.
  - rewrite filter_app. cbn [filter]. rewrite Hm. cbn [Role_eqb].
    rewrite (filter_no_user post Hpost). rewrite pop_snoc.
    destruct (content m); reflexivity.
Qed.

(** Every message list has such a text. *)
Lemma LastUserText_total ms : LastUserText ms (promptOf ms).
Proof.
  induction ms as [|x init IH] using rev_ind.
  - apply NoUserTurn. constructor.
  - destruct (Role_eqb (role x) user) eqn:E.
    + assert (Hx : role x = user) by (destruct (role x); simpl in E; congruence).
      assert (Hp : LastUserText (init ++ x :: []) (content x))
        by (apply LastUserTurn; [exact Hx|constructor]).
      rewrite (promptOf_unique _ _ Hp). exact Hp.
    + assert (Hx : role x <> user) by (destruct (role x); simpl in E; congruence).
      assert (Hsame : promptOf (init ++ [x]) = promptOf init).
      { unfold promptOf, lastUserMessage. rewrite filter_app. cbn [filter].
        rewrite E. rewrite app_nil_r. reflexivity. }
      rewrite Hsame. inversion IH as [ms Hall Hms Ht|pre m post Hm Hpost Hms Ht].
      * apply NoUserTurn. apply Forall_app. split; [exact Hall|].
        constructor; [exact Hx|constructor].
      * rewrite <- app_assoc. cbn [app]. apply LastUserTurn; [exact Hm|].
        apply Forall_app. split; [exact Hpost|]. constructor; [exact Hx|constructor].
Qed.

Lemma requestFields_layout USER apiKey version modelEnum messages w :
  fst (requestFields USER apiKey version modelEnum messages w)
  = requestCarrying USER (metadataIn w apiKey version) (messageIdIn w)
      (timestampIn w) (conversationIdIn w) (promptOf messages) modelEnum.
Proof. reflexivity. Qed.

Lemma buildChatRequest_run USER apiKey version modelEnum messages w :
  fst (buildChatRequest USER apiKey version modelEnum messages w)
  = frameOf (bufferFrom
               (fst (requestFields USER apiKey version modelEnum messages w))).
Proof.
  unfold buildChatRequest, bind, ret.
  destruct (requestFields USER apiKey version modelEnum messages w). reflexivity.
Qed.

End PromptFacts.

(** C2: the chat turn written into the request is the content of the last
    message of role [user], and the empty string when there is none (the
    empty list included); no other message reaches the request.  The builder
    returns a well-formed frame around that request. *)
Theorem buildChatRequest_last_user_turn (USER : Z) (apiKey version : JsString)
    (modelEnum : Z) (messages : list ChatMessage) (w : World) :
  Z.of_nat (length (fst (requestFields USER apiKey version modelEnum messages w)))
    < 2 ^ 32 ->
  exists text lengthBytes,
    LastUserText messages text
    /\ (forall t, LastUserText messages t -> t = text)
    /\ (Forall (fun m => role m <> user) messages -> text = lit "")
    /\ fst (buildChatRequest USER apiKey version modelEnum messages w)
       = Some ([0] ++ lengthBytes
               ++ bufferFrom
                    (requestCarrying USER (metadataIn w apiKey version)
                       (messageIdIn w) (timestampIn w) (conversationIdIn w)
                       text modelEnum))
    /\ length lengthBytes = 4%nat
    /\ readUIntBE lengthBytes
       = Z.of_nat (length (requestCarrying USER (metadataIn w apiKey version)
                             (messageIdIn w) (timestampIn w)
                             (conversationIdIn w) text modelEnum)).
Proof.
  intros Hlen. rewrite requestFields_layout in Hlen.
  set (request := requestCarrying USER (metadataIn w apiKey version)
                    (messageIdIn w) (timestampIn w) (conversationIdIn w)
                    (promptOf messages) modelEnum) in *.
  destruct (frameOf_spec (bufferFrom request)) as (bs & E & L & _ & R).
  { rewrite bufferFrom_length. exact Hlen. }
  exists (promptOf messages), bs.
  split; [apply LastUserText_total|].
  split; [intros t Ht; symmetry; apply promptOf_unique; exact Ht|].
  split; [intros Hn; apply promptOf_unique; apply NoUserTurn; exact Hn|].
  split.
  - rewrite buildChatRequest_run, requestFields_layout. exact E.
  - split; [exact L|]. rewrite R. rewrite bufferFrom_length. reflexivity.
Qed.

Lemma buildChatRequest_last_user_turn_witness :
  Z.of_nat (length (fst (requestFields 1 (lit "key") (lit "1.13.104") 166 []
                           sampleWorld))) < 2 ^ 32
  /\ exists text lengthBytes,
      LastUserText [] text
      /\ (forall t, LastUserText [] t -> t = text)
      /\ (Forall (fun m => role m <> user) [] -> text = lit "")
      /\ fst (buildChatRequest 1 (lit "key") (lit "1.13.104") 166 [] sampleWorld)
         = Some ([0] ++ lengthBytes
                 ++ bufferFrom
                      (requestCarrying 1
                         (metadataIn sampleWorld (lit "key") (lit "1.13.104"))
                         (messageIdIn sampleWorld) (timestampIn sampleWorld)
                         (conversationIdIn sampleWorld) text 166))
      /\ length lengthBytes = 4%nat
      /\ readUIntBE lengthBytes
         = Z.of_nat (length (requestCarrying 1
                               (metadataIn sampleWorld (lit "key") (lit "1.13.104"))
                               (messageIdIn sampleWorld) (timestampIn sampleWorld)
                               (conversationIdIn sampleWorld) text 166)).
Proof.
  split; [vm_compute; reflexivity|].
  apply (buildChatRequest_last_user_turn 1 (lit "key") (lit "1.13.104") 166 []
           sampleWorld).
  vm_compute; reflexivity.
Defined.

(** The frame of an empty conversation: the prompt field is the empty
    string, [0A 00], inside the intent [0A 02 0A 00] of field 5. *)
Example buildChatRequest_empty_prompt :
  fst (buildChatRequest 1 (lit "key") (lit "1.13.104") 166 [] sampleWorld)
  = Some ([0; 0; 0; 0; 203]
          ++ [10; 99]
          ++ encodeString 1 (lit "windsurf-next")
          ++ encodeString 2 (lit "1.13.104")
          ++ encodeString 3 (lit "key")
          ++ encodeString 4 (lit "en")
          ++ encodeString 7 (lit "1.13.104")
          ++ [72; 251; 208; 149; 255; 188; 49]
          ++ encodeString 10 (lit "123e4567-e89b-42d3-a456-426614174000")
          ++ encodeString 12 (lit "windsurf")
          ++ [18; 97]
          ++ encodeString 1 (lit "123e4567-e89b-42d3-a456-426614174000")
          ++ [16; 1]
          ++ [26; 11; 8; 128; 226; 207; 170; 6; 16; 192; 169; 211; 58]
          ++ encodeString 4 (lit "123e4567-e89b-42d3-a456-426614174000")
          ++ [42; 4; 10; 2; 10; 0]
          ++ [32; 166; 1]).
Proof. vm_compute. reflexivity. Qed.

(** ** The model table *)

Example modelNameToEnum_alias :
  modelNameToEnum (lit "  Claude-4.5-Sonnet ") = Member CLAUDE_4_5_SONNET.
Proof. vm_compute. reflexivity. Qed.

Example modelNameToEnum_unknown :
  modelNameToEnum (lit "gemini-3.0-pro") = Member CLAUDE_3_5_SONNET_20241022.
Proof. vm_compute. reflexivity. Qed.

Section TableFacts.

Lemma sameMember_eq k1 k2 :
  sameMember k1 k2 = true -> getProperty k1 = getProperty k2.
Proof.
  unfold sameMember.
  destruct (getProperty k1) as [[a|?]|]; try discriminate.
  destruct (getProperty k2) as [[b|?]|]; try discriminate.
  destruct (ModelEnum_eq_dec a b); [congruence|discriminate].
Qed.

(** Checked on every pair of keys of the table. *)
Lemma table_pairs_agree :
  forallb (fun e1 =>
    forallb (fun e2 =>
      implb (str_eqb (dashed (fst e1)) (dashed (fst e2)))
            (sameMember (fst e1) (fst e2)))
      MODEL_NAME_TO_ENUM)
    MODEL_NAME_TO_ENUM = true.
Proof. vm_compute. reflexivity. Qed.

Lemma isTableKey_In k :
  isTableKey k = true -> exists e, In (k, e) MODEL_NAME_TO_ENUM.
Proof.
  unfold isTableKey. intros H. apply existsb_exists in H.
  destruct H as ([k' e] & Hin & Heq). apply str_eqb_eq in Heq.
  simpl in Heq. subst k'. exists e. exact Hin.
Qed.

Lemma keys_agree k1 k2 :
  isTableKey k1 = true -> isTableKey k2 = true ->
  dashed k1 = dashed k2 -> getProperty k1 = getProperty k2.
Proof.
  intros H1 H2 Hd.
  destruct (isTableKey_In _ H1) as (e1 & In1).
  destruct (isTableKey_In _ H2) as (e2 & In2).
  pose proof table_pairs_agree as HT.
  rewrite forallb_forall in HT. specialize (HT _ In1).
  rewrite forallb_forall in HT. specialize (HT _ In2).
  cbn [fst] in HT.
  replace (str_eqb (dashed k1) (dashed k2)) with true in HT
    by (symmetry; apply str_eqb_eq; exact Hd).
  apply sameMember_eq. exact HT.
Qed.

Lemma isWhiteSpace_dashed c :
  isWhiteSpace (if c =? 46 then 45 else c) = isWhiteSpace c.
Proof. destruct (Z.eqb_spec c 46) as [->|]; reflexivity. Qed.

Lemma trimStart_dashed s : trimStart (dashed s) = dashed (trimStart s).
Proof.
  induction s as [|c r IH]; [reflexivity|].
  cbn [dashed map trimStart]. rewrite isWhiteSpace_dashed.
  destruct (isWhiteSpace c); [exact IH|reflexivity].
Qed.

Lemma trim_dashed s : trim (dashed s) = dashed (trim s).
Proof.
  unfold trim, trimEnd. rewrite trimStart_dashed.
  unfold dashed at 1. rewrite <- map_rev. fold (dashed (rev (trimStart s))).
  rewrite trimStart_dashed. unfold dashed. rewrite map_rev. reflexivity.
Qed.

Lemma toLowerCase_dashed s : toLowerCase (dashed s) = dashed (toLowerCase s).
Proof.
  unfold toLowerCase, dashed. rewrite !map_map. apply map_ext. intros c.
  destruct (Z.eqb_spec c 46) as [->|Hc]; [reflexivity|].
  destruct ((65 <=? c) && (c <=? 90)) eqn:E.
  - apply andb_true_iff in E. destruct E as [E1 E2].
    apply Z.leb_le in E1. apply Z.leb_le in E2.
    destruct (Z.eqb_spec (c + 32) 46); [lia|reflexivity].
  - destruct (Z.eqb_spec c 46); [contradiction|reflexivity].
Qed.

End TableFacts.

(** C4, as the code has it: two names that differ only in '.' against '-'
    and that the table both lists (after lower-casing and trimming) resolve
    to the same enum member. *)
Theorem modelNameToEnum_listed_aliases (n1 n2 : JsString) :
  isTableKey (trim (toLowerCase n1)) = true ->
  isTableKey (trim (toLowerCase n2)) = true ->
  dashed n1 = dashed n2 ->
  modelNameToEnum n1 = modelNameToEnum n2.
Proof.
  intros H1 H2 Hd. unfold modelNameToEnum. cbv zeta.
  rewrite (keys_agree _ _ H1 H2); [reflexivity|].
  rewrite <- !trim_dashed, <- !toLowerCase_dashed, Hd. reflexivity.
Qed.

Lemma modelNameToEnum_listed_aliases_witness :
  isTableKey (trim (toLowerCase (lit "Claude-4.5-Sonnet"))) = true
  /\ isTableKey (trim (toLowerCase (lit " claude-4-5-sonnet"))) = true
  /\ dashed (lit "Claude-4.5-Sonnet") = dashed (lit "Claude-4-5-Sonnet")
  /\ modelNameToEnum (lit "Claude-4.5-Sonnet")
     = modelNameToEnum (lit "Claude-4-5-Sonnet").
Proof.
  split; [vm_compute; reflexivity|]. split; [vm_compute; reflexivity|].
  split; [vm_compute; reflexivity|].
  apply (modelNameToEnum_listed_aliases (lit "Claude-4.5-Sonnet")
           (lit "Claude-4-5-Sonnet")); vm_compute; reflexivity.
Defined.

(** C4, as stated, fails: "deepseek-v3.2" and "deepseek-v3-2" differ only
    in the separator of the version number, and so do the two dated names
    of Claude 3.7 Sonnet; the table lists only the dash form of each, and
    the dot form falls to the default model. *)
Lemma modelNameToEnum_separator_counterexample :
  (dashed (lit "deepseek-v3.2") = dashed (lit "deepseek-v3-2")
   /\ modelNameToEnum (lit "deepseek-v3.2") = Member CLAUDE_3_5_SONNET_20241022
   /\ modelNameToEnum (lit "deepseek-v3-2") = Member DEEPSEEK_V3_2
   /\ modelNameToEnum (lit "deepseek-v3.2")
      <> modelNameToEnum (lit "deepseek-v3-2"))
  /\ (dashed (lit "claude-3.7-sonnet-20250219")
      = dashed (lit "claude-3-7-sonnet-20250219")
      /\ modelNameToEnum (lit "claude-3.7-sonnet-20250219")
         <> modelNameToEnum (lit "claude-3-7-sonnet-20250219")).
Proof.
  split.
  - split; [vm_compute; reflexivity|]. split; [vm_compute; reflexivity|].
    split; [vm_compute; reflexivity|]. vm_compute. discriminate.
  - split; [vm_compute; reflexivity|]. vm_compute. discriminate.
Qed.

(** ** The response extractor *)

Example extract_marker :
  extractTextFromChunk (utf8Encode (lit "id 7f3a-11  * Hello world")) 
  = Returned (lit "Hello world").
Proof. vm_compute. reflexivity. Qed.

Example extract_segment :
  extractTextFromChunk ([0; 0; 0; 0; 12; 10; 10] ++ utf8Encode (lit "Hi there") ++ [24; 1])
  = Returned (lit "Hi there").
Proof. vm_compute. reflexivity. Qed.

Example extract_ill_formed :
  extractTextFromChunk [0xFF; 0xC3; 0x28; 0xE2; 0x82] = Returned (lit "(").
Proof. vm_compute. reflexivity. Qed.

Lemma markerMatch_captures s m :
  markerMatch s = Some m -> exists whole g, m = [Some whole; Some g].
Proof.
  induction s as [|c rest IH]; [discriminate|].
  cbn [markerMatch]. destruct (isAsterisk c); [|exact IH].
  destruct (markerAfterAsterisk rest) as [[w g]|]; [|exact IH].
  intros H. injection H as <-. eauto.
Qed.

Lemma firstCandidate_none parts :
  Forall (fun part => candidate part = None) parts ->
  firstCandidate parts = lit "".
Proof.
  induction 1 as [|part rest Hp _ IH]; [reflexivity|].
  cbn [firstCandidate]. rewrite Hp. exact IH.
Qed.

(** C9: the extractor returns a string for every chunk and never throws.
    The string is the trimmed capture of the marker pattern when that
    matches; when it finds no match and no part of the fallback yields a
    candidate, the string is empty. *)
Theorem extractTextFromChunk_total (chunk : list Z) :
  exists text,
    extractTextFromChunk chunk = Returned text
    /\ (forall whole g,
          markerMatch (readableOf chunk) = Some [Some whole; Some g] ->
          text = trim g)
    /\ (markerMatch (readableOf chunk) = None ->
        Forall (fun part => candidate part = None)
               (splitWide false [] (readableOf chunk)) ->
        text = lit "").
Proof.
  unfold extractTextFromChunk. cbv zeta.
  destruct (markerMatch (readableOf chunk)) as [m|] eqn:E.
  - destruct (markerMatch_captures _ _ E) as (whole & g & ->).
    exists (trim g). split; [reflexivity|]. split; [|discriminate].
    intros whole' g' H. injection H as _ <-. reflexivity.
  - eexists. split; [reflexivity|]. split; [discriminate|].
    intros _ H. apply firstCandidate_none. exact H.
Qed.

Lemma extractTextFromChunk_total_witness :
  markerMatch (readableOf (utf8Encode (lit "7f3a-11e9"))) = None
  /\ Forall (fun part => candidate part = None)
            (splitWide false [] (readableOf (utf8Encode (lit "7f3a-11e9"))))
  /\ extractTextFromChunk (utf8Encode (lit "7f3a-11e9")) = Returned (lit "").
Proof.
  assert (H1 : markerMatch (readableOf (utf8Encode (lit "7f3a-11e9"))) = None)
    by (vm_compute; reflexivity).
  assert (H2 : Forall (fun part => candidate part = None)
            (splitWide false [] (readableOf (utf8Encode (lit "7f3a-11e9")))))
    by (vm_compute; repeat constructor).
  split; [exact H1|]. split; [exact H2|].
  destruct (extractTextFromChunk_total (utf8Encode (lit "7f3a-11e9")))
    as (text & E & _ & Hempty).
  rewrite E. f_equal. exact (Hempty H1 H2).
Defined.

(** A marker match whose capture is white space alone gives the empty
    string, though the fallback would have found text. *)
Example extract_marker_blank :
  extractTextFromChunk (utf8Encode (lit "hello * 0")) = Returned (lit "").
Proof. vm_compute. reflexivity. Qed.

(** ** Model resolution *)

(** C5 on the code.  [models.ts] resolves a name with [modelNameToEnum]
    and names an enum with [enumToModelName]; it has no variants and no
    override.  The name "gemini-3.0-pro" is no key of the table: it is not
    supported, falls to the default enum, whose canonical name is
    "claude-3.5-sonnet", and is no canonical name at all.  The name
    "gemini-3-0-pro-high" is a key of its own, for an enum whose canonical
    name is "gemini-3.0-pro-high". *)
Theorem modelNameToEnum_has_no_variant :
  modelNameToEnum (lit "gemini-3.0-pro") = Member CLAUDE_3_5_SONNET_20241022
  /\ isModelSupported (lit "gemini-3.0-pro") = false
  /\ enumToModelName CLAUDE_3_5_SONNET_20241022 = lit "claude-3.5-sonnet"
  /\ ~ In (lit "gemini-3.0-pro") getCanonicalModels
  /\ modelNameToEnum (lit "gemini-3-0-pro-high") = Member GEMINI_3_0_PRO_HIGH
  /\ enumToModelName GEMINI_3_0_PRO_HIGH = lit "gemini-3.0-pro-high".
Proof.
  split; [vm_compute; reflexivity|]. split; [vm_compute; reflexivity|].
  split; [vm_compute; reflexivity|]. split.
  - intros H.
    assert (E : existsb (str_eqb (lit "gemini-3.0-pro")) getCanonicalModels = false)
      by (vm_compute; reflexivity).
    assert (T : existsb (str_eqb (lit "gemini-3.0-pro")) getCanonicalModels = true).
    { apply existsb_exists. exists (lit "gemini-3.0-pro").
      split; [exact H|apply str_eqb_eq; reflexivity]. }
    congruence.
  - split; vm_compute; reflexivity.
Qed.

(** ** The JSON parser *)

Section ParserFacts.

Lemma dropWhile_length p s : (length (dropWhile p s) <= length s)%nat.
Proof.
  induction s as [|c r IH]; simpl; [lia|]. destruct (p c); simpl; lia.
Qed.

Lemma skipSpace_cons s c r :
  skipSpace s = c :: r -> (S (length r) <= length s)%nat.
Proof.
  intros H. pose proof (dropWhile_length isJsonSpace s) as L.
  unfold skipSpace in H. rewrite H in L. simpl in L. lia.
Qed.

Lemma parseChars_bounded n : forall s acc,
  (length s <= n)%nat ->
  parseChars s acc <> OutOfFuel
  /\ forall v rest, parseChars s acc = Done v rest -> (length rest < length s)%nat.
Proof.
  induction n as [|n IH]; intros s acc Hn.
  { destruct s; [split; discriminate|simpl in Hn; lia]. }
  destruct s as [|c r]; [split; [discriminate|discriminate]|].
  simpl in Hn.
  assert (Hsub : forall t a, (length t <= length r)%nat ->
            parseChars t a <> OutOfFuel
            /\ forall v rest, parseChars t a = Done v rest ->
                              (length rest < length (c :: r))%nat).
  { intros t a Ht. destruct (IH t a ltac:(lia)) as [H1 H2].
    split; [exact H1|]. intros v rest H. apply H2 in H. simpl. lia. }
  cbn [parseChars].
  destruct (c =? 34).
  { split; [discriminate|]. intros v rest H. injection H as _ <-. simpl. lia. }
  destruct (c =? 92).
  - destruct r as [|e r']; [split; discriminate|].
    repeat match goal with
    | |- context [if ?b then _ else _] =>
      destruct b; [apply Hsub; simpl; lia|]
    end.
    destruct (e =? 117); [|split; discriminate].
    destruct r' as [|h1 [|h2 [|h3 [|h4 r'']]]]; try (split; discriminate).
    destruct (hexValue h1), (hexValue h2), (hexValue h3), (hexValue h4);
      try (split; discriminate).
    apply Hsub. simpl. lia.
  - destruct (c <? 32); [split; discriminate|].
    apply Hsub. lia.
Qed.

Lemma parseChars_progress s acc :
  parseChars s acc <> OutOfFuel
  /\ forall v rest, parseChars s acc = Done v rest -> (length rest < length s)%nat.
Proof. apply (parseChars_bounded (length s)). lia. Qed.

Lemma parseExponent_progress lexeme s :
  parseExponent lexeme s <> OutOfFuel
  /\ forall v rest, parseExponent lexeme s = Done v rest ->
                    (length rest <= length s)%nat.
Proof.
  unfold parseExponent. destruct s as [|e r].
  - split; [discriminate|]. intros v rest H. injection H as _ <-. lia.
  - destruct ((e =? 101) || (e =? 69)).
    + set (r1 := match r with
                 | c :: r' => if (c =? 43) || (c =? 45) then r' else r
                 | [] => r
                 end).
      assert (L1 : (length r1 <= length r)%nat).
      { subst r1. destruct r as [|c r']; [lia|].
        destruct ((c =? 43) || (c =? 45)); simpl; lia. }
      destruct (takeWhile isDigit r1); [split; discriminate|].
      split; [discriminate|]. intros v rest H. injection H as _ <-.
      pose proof (dropWhile_length isDigit r1). simpl. lia.
    + split; [discriminate|]. intros v rest H. injection H as _ <-. lia.
Qed.

Lemma parseFraction_progress lexeme s :
  parseFraction lexeme s <> OutOfFuel
  /\ forall v rest, parseFraction lexeme s = Done v rest ->
                    (length rest <= length s)%nat.
Proof.
  unfold parseFraction. destruct s as [|c r].
  - split; [discriminate|]. intros v rest H. injection H as _ <-. lia.
  - destruct (c =? 46).
    + destruct (takeWhile isDigit r); [split; discriminate|].
      destruct (parseExponent_progress (lexeme ++ c :: z :: j)
                  (dropWhile isDigit r)) as [H1 H2].
      split; [exact H1|]. intros v rest H. apply H2 in H.
      pose proof (dropWhile_length isDigit r). simpl. lia.
    + apply parseExponent_progress.
Qed.

Lemma parseInteger_progress sign s :
  parseInteger sign s <> OutOfFuel
  /\ forall v rest, parseInteger sign s = Done v rest ->
                    (length rest < length s)%nat.
Proof.
  unfold parseInteger. destruct s as [|c r]; [split; discriminate|].
  destruct (c =? 48).
  - destruct (parseFraction_progress (sign ++ [c]) r) as [H1 H2].
    split; [exact H1|]. intros v rest H. apply H2 in H. simpl. lia.
  - destruct (isDigit c); [|split; discriminate].
    destruct (parseFraction_progress (sign ++ c :: takeWhile isDigit r)
                (dropWhile isDigit r)) as [H1 H2].
    split; [exact H1|]. intros v rest H. apply H2 in H.
    pose proof (dropWhile_length isDigit r). simpl. lia.
Qed.

Lemma parseNumber_progress s :
  parseNumber s <> OutOfFuel
  /\ forall v rest, parseNumber s = Done v rest -> (length rest < length s)%nat.
Proof.
  unfold parseNumber. destruct s as [|c r]; [split; discriminate|].
  destruct (c =? 45).
  - destruct (parseInteger_progress [c] r) as [H1 H2].
    split; [exact H1|]. intros v rest H. apply H2 in H. simpl. lia.
  - apply parseInteger_progress.
Qed.

Lemma stripPrefix_length prefix : forall s rest,
  stripPrefix prefix s = Some rest -> length s = (length prefix + length rest)%nat.
Proof.
  induction prefix as [|p prefix IH]; intros s rest H.
  - simpl in H. injection H as <-. reflexivity.
  - destruct s as [|c s']; [discriminate|]. simpl in H.
    destruct (p =? c); [|discriminate]. apply IH in H. simpl. lia.
Qed.

Lemma parseLiteral_progress word v s :
  (0 < length word)%nat ->
  parseLiteral word v s <> OutOfFuel
  /\ forall v' rest, parseLiteral word v s = Done v' rest ->
                     (length rest < length s)%nat.
Proof.
  intros Hw. unfold parseLiteral. destruct (stripPrefix word s) eqn:E.
  - split; [discriminate|]. intros v' rest H. injection H as _ <-.
    apply stripPrefix_length in E. lia.
  - split; discriminate.
Qed.


Lemma parseValue_step fuel :
  elementsOk fuel -> membersOk fuel -> valueOk (S fuel).
Proof.
  intros HE HM s. cbn [parseValue].
  destruct (skipSpace s) as [|c r] eqn:Es; [split; [discriminate|discriminate]|].
  apply skipSpace_cons in Es.
  destruct (c =? 123).
  { destruct (skipSpace r) as [|d r'] eqn:Er; [split; discriminate|].
    apply skipSpace_cons in Er.
    destruct (d =? 125).
    - split; [discriminate|]. intros v rest H. injection H as _ <-. lia.
    - destruct (HM (d :: r') []) as [H1 H2]. split.
      + intros Hf. apply H1. simpl. lia.
      + intros v rest H. apply H2 in H. simpl in H. lia. }
  destruct (c =? 91).
  { destruct (skipSpace r) as [|d r'] eqn:Er; [split; discriminate|].
    apply skipSpace_cons in Er.
    destruct (d =? 93).
    - split; [discriminate|]. intros v rest H. injection H as _ <-. lia.
    - destruct (HE (d :: r') []) as [H1 H2]. split.
      + intros Hf. apply H1. simpl. lia.
      + intros v rest H. apply H2 in H. simpl in H. lia. }
  destruct (c =? 34).
  { destruct (parseChars_progress r []) as [H1 H2].
    destruct (parseChars r []) as [str rest0| |] eqn:Ec.
    - split; [discriminate|]. intros v rest H. injection H as _ <-.
      specialize (H2 _ _ eq_refl). lia.
    - split; discriminate.
    - contradiction. }
  assert (Hlit : forall word v,
            (0 < length word)%nat ->
            (((2 * length s + 1 <= S fuel)%nat ->
              parseLiteral word v (c :: r) <> OutOfFuel)
             /\ forall v' rest, parseLiteral word v (c :: r) = Done v' rest ->
                                (length rest < length s)%nat)).
  { intros word v Hw. destruct (parseLiteral_progress word v (c :: r) Hw) as [H1 H2].
    split; [intros _; exact H1|]. intros v' rest H. apply H2 in H. simpl in H. lia. }
  destruct (c =? 116); [apply Hlit; simpl; lia|].
  destruct (c =? 102); [apply Hlit; simpl; lia|].
  destruct (c =? 110); [apply Hlit; simpl; lia|].
  destruct (parseNumber_progress (c :: r)) as [H1 H2].
  destruct (parseNumber (c :: r)) as [lexeme rest0| |] eqn:En.
  - split; [discriminate|]. intros v rest H. injection H as _ <-.
    specialize (H2 _ _ eq_refl). simpl in H2. lia.
  - split; discriminate.
  - contradiction.
Qed.

Lemma parseElements_step fuel :
  valueOk fuel -> elementsOk fuel -> elementsOk (S fuel).
Proof.
  intros HV HE s acc. cbn [parseElements].
  destruct (HV s) as [V1 V2].
  destruct (parseValue fuel s) as [v0 rest0| |] eqn:Ev.
  - specialize (V2 _ _ eq_refl).
    destruct (skipSpace rest0) as [|c r] eqn:Er; [split; discriminate|].
    apply skipSpace_cons in Er.
    destruct (c =? 44).
    + destruct (HE r (v0 :: acc)) as [H1 H2]. split.
      * intros Hf. apply H1. lia.
      * intros v rest H. apply H2 in H. lia.
    + destruct (c =? 93); [|split; discriminate].
      split; [discriminate|]. intros v rest H. injection H as _ <-. lia.
  - split; discriminate.
  - split; [intros Hf; exfalso; apply V1; [lia|reflexivity]|discriminate].
Qed.

Lemma parseMembers_step fuel :
  valueOk fuel -> membersOk fuel -> membersOk (S fuel).
Proof.
  intros HV HM s acc. cbn [parseMembers].
  destruct (skipSpace s) as [|q r0] eqn:Es; [split; discriminate|].
  apply skipSpace_cons in Es.
  destruct (q =? 34); [|split; discriminate].
  destruct (parseChars_progress r0 []) as [C1 C2].
  destruct (parseChars r0 []) as [key rest0| |] eqn:Ec;
    [|split; discriminate|contradiction].
  specialize (C2 _ _ eq_refl).
  destruct (skipSpace rest0) as [|c r] eqn:Er; [split; discriminate|].
  apply skipSpace_cons in Er.
  destruct (c =? 58); [|split; discriminate].
  destruct (HV r) as [V1 V2].
  destruct (parseValue fuel r) as [v0 rest1| |] eqn:Ev.
  - specialize (V2 _ _ eq_refl).
    destruct (skipSpace rest1) as [|d r'] eqn:Er'; [split; discriminate|].
    apply skipSpace_cons in Er'.
    destruct (d =? 44).
    + destruct (HM r' (setProperty key v0 acc)) as [H1 H2]. split.
      * intros Hf. apply H1. lia.
      * intros v rest H. apply H2 in H. lia.
    + destruct (d =? 125); [|split; discriminate].
      split; [discriminate|]. intros v rest H. injection H as _ <-. lia.
  - split; discriminate.
  - split; [intros Hf; exfalso; apply V1; [lia|reflexivity]|discriminate].
Qed.

Lemma parser_ok fuel : valueOk fuel /\ elementsOk fuel /\ membersOk fuel.
Proof.
  induction fuel as [|fuel (HV & HE & HM)].
  - repeat split; try discriminate; simpl; lia.
  - split; [apply parseValue_step; assumption|].
    split; [apply parseElements_step; assumption
           |apply parseMembers_step; assumption].
Qed.

(** The parser is never cut off on the fuel that [JSON.parse] gives it: a
    [None] of [JSON_parse] is a syntax error. *)
Lemma JSON_parse_fuel text : parseValue (parseFuel text) text <> OutOfFuel.
Proof.
  destruct (parser_ok (parseFuel text)) as (HV & _).
  apply (HV text). unfold parseFuel. lia.
Qed.

End ParserFacts.

(** ** The recursion of argument normalization *)

Section NormalizeFacts.

Lemma weight_array items : weight (JArray items) = S (weights items).
Proof. reflexivity. Qed.

Lemma weight_object members : weight (JObject members) = S (memberWeights members).
Proof. reflexivity. Qed.

Lemma weights_cons v vs : weights (v :: vs) = (weight v + weights vs)%nat.
Proof. reflexivity. Qed.

Lemma weights_rev vs : weights (rev vs) = weights vs.
Proof.
  unfold weights. induction vs as [|v vs IH]; [reflexivity|].
  cbn [rev map list_sum]. rewrite map_app, list_sum_app, IH. simpl. lia.
Qed.

Lemma memberWeights_setProperty key v ms :
  (memberWeights (setProperty key v ms) <= memberWeights ms + weight v)%nat.
Proof.
  unfold memberWeights. induction ms as [|[k v'] ms IH]; simpl; [lia|].
  destruct (str_eqb k key); simpl; lia.
Qed.

Lemma parseChars_size n : forall s acc str rest,
  (length s <= n)%nat ->
  parseChars s acc = Done str rest ->
  (length str + length rest + 1 <= length acc + length s)%nat.
Proof.
  induction n as [|n IH]; intros s acc str rest Hn H.
  { destruct s; [discriminate|simpl in Hn; lia]. }
  destruct s as [|c r]; [discriminate|]. simpl in Hn. cbn [parseChars] in H.
  assert (Hsub : forall t a, (length t <= n)%nat ->
            parseChars t a = Done str rest ->
            (length str + length rest + 1 <= length a + length t)%nat)
    by (intros t a Ht; apply IH; exact Ht).
  destruct (c =? 34).
  { injection H as <- <-. rewrite length_rev. simpl. lia. }
  destruct (c =? 92).
  - destruct r as [|e r']; [discriminate|]. simpl in Hn.
    repeat match type of H with
    | (if ?b then _ else _) = _ =>
      destruct b; [apply Hsub in H; [simpl in *; lia|lia]|]
    end.
    destruct (e =? 117); [|discriminate].
    destruct r' as [|h1 [|h2 [|h3 [|h4 r'']]]]; try discriminate.
    destruct (hexValue h1), (hexValue h2), (hexValue h3), (hexValue h4);
      try discriminate.
    simpl in Hn. apply Hsub in H; [simpl in *; lia|lia].
  - destruct (c <? 32); [discriminate|].
    apply Hsub in H; [simpl in *; lia|lia].
Qed.

Lemma parseValue_size fuel :
  elementsSize fuel -> membersSize fuel -> valueSize (S fuel).
Proof.
  intros HE HM s v rest. cbn [parseValue].
  destruct (skipSpace s) as [|c r] eqn:Es; [discriminate|].
  apply skipSpace_cons in Es.
  destruct (c =? 123).
  { destruct (skipSpace r) as [|d r'] eqn:Er; [discriminate|].
    apply skipSpace_cons in Er.
    destruct (d =? 125).
    - intros H. injection H as <- <-. simpl. lia.
    - intros H. apply HM in H. unfold memberWeights in H. simpl in H. lia. }
  destruct (c =? 91).
  { destruct (skipSpace r) as [|d r'] eqn:Er; [discriminate|].
    apply skipSpace_cons in Er.
    destruct (d =? 93).
    - intros H. injection H as <- <-. simpl. lia.
    - intros H. apply HE in H. unfold weights in H. simpl in H. lia. }
  destruct (c =? 34).
  { destruct (parseChars r []) as [str rest0| |] eqn:Ec; try discriminate.
    intros H. injection H as <- <-.
    apply (parseChars_size (length r)) in Ec; [|lia]. simpl in *. lia. }
  assert (Hlit : forall word v0,
            (0 < length word)%nat ->
            parseLiteral word v0 (c :: r) = Done v rest ->
            weight v0 = 1%nat ->
            (weight v + length rest <= length s)%nat).
  { intros word v0 Hw H Hv. unfold parseLiteral in H.
    destruct (stripPrefix word (c :: r)) eqn:E; [|discriminate].
    injection H as <- <-. apply stripPrefix_length in E. simpl in E. lia. }
  destruct (c =? 116);
    [intros H; apply (Hlit (lit "true") (JBool true));
       [vm_compute; lia|exact H|reflexivity]|].
  destruct (c =? 102);
    [intros H; apply (Hlit (lit "false") (JBool false));
       [vm_compute; lia|exact H|reflexivity]|].
  destruct (c =? 110);
    [intros H; apply (Hlit (lit "null") JNull);
       [vm_compute; lia|exact H|reflexivity]|].
  destruct (parseNumber_progress (c :: r)) as [_ H2].
  destruct (parseNumber (c :: r)) as [lexeme rest0| |] eqn:En; try discriminate.
  intros H. injection H as <- <-. specialize (H2 _ _ eq_refl). simpl in *. lia.
Qed.

Lemma parseElements_size fuel :
  valueSize fuel -> elementsSize fuel -> elementsSize (S fuel).
Proof.
  intros HV HE s acc v rest. cbn [parseElements].
  destruct (parseValue fuel s) as [v0 rest0| |] eqn:Ev; try discriminate.
  apply HV in Ev.
  destruct (skipSpace rest0) as [|c r] eqn:Er; [discriminate|].
  apply skipSpace_cons in Er.
  destruct (c =? 44).
  - intros H. apply HE in H. rewrite weights_cons in H. lia.
  - destruct (c =? 93); [|discriminate].
    intros H. injection H as <- <-.
    change (rev acc ++ [v0]) with (rev (v0 :: acc)).
    rewrite weight_array, weights_rev.
    rewrite weights_cons. lia.
Qed.

Lemma parseMembers_size fuel :
  valueSize fuel -> membersSize fuel -> membersSize (S fuel).
Proof.
  intros HV HM s acc v rest. cbn [parseMembers].
  destruct (skipSpace s) as [|q r0] eqn:Es; [discriminate|].
  apply skipSpace_cons in Es.
  destruct (q =? 34); [|discriminate].
  destruct (parseChars_progress r0 []) as [_ C2].
  destruct (parseChars r0 []) as [key rest0| |] eqn:Ec; try discriminate.
  specialize (C2 _ _ eq_refl).
  destruct (skipSpace rest0) as [|c r] eqn:Er; [discriminate|].
  apply skipSpace_cons in Er.
  destruct (c =? 58); [|discriminate].
  destruct (parseValue fuel r) as [v0 rest1| |] eqn:Ev; try discriminate.
  apply HV in Ev.
  destruct (skipSpace rest1) as [|d r'] eqn:Er'; [discriminate|].
  apply skipSpace_cons in Er'.
  pose proof (memberWeights_setProperty key v0 acc) as Hset.
  destruct (d =? 44).
  - intros H. apply HM in H. lia.
  - destruct (d =? 125); [|discriminate].
    intros H. injection H as <- <-. rewrite weight_object. lia.
Qed.

Lemma parser_size fuel : valueSize fuel /\ elementsSize fuel /\ membersSize fuel.
Proof.
  induction fuel as [|fuel (HV & HE & HM)].
  - repeat split; intros ? ? ? ?; discriminate.
  - split; [apply parseValue_size; assumption|].
    split; [apply parseElements_size; assumption
           |apply parseMembers_size; assumption].
Qed.

(** A parsed value weighs no more than its text is long. *)
Lemma JSON_parse_weight text v :
  JSON_parse text = Some v -> (weight v <= length text)%nat.
Proof.
  unfold JSON_parse.
  destruct (parseValue (parseFuel text) text) as [v0 rest| |] eqn:E;
    try discriminate.
  destruct (skipSpace rest); [|discriminate]. intros H. injection H as <-.
  destruct (parser_size (parseFuel text)) as (HV & _). apply HV in E. lia.
Qed.

Lemma trimStart_length s : (length (trimStart s) <= length s)%nat.
Proof.
  induction s as [|c r IH]; simpl; [lia|]. destruct (isWhiteSpace c); simpl; lia.
Qed.

Lemma trim_length s : (length (trim s) <= length s)%nat.
Proof.
  unfold trim, trimEnd. rewrite length_rev.
  pose proof (trimStart_length (rev (trimStart s))) as H1.
  rewrite length_rev in H1. pose proof (trimStart_length s). lia.
Qed.

Lemma weight_in v vs : In v vs -> (weight v <= weights vs)%nat.
Proof.
  unfold weights. induction vs as [|x vs IH]; intros H; [contradiction|].
  destruct H as [->|H]; simpl; [lia|]. apply IH in H. lia.
Qed.

Lemma memberWeight_in m ms :
  In m ms -> (weight (snd m) <= memberWeights ms)%nat.
Proof.
  unfold memberWeights. induction ms as [|x ms IH]; intros H; [contradiction|].
  destruct H as [->|H]; simpl; [lia|]. apply IH in H. lia.
Qed.

(** The recursion of [normalizeToolArguments] is never cut off: any fuel
    from the weight of the value on gives the same result. *)
Lemma normalize_fuel fuel : forall fuel' v,
  (weight v <= fuel)%nat -> (weight v <= fuel')%nat ->
  normalize fuel v = normalize fuel' v.
Proof.
  induction fuel as [|fuel IH]; intros fuel' v H1 H2.
  { destruct v; simpl in H1; lia. }
  destruct fuel' as [|fuel']; [destruct v; simpl in H2; lia|].
  destruct v as [|b|l|s|items|members]; cbn [normalize]; try reflexivity.
  - destruct (enclosedBy 123 125 (trim s) || enclosedBy 91 93 (trim s));
      [|reflexivity].
    destruct (JSON_parse (trim s)) as [parsed|] eqn:E; [|reflexivity].
    apply JSON_parse_weight in E. pose proof (trim_length s).
    simpl in H1, H2. apply IH; lia.
  - f_equal. apply map_ext_in. intros x Hx. apply weight_in in Hx.
    rewrite weight_array in H1, H2. apply IH; lia.
  - f_equal. apply map_ext_in. intros m Hm. apply memberWeight_in in Hm.
    rewrite weight_object in H1, H2. f_equal. apply IH; lia.
Qed.

End NormalizeFacts.

(** ** The tool-call plan *)

Section PlanFacts.

Lemma indexOf_split c s i :
  indexOf c s = Some i ->
  exists pre post, s = pre ++ c :: post /\ length pre = i /\ ~ In c pre.
Proof.
  revert i. induction s as [|d r IH]; intros i H; [discriminate|].
  cbn [indexOf] in H. destruct (Z.eqb_spec d c) as [->|Hd].
  - injection H as <-. exists [], r. repeat split. intros [].
  - destruct (indexOf c r) as [j|]; [|discriminate]. injection H as <-.
    destruct (IH j eq_refl) as (pre & post & -> & L & N).
    exists (d :: pre), post. repeat split; [simpl; lia|].
    intros [E|E]; [congruence|contradiction].
Qed.

Lemma lastIndexOf_split c s i :
  lastIndexOf c s = Some i ->
  exists pre post, s = pre ++ c :: post /\ length pre = i /\ ~ In c post.
Proof.
  revert i. induction s as [|d r IH]; intros i H; [discriminate|].
  cbn [lastIndexOf] in H. destruct (lastIndexOf c r) as [j|] eqn:E.
  - injection H as <-. destruct (IH j eq_refl) as (pre & post & -> & L & N).
    exists (d :: pre), post. repeat split; [simpl; lia|exact N].
  - destruct (Z.eqb_spec d c) as [->|Hd]; [|discriminate]. injection H as <-.
    exists [], r. repeat split. clear IH. intros Hin.
    induction r as [|x r IHr]; [contradiction|].
    cbn [lastIndexOf] in E. destruct (lastIndexOf c r); [discriminate|].
    destruct (Z.eqb_spec x c) as [->|Hx]; [discriminate|].
    destruct Hin as [Hin|Hin]; [congruence|]. apply IHr; [reflexivity|exact Hin].
Qed.

Lemma two_splits {A} (pre1 : list A) : forall pre2 a b post1 post2,
  pre1 ++ a :: post1 = pre2 ++ b :: post2 ->
  (length pre1 < length pre2)%nat ->
  exists mid, pre2 = pre1 ++ a :: mid /\ post1 = mid ++ b :: post2.
Proof.
  induction pre1 as [|x pre1 IH]; intros pre2 a b post1 post2 E L.
  - destruct pre2 as [|y pre2]; [simpl in L; lia|].
    simpl in E. injection E as -> ->. exists pre2. split; reflexivity.
  - destruct pre2 as [|y pre2]; [simpl in L; lia|].
    simpl in E. injection E as -> E. simpl in L.
    destruct (IH pre2 a b post1 post2 E ltac:(lia)) as (mid & -> & ->).
    exists mid. split; reflexivity.
Qed.

(** The text handed to [JSON.parse] runs from the first '{' to the last
    '}' of the output. *)
Lemma jsonTextOf_between output jsonText :
  jsonTextOf output = Some jsonText ->
  exists pre mid post,
    output = pre ++ jsonText ++ post
    /\ jsonText = 123 :: mid ++ [125]
    /\ ~ In 123 pre /\ ~ In 125 post.
Proof.
  unfold jsonTextOf. intros H.
  destruct (indexOf 123 output) as [start|] eqn:E1; [|discriminate].
  destruct (lastIndexOf 125 output) as [stop|] eqn:E2; [|discriminate].
  destruct (Nat.leb_spec stop start) as [L|L]; [discriminate|].
  injection H as <-.
  destruct (indexOf_split _ _ _ E1) as (pre1 & post1 & Eo1 & L1 & N1).
  destruct (lastIndexOf_split _ _ _ E2) as (pre2 & post2 & Eo2 & L2 & N2).
  assert (Es : pre1 ++ 123 :: post1 = pre2 ++ 125 :: post2) by congruence.
  destruct (two_splits _ _ _ _ _ _ Es ltac:(lia)) as (mid & -> & ->).
  exists pre1, mid, post2.
  assert (Hslice : slice start (S stop) output = 123 :: mid ++ [125]).
  { unfold slice. rewrite Eo1. rewrite <- L1.
    rewrite skipn_app, Nat.sub_diag, skipn_all. cbn [app skipn].
    rewrite <- L2, length_app. cbn [length].
    replace (S (length pre1 + S (length mid)) - length pre1)%nat
      with (S (length (mid ++ [125]))) by (rewrite length_app; cbn [length]; lia).
    cbn [firstn]. f_equal.
    replace (mid ++ 125 :: post2) with ((mid ++ [125]) ++ post2)
      by (rewrite <- app_assoc; reflexivity).
    rewrite firstn_app, Nat.sub_diag, firstn_all. cbn [firstn].
    apply app_nil_r. }
  rewrite Hslice. repeat split; try assumption.
  rewrite Eo1. cbn [app]. rewrite <- app_assoc. reflexivity.
Qed.

End PlanFacts.

(** The output of scenario D. *)
Example scenario_D_text :
  jsonTextOf (quoted "noise {'action':'final','content':'done'} trailing")
  = Some (quoted "{'action':'final','content':'done'}").
Proof. vm_compute. reflexivity. Qed.

(** C6: the parser hands the text from the first '{' to the last '}' to
    [JSON.parse]; when that succeeds the plan is read from the parsed value
    and the tagged syntax is not consulted; only when it throws is the
    output scanned for tagged calls.  The output of scenario D gives the
    final plan with content "done". *)
Theorem parseToolCallPlan_order :
  (forall output jsonText,
     jsonTextOf output = Some jsonText ->
     (exists pre mid post,
        output = pre ++ jsonText ++ post
        /\ jsonText = 123 :: mid ++ [125]
        /\ ~ In 123 pre /\ ~ In 125 post)
     /\ (forall parsed, JSON_parse jsonText = Some parsed ->
           parseToolCallPlan output = planOfParsed parsed)
     /\ (JSON_parse jsonText = None ->
           parseValue (parseFuel jsonText) jsonText <> OutOfFuel
           /\ parseToolCallPlan output = planOfTags output))
  /\ parseToolCallPlan
       (quoted "noise {'action':'final','content':'done'} trailing")
     = Some (Final (lit "done")).
Proof.
  split.
  - intros output jsonText H. split; [apply jsonTextOf_between; exact H|].
    unfold parseToolCallPlan. rewrite H. split.
    + intros parsed ->. reflexivity.
    + intros ->. split; [apply JSON_parse_fuel|reflexivity].
  - vm_compute. reflexivity.
Qed.

Lemma parseToolCallPlan_order_witness :
  let output := quoted "<tool_call>read_file {'path': 'a.txt'} <tool_call> ls {}" in
  let jsonText := quoted "{'path': 'a.txt'} <tool_call> ls {}" in
  jsonTextOf output = Some jsonText
  /\ JSON_parse jsonText = None
  /\ parseToolCallPlan output = planOfTags output
  /\ planOfTags output
     = Some (ToolCalls
               [mkToolCall (lit "read_file")
                  (JObject [(lit "path", JString (lit "a.txt"))]);
                mkToolCall (lit "ls") (JObject [])]).
Proof.
  intros output jsonText.
  assert (H1 : jsonTextOf output = Some jsonText) by (vm_compute; reflexivity).
  assert (H2 : JSON_parse jsonText = None) by (vm_compute; reflexivity).
  split; [exact H1|]. split; [exact H2|]. split.
  - destruct parseToolCallPlan_order as [Horder _].
    destruct (Horder output jsonText H1) as (_ & _ & Hfail).
    exact (proj2 (Hfail H2)).
  - vm_compute. reflexivity.
Defined.

(** ** The planning handler *)

(** C7: when the text handed to [JSON.parse], if any parses, holds no plan
    and the tagged syntax yields none either, the plan is null and the
    handler answers with status 200, the collected text as content and the
    finish reason [stop]; and whatever the collected text, the handler
    returns a response and throws nothing. *)
Theorem handleToolPlanning_absorbs (requestModel : option JsString)
    (output : JsString) (w : World) :
  (forall jsonText parsed,
     jsonTextOf output = Some jsonText ->
     JSON_parse jsonText = Some parsed -> planOfParsed parsed = None) ->
  planOfTags output = None ->
  parseToolCallPlan output = None
  /\ (exists stamp now w',
        handleToolPlanning requestModel (Returned output) w
        = (Returned (mkResponse 200 (lit "application/json")
                       (mkCompletion stamp (now / 1000) (modelOf requestModel)
                          output None finish_stop)), w'))
  /\ (forall content w0, exists response w',
        handleToolPlanning requestModel (Returned content) w0
        = (Returned response, w')
        /\ status response = 200).
Proof.
  intros Hdirect Htags.
  assert (Hnull : parseToolCallPlan output = None).
  { unfold parseToolCallPlan.
    destruct (jsonTextOf output) as [jsonText|] eqn:E; [|reflexivity].
    destruct (JSON_parse jsonText) as [parsed|] eqn:P.
    - apply (Hdirect jsonText parsed); [reflexivity|exact P].
    - exact Htags. }
  split; [exact Hnull|]. split.
  - unfold handleToolPlanning. cbv zeta. rewrite Hnull.
    unfold bind, ret, Date_now. cbn. do 3 eexists. reflexivity.
  - intros content w0. unfold handleToolPlanning. cbv zeta.
    destruct (parseToolCallPlan content) as [[c|calls]|].
    + unfold bind, ret, Date_now. cbn. do 2 eexists. split; reflexivity.
    + unfold buildToolCallPayload, bind, ret.
      destruct (mapCalls 0 calls w0) as [mapped w1].
      unfold Date_now. cbn. do 2 eexists. split; reflexivity.
    + unfold bind, ret, Date_now. cbn. do 2 eexists. split; reflexivity.
Qed.

Lemma handleToolPlanning_absorbs_witness :
  let output := quoted "sure: {'answer': 42}" in
  (forall jsonText parsed,
     jsonTextOf output = Some jsonText ->
     JSON_parse jsonText = Some parsed -> planOfParsed parsed = None)
  /\ planOfTags output = None
  /\ parseToolCallPlan output = None
  /\ exists stamp now w',
       handleToolPlanning None (Returned output) sampleWorld
       = (Returned (mkResponse 200 (lit "application/json")
                      (mkCompletion stamp (now / 1000) (lit "claude-3.5-sonnet")
                         output None finish_stop)), w').
Proof.
  intros output.
  assert (H1 : forall jsonText parsed,
     jsonTextOf output = Some jsonText ->
     JSON_parse jsonText = Some parsed -> planOfParsed parsed = None).
  { intros jsonText parsed H P. vm_compute in H. injection H as <-.
    vm_compute in P. injection P as <-. vm_compute. reflexivity. }
  assert (H2 : planOfTags output = None) by (vm_compute; reflexivity).
  split; [exact H1|]. split; [exact H2|].
  destruct (handleToolPlanning_absorbs None output sampleWorld H1 H2)
    as (Hnull & Hresp & _).
  split; [exact Hnull|exact Hresp].
Defined.

(** ** Streaming *)

Section StreamFacts.

(** [streamChat]: a call that is still pending when the timer expires is
    resolved with the chunks collected so far. *)
Lemma streamChat_deadline events :
  settled (streamChat events) = None ->
  settled (streamChat (events ++ [TimerElapsed]))
  = Some (Resolved (join (chunks (streamChat events)))).
Proof.
  intros H. unfold streamChat. rewrite fold_left_app. cbn [fold_left].
  fold (streamChat events). unfold streamChatStep, settle. rewrite H. reflexivity.
Qed.

(** The expiry of the timer never rejects the promise. *)
Lemma streamChat_deadline_no_error c err :
  settled (streamChatStep c TimerElapsed) = Some (Rejected err) ->
  settled c = Some (Rejected err).
Proof.
  unfold streamChatStep, settle. destruct (settled c) eqn:E.
  - rewrite E. auto.
  - cbn. discriminate.
Qed.

Lemma generatorStep_open g e :
  keepsOpen e = true -> done g = false -> done (generatorStep g e) = false.
Proof.
  intros He Hg. destruct e; try discriminate; cbn.
  - exact Hg.
  - destruct (keptText chunk); exact Hg.
  - destruct (statusIsZero grpcStatus); [exact Hg|].
    destruct (grpcError grpcStatus grpcMessage); exact Hg.
  - exact Hg.
Qed.

(** [streamChatGenerator]: while the server neither ends the stream nor
    fails, the generator waits, however much time passes. *)
Lemma streamChatGenerator_waits events :
  forallb keepsOpen events = true ->
  standing (streamChatGenerator events) = Waiting.
Proof.
  intros H. unfold standing.
  assert (Hd : done (streamChatGenerator events) = false).
  { unfold streamChatGenerator.
    assert (G : forall g, done g = false ->
              done (fold_left generatorStep events g) = false).
    { induction events as [|e events IH]; intros g Hg; [exact Hg|].
      cbn [forallb] in H. apply andb_true_iff in H. destruct H as [He Hes].
      cbn [fold_left]. apply IH; [exact Hes|].
      apply generatorStep_open; assumption. }
    apply G. reflexivity. }
  rewrite Hd. reflexivity.
Qed.

End StreamFacts.

(** C8 at a stalled stream: the server sends one chunk and then nothing.
    When the 120000 ms have passed, [streamChat] has resolved with the text
    collected, while [streamChatGenerator], which sets no timer, has yielded
    the text and still waits. *)
Theorem streamChatGenerator_has_no_deadline :
  let chunk := utf8Encode (lit "Hello") in
  settled (streamChat [Connect; Data chunk; TimerElapsed])
  = Some (Resolved (lit "Hello"))
  /\ yielded (streamChatGenerator [Connect; Data chunk; TimerElapsed])
     = [lit "Hello"]
  /\ standing (streamChatGenerator [Connect; Data chunk; TimerElapsed]) = Waiting.
Proof.
  cbv zeta. split; [vm_compute; reflexivity|].
  split; [vm_compute; reflexivity|].
  apply streamChatGenerator_waits. reflexivity.
Qed.

(** * Further properties of the code *)

(** * Further properties of the code *)

(** ** The length of a varint and negative values *)

Section VarintSize.

Lemma encodeVarint_small v : v <= 127 -> encodeVarint v = [v].
Proof.
  intros H. rewrite encodeVarint_step.
  replace (v >? 127) with false; [reflexivity|].
  symmetry. rewrite Z.gtb_ltb. apply Z.ltb_ge. exact H.
Qed.

Lemma encodeVarint_big v :
  127 < v ->
  encodeVarint v = or32 (Z.land v 0x7f) 0x80 :: encodeVarint (Z.shiftr v 7).
Proof.
  intros H. rewrite encodeVarint_step.
  replace (v >? 127) with true; [reflexivity|].
  symmetry. apply Z.gtb_lt. exact H.
Qed.

Lemma shiftr7_bounds n v :
  2 ^ (7 * Z.of_nat (S n)) <= v < 2 ^ (7 * Z.of_nat (S (S n))) ->
  2 ^ (7 * Z.of_nat n) <= Z.shiftr v 7 < 2 ^ (7 * Z.of_nat (S n)).
Proof.
  intros [Hlo Hhi]. rewrite Z.shiftr_div_pow2 by lia.
  replace (7 * Z.of_nat (S n)) with (7 * Z.of_nat n + 7) in Hlo by lia.
  replace (7 * Z.of_nat (S (S n))) with (7 * Z.of_nat (S n) + 7) in Hhi by lia.
  rewrite Z.pow_add_r in Hlo, Hhi by lia.
  assert (0 < 2 ^ (7 * Z.of_nat n)) by (apply Z.pow_pos_nonneg; lia).
  assert (0 < 2 ^ (7 * Z.of_nat (S n))) by (apply Z.pow_pos_nonneg; lia).
  split.
  - apply Z.div_le_lower_bound; lia.
  - apply Z.div_lt_upper_bound; lia.
Qed.

Lemma decodeVarintFrom_nonneg bs : forall shift acc v rest,
  0 <= shift -> 0 <= acc ->
  decodeVarintFrom shift acc bs = Some (v, rest) -> 0 <= v.
Proof.
  induction bs as [|b r IH]; intros shift acc v rest Hs Ha H; [discriminate|].
  cbn [decodeVarintFrom] in H.
  assert (Hacc : 0 <= Z.lor acc (Z.shiftl (Z.land b 127) shift)).
  { apply Z.lor_nonneg. split; [exact Ha|].
    apply Z.shiftl_nonneg. apply Z.land_nonneg. right. lia. }
  destruct (hasContinuation b).
  - apply IH in H; [exact H|lia|exact Hacc].
  - injection H as <- _. exact Hacc.
Qed.

Lemma decodeVarint_encodeVarint v rest :
  0 <= v -> decodeVarint (encodeVarint v ++ rest) = Some (v, rest).
Proof.
  intros Hv. destruct (encodeVarint_facts v Hv) as (_ & _ & _ & Hdec).
  unfold decodeVarint. rewrite Hdec by lia. rewrite Z.shiftl_0_r. reflexivity.
Qed.

End VarintSize.

(** X1: a value of [7n+1] to [7n+7] significant bits takes [n+1] entries. *)
Theorem encodeVarint_length (n : nat) (v : Z) :
  2 ^ (7 * Z.of_nat n) <= v < 2 ^ (7 * Z.of_nat (S n)) ->
  length (encodeVarint v) = S n.
Proof.
  revert v. induction n as [|n IH]; intros v H.
  - rewrite encodeVarint_small; [reflexivity|].
    change (2 ^ (7 * Z.of_nat 1)) with 128 in H. lia.
  - assert (128 <= v).
    { destruct H as [H _]. replace (7 * Z.of_nat (S n)) with (7 + 7 * Z.of_nat n) in H by lia.
      rewrite Z.pow_add_r in H by lia.
      assert (0 < 2 ^ (7 * Z.of_nat n)) by (apply Z.pow_pos_nonneg; lia).
      change (2 ^ 7) with 128 in H. nia. }
    rewrite encodeVarint_big by lia. cbn [length]. f_equal.
    apply IH. apply shiftr7_bounds. exact H.
Qed.

Lemma encodeVarint_length_witness :
  2 ^ (7 * Z.of_nat 1) <= 300 < 2 ^ (7 * Z.of_nat 2)
  /\ length (encodeVarint 300) = 2%nat.
Proof.
  split; [vm_compute; split; [discriminate|reflexivity]|].
  apply (encodeVarint_length 1 300). vm_compute. split; [discriminate|reflexivity].
Defined.

(** X2: a negative value leaves the loop at once: the encoding is the value
    itself as the single entry, and no decoder reads the value back from
    its byte image. *)
Theorem encodeVarint_negative_lost (v : Z) :
  v < 0 ->
  encodeVarint v = [v]
  /\ forall rest,
       decodeVarint (bufferFrom (encodeVarint v) ++ rest) <> Some (v, rest).
Proof.
  intros Hv. split; [apply encodeVarint_small; lia|].
  intros rest H. unfold decodeVarint in H.
  apply decodeVarintFrom_nonneg in H; lia.
Qed.

Lemma encodeVarint_negative_lost_witness :
  -1 < 0
  /\ encodeVarint (-1) = [-1]
  /\ forall rest,
       decodeVarint (bufferFrom (encodeVarint (-1)) ++ rest) <> Some (-1, rest).
Proof. split; [lia | apply (encodeVarint_negative_lost (-1)); lia]. Defined.

(** ** Reading fields back *)

Section ReaderFacts.

Lemma shifted_lor f k w :
  0 <= k -> 0 <= w < 2 ^ k -> Z.lor (Z.shiftl f k) w = f * 2 ^ k + w.
Proof.
  intros Hk Hw.
  assert (Hdisjoint : Z.land (Z.shiftl f k) w = 0).
  { apply Z.bits_inj'. intros n Hn. rewrite Z.land_spec, Z.bits_0.
    destruct (Z.ltb_spec n k) as [L|L].
    - rewrite Z.shiftl_spec_low by lia. reflexivity.
    - replace w with (Z.land w (Z.ones k))
        by (rewrite Z.land_ones by lia; apply Z.mod_small; lia).
      rewrite Z.land_spec, Z.ones_spec_high by lia.
      rewrite !andb_false_r. reflexivity. }
  rewrite <- Z.lxor_lor by exact Hdisjoint.
  rewrite <- Z.add_nocarry_lxor by exact Hdisjoint.
  rewrite Z.shiftl_mul_pow2 by lia. reflexivity.
Qed.

Lemma shifted_or f w :
  0 <= f -> 0 <= w < 8 -> Z.lor (Z.shiftl f 3) w = 8 * f + w.
Proof.
  intros _ Hw. rewrite shifted_lor by (change (2 ^ 3) with 8; lia).
  change (2 ^ 3) with 8. lia.
Qed.

(** The tag entry of a field number that fits one byte. *)
Lemma tag_value f w :
  1 <= f <= 15 -> 0 <= w < 8 -> or32 (shl32 f 3) w = 8 * f + w.
Proof.
  intros Hf Hw. unfold or32, shl32. change (Z.land 3 31) with 3.
  rewrite (toInt32_small f) by lia.
  assert (Hs : Z.shiftl f 3 = 8 * f)
    by (rewrite Z.shiftl_mul_pow2 by lia; change (2 ^ 3) with 8; lia).
  rewrite (toInt32_small (Z.shiftl f 3)) by (rewrite Hs; lia).
  rewrite (toInt32_small (Z.shiftl f 3)) by (rewrite Hs; lia).
  rewrite (toInt32_small w) by lia.
  apply shifted_or; lia.
Qed.

Lemma decodeVarint_tag f w rest :
  1 <= f <= 15 -> 0 <= w < 8 ->
  decodeVarint (or32 (shl32 f 3) w :: rest) = Some (8 * f + w, rest).
Proof.
  intros Hf Hw. rewrite tag_value by assumption.
  change (8 * f + w :: rest) with ([8 * f + w] ++ rest).
  rewrite <- (encodeVarint_small (8 * f + w)) by lia.
  apply decodeVarint_encodeVarint. lia.
Qed.

Lemma tag_parts f w :
  0 <= f -> 0 <= w < 8 ->
  Z.shiftr (8 * f + w) 3 = f /\ Z.land (8 * f + w) 7 = w.
Proof.
  intros Hf Hw. split.
  - rewrite Z.shiftr_div_pow2 by lia. change (2 ^ 3) with 8.
    Z.div_mod_to_equations. lia.
  - change 7 with (Z.ones 3). rewrite Z.land_ones by lia. change (2 ^ 3) with 8.
    Z.div_mod_to_equations. lia.
Qed.

Lemma readField_message f data rest :
  1 <= f <= 15 ->
  readField (encodeMessage f data ++ rest) = Some (f, Bytes data, rest).
Proof.
  intros Hf. unfold readField, encodeMessage. cbn [app].
  rewrite decodeVarint_tag by lia.
  destruct (tag_parts f 2) as [-> ->]; [lia|lia|]. cbn [Z.eqb].
  rewrite <- app_assoc. rewrite decodeVarint_encodeVarint by lia.
  rewrite Nat2Z.id.
  replace (length data <=? length (data ++ rest))%nat with true
    by (symmetry; apply Nat.leb_le; rewrite length_app; lia).
  rewrite firstn_app, Nat.sub_diag, firstn_all. cbn [firstn].
  rewrite app_nil_r.
  rewrite skipn_app, Nat.sub_diag, skipn_all. reflexivity.
Qed.

Lemma encodeString_message f str :
  encodeString f str = encodeMessage f (utf8Encode str).
Proof. reflexivity. Qed.

Lemma readField_varint f v rest :
  1 <= f <= 15 -> 0 <= v ->
  readField (encodeVarintField f v ++ rest) = Some (f, VarintValue v, rest).
Proof.
  intros Hf Hv. unfold readField, encodeVarintField. cbn [app].
  rewrite decodeVarint_tag by lia.
  destruct (tag_parts f 0) as [-> ->]; [lia|lia|]. cbn [Z.eqb].
  rewrite decodeVarint_encodeVarint by lia. reflexivity.
Qed.

Lemma encodeMessage_cons f data :
  exists tail, encodeMessage f data = or32 (shl32 f 3) 2 :: tail.
Proof. eexists. reflexivity. Qed.

Lemma readFields_message n f data rest :
  1 <= f <= 15 ->
  readFields (S n) (encodeMessage f data ++ rest)
  = match readFields n rest with
    | Some fields => Some ((f, Bytes data) :: fields)
    | None => None
    end.
Proof.
  intros Hf. pose proof (readField_message f data rest Hf) as H.
  unfold encodeMessage in *. cbn [app] in *. cbn [readFields]. rewrite H.
  reflexivity.
Qed.

Lemma readFields_string n f str rest :
  1 <= f <= 15 ->
  readFields (S n) (encodeString f str ++ rest)
  = match readFields n rest with
    | Some fields => Some ((f, Bytes (utf8Encode str)) :: fields)
    | None => None
    end.
Proof. exact (readFields_message n f (utf8Encode str) rest). Qed.

Lemma readFields_varint n f v rest :
  1 <= f <= 15 -> 0 <= v ->
  readFields (S n) (encodeVarintField f v ++ rest)
  = match readFields n rest with
    | Some fields => Some ((f, VarintValue v) :: fields)
    | None => None
    end.
Proof.
  intros Hf Hv. pose proof (readField_varint f v rest Hf Hv) as H.
  unfold encodeVarintField in *. cbn [app] in *. cbn [readFields]. rewrite H.
  reflexivity.
Qed.

Lemma decodeVarintFrom_progress bs : forall shift acc v rest,
  decodeVarintFrom shift acc bs = Some (v, rest) ->
  (length rest < length bs)%nat.
Proof.
  induction bs as [|b r IH]; intros shift acc v rest H; [discriminate|].
  cbn [decodeVarintFrom] in H. destruct (hasContinuation b).
  - apply IH in H. simpl. lia.
  - injection H as _ <-. simpl. lia.
Qed.

Lemma readField_progress bs f v rest :
  readField bs = Some (f, v, rest) -> (length rest < length bs)%nat.
Proof.
  unfold readField. destruct (decodeVarint bs) as [[tag r]|] eqn:E; [|discriminate].
  apply decodeVarintFrom_progress in E.
  destruct (Z.land tag 7 =? 0).
  - destruct (decodeVarint r) as [[x r']|] eqn:E2; [|discriminate].
    apply decodeVarintFrom_progress in E2. intros H. injection H as _ _ <-. lia.
  - destruct (Z.land tag 7 =? 2); [|discriminate].
    destruct (decodeVarint r) as [[len r']|] eqn:E2; [|discriminate].
    apply decodeVarintFrom_progress in E2.
    destruct (Z.to_nat len <=? length r')%nat; [|discriminate].
    intros H. injection H as _ _ <-. rewrite length_skipn. lia.
Qed.

(** Fuel beyond the number of fields changes nothing, and a message has no
    more fields than bytes. *)
Lemma readFields_enough n : forall bs fields,
  readFields n bs = Some fields ->
  (length fields <= length bs)%nat
  /\ forall m, (length fields <= m)%nat -> readFields m bs = Some fields.
Proof.
  induction n as [|n IH]; intros bs fields H.
  - destruct bs; [|discriminate]. injection H as <-. split; [simpl; lia|].
    intros m _. destruct m; reflexivity.
  - destruct bs as [|b bs']; [injection H as <-; split;
      [simpl; lia|intros m _; destruct m; reflexivity]|].
    cbn [readFields] in H.
    destruct (readField (b :: bs')) as [[[f v] rest]|] eqn:E; [|discriminate].
    destruct (readFields n rest) as [fs|] eqn:E2; [|discriminate].
    injection H as <-.
    pose proof E as E'. apply readField_progress in E'.
    destruct (IH _ _ E2) as [L M]. split; [simpl in *; lia|].
    intros m Hm. destruct m as [|m]; [simpl in Hm; lia|].
    cbn [readFields]. rewrite E.
    rewrite M by (simpl in Hm; lia). reflexivity.
Qed.

End ReaderFacts.

Section RequestReading.

Lemma readMessage_of n bs fields :
  readFields n bs = Some fields -> readMessage bs = Some fields.
Proof.
  intros H. destruct (readFields_enough n bs fields H) as [L M].
  unfold readMessage. apply M. exact L.
Qed.

Lemma readFields_nil n : readFields n [] = Some [].
Proof. destruct n; reflexivity. Qed.

End RequestReading.

Ltac read_fields :=
  repeat first
    [ rewrite readFields_string by lia
    | rewrite readFields_message by lia
    | rewrite readFields_varint by lia
    | rewrite <- app_assoc ];
  try rewrite readFields_nil.

(** X3: a field written by [encodeString], [encodeMessage] or
    [encodeVarintField] with a field number from 1 to 15 is read back by the
    wire format's reader as that field number with the same bytes (the UTF-8
    bytes of the string) or the same value, and the bytes that follow are
    left unread. *)
Theorem encoded_field_reads_back (fieldNum : Z) (str : JsString)
    (data : list Z) (value : Z) (rest : list Z) :
  1 <= fieldNum <= 15 -> 0 <= value ->
  readField (encodeString fieldNum str ++ rest)
    = Some (fieldNum, Bytes (utf8Encode str), rest)
  /\ readField (encodeMessage fieldNum data ++ rest)
    = Some (fieldNum, Bytes data, rest)
  /\ readField (encodeVarintField fieldNum value ++ rest)
    = Some (fieldNum, VarintValue value, rest).
Proof.
  intros Hf Hv. split; [|split].
  - rewrite encodeString_message. apply readField_message. exact Hf.
  - apply readField_message. exact Hf.
  - apply readField_varint; assumption.
Qed.

Lemma encoded_field_reads_back_witness :
  readField (encodeString 3 (lit "key") ++ [7])
    = Some (3, Bytes (utf8Encode (lit "key")), [7])
  /\ readField (encodeMessage 3 [1; 2] ++ [7]) = Some (3, Bytes [1; 2], [7])
  /\ readField (encodeVarintField 3 300 ++ [7]) = Some (3, VarintValue 300, [7]).
Proof.
  apply (encoded_field_reads_back 3 (lit "key") [1; 2] 300 [7]); lia.
Defined.

(** X4: read with the wire format's reader, the request of [buildChatRequest]
    has exactly the fields 1 (metadata), 2 (chat message) and 4 (the model
    enum); the chat message has the fields 1 to 5: message id, source,
    timestamp, conversation id and intent, the two ids being the second and
    third identifier drawn; and the intent holds, two levels down in field 1,
    the UTF-8 bytes of the last user turn. *)
Theorem request_reads_back (USER : Z) (apiKey version : JsString)
    (modelEnum : Z) (messages : list ChatMessage) (w : World) :
  0 <= USER -> 0 <= modelEnum ->
  exists metadata chatMessage timestamp intent generic,
    readMessage (fst (requestFields USER apiKey version modelEnum messages w))
      = Some [(1, Bytes metadata); (2, Bytes chatMessage);
              (4, VarintValue modelEnum)]
    /\ readMessage chatMessage
      = Some [(1, Bytes (utf8Encode (uuids w (S (uuidReads w)))));
              (2, VarintValue USER);
              (3, Bytes timestamp);
              (4, Bytes (utf8Encode (uuids w (S (S (uuidReads w))))));
              (5, Bytes intent)]
    /\ readMessage intent = Some [(1, Bytes generic)]
    /\ readMessage generic
      = Some [(1, Bytes (utf8Encode (promptOf messages)))].
Proof.
  intros HU HM. rewrite requestFields_layout. unfold requestCarrying.
  do 5 eexists. split; [|split; [|split]].
  - apply (readMessage_of 3). read_fields.
    rewrite <- (app_nil_r (encodeVarintField 4 modelEnum)).
    rewrite readFields_varint by lia. reflexivity.
  - apply (readMessage_of 5). read_fields.
    rewrite <- (app_nil_r (encodeMessage 5 _)).
    rewrite readFields_message by lia. reflexivity.
  - apply (readMessage_of 1).
    rewrite <- (app_nil_r (encodeMessage 1 _)).
    rewrite readFields_message by lia. reflexivity.
  - apply (readMessage_of 1).
    rewrite <- (app_nil_r (encodeString 1 _)).
    rewrite readFields_string by lia. reflexivity.
Qed.

Lemma request_reads_back_witness :
  exists metadata chatMessage timestamp intent generic,
    readMessage (fst (requestFields 1 (lit "key") (lit "1.0") 166
                        [mkChatMessage user (lit "hello")] sampleWorld))
      = Some [(1, Bytes metadata); (2, Bytes chatMessage); (4, VarintValue 166)]
    /\ readMessage chatMessage
      = Some [(1, Bytes (utf8Encode (uuids sampleWorld (S (uuidReads sampleWorld)))));
              (2, VarintValue 1);
              (3, Bytes timestamp);
              (4, Bytes (utf8Encode (uuids sampleWorld (S (S (uuidReads sampleWorld))))));
              (5, Bytes intent)]
    /\ readMessage intent = Some [(1, Bytes generic)]
    /\ readMessage generic
      = Some [(1, Bytes (utf8Encode (promptOf [mkChatMessage user (lit "hello")])))].
Proof.
  apply (request_reads_back 1 (lit "key") (lit "1.0") 166
           [mkChatMessage user (lit "hello")] sampleWorld); lia.
Defined.

(** X5: the metadata of a request, read with the wire format's reader, has
    the fields 1, 2, 3, 4, 7, 9, 10, 12 in this order: the version is sent
    twice (fields 2 and 7), the API key is field 3, the request id (field 9)
    is the clock value read first and the session id (field 10) the first
    identifier drawn.  The clock value must not be negative. *)
Theorem metadata_reads_back (apiKey version : JsString) (w : World) :
  0 <= clock w (clockReads w) ->
  readMessage (fst (encodeMetadata apiKey version w))
  = Some [(1, Bytes (utf8Encode (lit "windsurf-next")));
          (2, Bytes (utf8Encode version));
          (3, Bytes (utf8Encode apiKey));
          (4, Bytes (utf8Encode (lit "en")));
          (7, Bytes (utf8Encode version));
          (9, VarintValue (clock w (clockReads w)));
          (10, Bytes (utf8Encode (uuids w (uuidReads w))));
          (12, Bytes (utf8Encode (lit "windsurf")))].
Proof.
  intros Hc.
  change (fst (encodeMetadata apiKey version w)) with (metadataIn w apiKey version).
  unfold metadataIn. apply (readMessage_of 8).
  read_fields.
  rewrite <- (app_nil_r (encodeString 12 _)).
  rewrite readFields_string by lia. reflexivity.
Qed.

Lemma metadata_reads_back_witness :
  0 <= clock sampleWorld (clockReads sampleWorld)
  /\ readMessage (fst (encodeMetadata (lit "key") (lit "1.0") sampleWorld))
  = Some [(1, Bytes (utf8Encode (lit "windsurf-next")));
          (2, Bytes (utf8Encode (lit "1.0")));
          (3, Bytes (utf8Encode (lit "key")));
          (4, Bytes (utf8Encode (lit "en")));
          (7, Bytes (utf8Encode (lit "1.0")));
          (9, VarintValue (clock sampleWorld (clockReads sampleWorld)));
          (10, Bytes (utf8Encode (uuids sampleWorld (uuidReads sampleWorld))));
          (12, Bytes (utf8Encode (lit "windsurf")))].
Proof.
  split; [vm_compute; discriminate|].
  apply (metadata_reads_back (lit "key") (lit "1.0") sampleWorld).
  vm_compute; discriminate.
Defined.

(** X6: for a clock value [now >= 0] (milliseconds), the timestamp message
    reads back as field 1 = seconds and field 2 = nanoseconds with
    [0 <= nanos < 10^9], nanos a whole number of milliseconds, and
    [seconds * 1000 + nanos / 10^6 = now]: no millisecond is lost. *)
Theorem encodeTimestamp_reads_back (w : World) :
  0 <= clock w (clockReads w) ->
  exists seconds nanos,
    readMessage (fst (encodeTimestamp w))
      = Some [(1, VarintValue seconds); (2, VarintValue nanos)]
    /\ 0 <= nanos < 1000000000
    /\ nanos mod 1000000 = 0
    /\ seconds * 1000 + nanos / 1000000 = clock w (clockReads w).
Proof.
  intros Hc. set (now := clock w (clockReads w)) in *.
  exists (now / 1000), (Z.rem now 1000 * 1000000).
  assert (Hrem : Z.rem now 1000 = now mod 1000) by (apply Z.rem_mod_nonneg; lia).
  assert (Hr : 0 <= now mod 1000 < 1000) by (apply Z.mod_pos_bound; lia).
  assert (Hq : 0 <= now / 1000) by (apply Z.div_pos; lia).
  split; [|split; [|split]].
  - change (fst (encodeTimestamp w))
      with (encodeVarintField 1 (now / 1000)
            ++ encodeVarintField 2 (Z.rem now 1000 * 1000000)).
    apply (readMessage_of 2). rewrite readFields_varint by lia.
    rewrite <- (app_nil_r (encodeVarintField 2 _)).
    rewrite readFields_varint by lia. reflexivity.
  - lia.
  - apply Z.mod_mul. lia.
  - rewrite Z.div_mul by lia. rewrite Hrem.
    pose proof (Z.div_mod now 1000). lia.
Qed.

Lemma encodeTimestamp_reads_back_witness :
  exists seconds nanos,
    readMessage (fst (encodeTimestamp sampleWorld))
      = Some [(1, VarintValue seconds); (2, VarintValue nanos)]
    /\ 0 <= nanos < 1000000000
    /\ nanos mod 1000000 = 0
    /\ seconds * 1000 + nanos / 1000000
       = clock sampleWorld (clockReads sampleWorld).
Proof.
  apply (encodeTimestamp_reads_back sampleWorld). vm_compute; discriminate.
Defined.

(** ** Every entry of a request is a byte *)

Section ByteFacts.

Lemma lor_byte a b : isByte a -> isByte b -> isByte (Z.lor a b).
Proof.
  unfold isByte. intros Ha Hb. split; [apply Z.lor_nonneg; lia|].
  destruct (Z.eq_dec (Z.lor a b) 0) as [E|E]; [lia|].
  assert (0 < Z.lor a b) by (assert (0 <= Z.lor a b) by (apply Z.lor_nonneg; lia); lia).
  change 256 with (2 ^ 8). apply Z.log2_lt_pow2; [lia|].
  rewrite Z.log2_lor by lia.
  destruct (Z.eq_dec a 0) as [->|Ea]; destruct (Z.eq_dec b 0) as [->|Eb];
    change (Z.log2 0) with 0;
    try (assert (Z.log2 a < 8) by (apply Z.log2_lt_pow2; change (2 ^ 8) with 256; lia));
    try (assert (Z.log2 b < 8) by (apply Z.log2_lt_pow2; change (2 ^ 8) with 256; lia));
    lia.
Qed.

Lemma land63_byte x : isByte (Z.land x 0x3F).
Proof.
  unfold isByte. change 0x3F with (Z.ones 6). rewrite Z.land_ones by lia.
  pose proof (Z.mod_pos_bound x (2 ^ 6) ltac:(lia)). change (2 ^ 6) with 64 in *. lia.
Qed.

Lemma shiftr_byte c k :
  0 <= c -> 0 <= k -> c < 256 * 2 ^ k -> isByte (Z.shiftr c k).
Proof.
  intros Hc Hk Hb. unfold isByte. rewrite Z.shiftr_div_pow2 by lia.
  assert (0 < 2 ^ k) by (apply Z.pow_pos_nonneg; lia).
  split; [apply Z.div_pos; lia|]. apply Z.div_lt_upper_bound; lia.
Qed.

Lemma continuation_byte x : isByte (Z.lor 0x80 (Z.land x 0x3F)).
Proof. apply lor_byte; [unfold isByte; lia|apply land63_byte]. Qed.

Lemma replacement_bytes : Forall isByte replacementBytes.
Proof. repeat constructor; unfold isByte; lia. Qed.

Lemma utf8Encode_bytes_bounded n : forall s,
  (length s <= n)%nat -> Forall isCodeUnit s -> Forall isByte (utf8Encode s).
Proof.
  induction n as [|n IH]; intros s Hn Hs.
  - destruct s; [constructor|simpl in Hn; lia].
  - destruct s as [|c r]; [constructor|].
    inversion Hs as [|? ? Hc Hr]; subst. unfold isCodeUnit in Hc.
    assert (IHr : Forall isByte (utf8Encode r)) by (apply IH; [simpl in Hn; lia|exact Hr]).
    cbn [utf8Encode].
    destruct (Z.ltb_spec c 0x80) as [L1|L1].
    { constructor; [unfold isByte; lia|exact IHr]. }
    destruct (Z.ltb_spec c 0x800) as [L2|L2].
    { constructor; [|constructor; [apply continuation_byte|exact IHr]].
      apply lor_byte; [unfold isByte; lia|].
      apply shiftr_byte; lia. }
    destruct (isHighSurrogate c) eqn:HS.
    { destruct r as [|d r']; [apply replacement_bytes|].
      destruct (isLowSurrogate d) eqn:LS.
      - unfold isHighSurrogate in HS. unfold isLowSurrogate in LS.
        apply andb_prop in HS. destruct HS as [H1 H2].
        apply andb_prop in LS. destruct LS as [H3 H4].
        apply Z.leb_le in H1, H2, H3, H4.
        assert (Hsh : Z.shiftl (c - 0xD800) 10 = (c - 0xD800) * 1024)
          by (rewrite Z.shiftl_mul_pow2 by lia; reflexivity).
        rewrite Hsh.
        assert (Hr' : Forall isByte (utf8Encode r')).
        { apply IH; [simpl in Hn; lia|]. inversion Hr; assumption. }
        constructor; [|constructor; [apply continuation_byte|
          constructor; [apply continuation_byte|
          constructor; [apply continuation_byte|exact Hr']]]].
        apply lor_byte; [unfold isByte; lia|].
        apply shiftr_byte; lia.
      - apply Forall_app. split; [apply replacement_bytes|exact IHr]. }
    destruct (isLowSurrogate c).
    { apply Forall_app. split; [apply replacement_bytes|exact IHr]. }
    constructor; [|constructor; [apply continuation_byte|
      constructor; [apply continuation_byte|exact IHr]]].
    apply lor_byte; [unfold isByte; lia|].
    apply shiftr_byte; lia.
Qed.

Lemma utf8Encode_bytes s : Forall isCodeUnit s -> Forall isByte (utf8Encode s).
Proof. apply (utf8Encode_bytes_bounded (length s)). lia. Qed.

Lemma encodeVarint_bytes v : 0 <= v -> Forall isByte (encodeVarint v).
Proof. intros Hv. apply (encodeVarint_facts v Hv). Qed.

Lemma tag_byte f w : 1 <= f <= 15 -> 0 <= w < 8 -> isByte (or32 (shl32 f 3) w).
Proof. intros Hf Hw. rewrite tag_value by assumption. unfold isByte. lia. Qed.

Lemma encodeMessage_bytes f data :
  1 <= f <= 15 -> Forall isByte data -> Forall isByte (encodeMessage f data).
Proof.
  intros Hf Hd. unfold encodeMessage. constructor; [apply tag_byte; lia|].
  apply Forall_app. split; [apply encodeVarint_bytes; lia|exact Hd].
Qed.

Lemma encodeString_bytes f str :
  1 <= f <= 15 -> Forall isCodeUnit str -> Forall isByte (encodeString f str).
Proof.
  intros Hf Hs. rewrite encodeString_message.
  apply encodeMessage_bytes; [exact Hf|apply utf8Encode_bytes; exact Hs].
Qed.

Lemma encodeVarintField_bytes f v :
  1 <= f <= 15 -> 0 <= v -> Forall isByte (encodeVarintField f v).
Proof.
  intros Hf Hv. unfold encodeVarintField. constructor; [apply tag_byte; lia|].
  apply encodeVarint_bytes; exact Hv.
Qed.

Lemma lit_codeUnits s : Forall isCodeUnit (lit s).
Proof.
  unfold lit. apply Forall_forall. intros x Hx. apply in_map_iff in Hx.
  destruct Hx as (a & <- & _). unfold isCodeUnit.
  pose proof (N_ascii_bounded a). lia.
Qed.

Lemma bufferFrom_id a : Forall isByte a -> bufferFrom a = a.
Proof.
  induction 1 as [|x r Hx _ IH]; [reflexivity|].
  unfold bufferFrom in *. cbn [map]. rewrite IH. f_equal.
  change 255 with (Z.ones 8). rewrite Z.land_ones by lia.
  apply Z.mod_small. unfold isByte in Hx. change (2 ^ 8) with 256. lia.
Qed.

Lemma promptOf_codeUnits messages :
  Forall (fun m => Forall isCodeUnit (content m)) messages ->
  Forall isCodeUnit (promptOf messages).
Proof.
  intros H. unfold promptOf, lastUserMessage, pop.
  destruct (rev (filter (fun m => Role_eqb (role m) user) messages)) as [|m r] eqn:E;
    [constructor|].
  assert (Hin : In m messages).
  { assert (In m (rev (filter (fun m => Role_eqb (role m) user) messages)))
      by (rewrite E; left; reflexivity).
    apply in_rev in H0. apply filter_In in H0. tauto. }
  rewrite Forall_forall in H. specialize (H m Hin).
  destruct (content m); [constructor|exact H].
Qed.

Lemma requestFields_bytes USER apiKey version modelEnum messages w :
  0 <= USER -> 0 <= modelEnum ->
  (forall n, 0 <= clock w n) ->
  (forall n, Forall isCodeUnit (uuids w n)) ->
  Forall isCodeUnit apiKey -> Forall isCodeUnit version ->
  Forall (fun m => Forall isCodeUnit (content m)) messages ->
  Forall isByte (fst (requestFields USER apiKey version modelEnum messages w)).
Proof.
  intros HU HM Hclock Hids Hkey Hver Hmsgs.
  rewrite requestFields_layout. unfold requestCarrying.
  pose proof (promptOf_codeUnits messages Hmsgs) as Hprompt.
  assert (Hnow : 0 <= clock w (S (clockReads w))) by apply Hclock.
  assert (Hsec : 0 <= clock w (S (clockReads w)) / 1000) by (apply Z.div_pos; lia).
  assert (Hnanos : 0 <= Z.rem (clock w (S (clockReads w))) 1000 * 1000000).
  { rewrite Z.rem_mod_nonneg by lia.
    pose proof (Z.mod_pos_bound (clock w (S (clockReads w))) 1000). lia. }
  repeat first
    [ apply Forall_app; split
    | apply encodeString_bytes; [lia|]
    | apply encodeMessage_bytes; [lia|]
    | apply utf8Encode_bytes
    | apply encodeVarintField_bytes; [lia|]
    | apply lit_codeUnits
    | apply Hids
    | assumption
    | apply Hclock
    | unfold metadataIn, timestampIn, messageIdIn, conversationIdIn ].
Qed.

End ByteFacts.

(** X7: when the numbers given to the builder are not negative (source,
    model enum, the clock) and the strings are strings of UTF-16 code units,
    every entry of the request array is a byte, so [Buffer.from(request)]
    changes nothing: the payload of the frame is the request as encoded. *)
Theorem buildChatRequest_payload_exact (USER : Z) (apiKey version : JsString)
    (modelEnum : Z) (messages : list ChatMessage) (w : World) :
  0 <= USER -> 0 <= modelEnum ->
  (forall n, 0 <= clock w n) ->
  (forall n, Forall isCodeUnit (uuids w n)) ->
  Forall isCodeUnit apiKey -> Forall isCodeUnit version ->
  Forall (fun m => Forall isCodeUnit (content m)) messages ->
  let request := fst (requestFields USER apiKey version modelEnum messages w) in
  Forall isByte request
  /\ fst (buildChatRequest USER apiKey version modelEnum messages w)
     = frameOf request.
Proof.
  intros HU HM Hclock Hids Hkey Hver Hmsgs request.
  assert (Hb : Forall isByte request) by (apply requestFields_bytes; assumption).
  split; [exact Hb|].
  rewrite buildChatRequest_run. fold request. rewrite (bufferFrom_id request Hb).
  reflexivity.
Qed.

Lemma buildChatRequest_payload_exact_witness :
  let request := fst (requestFields 1 (lit "key") (lit "1.0") 166
                        [mkChatMessage user (lit "hello")] sampleWorld) in
  Forall isByte request
  /\ fst (buildChatRequest 1 (lit "key") (lit "1.0") 166
            [mkChatMessage user (lit "hello")] sampleWorld)
     = frameOf request.
Proof.
  apply (buildChatRequest_payload_exact 1 (lit "key") (lit "1.0") 166
           [mkChatMessage user (lit "hello")] sampleWorld).
  - lia.
  - lia.
  - intros n. cbn [sampleWorld clock]. lia.
  - intros n. cbn [sampleWorld uuids]. apply lit_codeUnits.
  - apply lit_codeUnits.
  - apply lit_codeUnits.
  - constructor; [apply lit_codeUnits|constructor].
Defined.

(** ** The number-based encoder of the tester *)

Section TesterFacts.

Lemma pushGroups_small v : v <= 127 -> Tester.pushGroups v = [v].
Proof.
  intros H. rewrite Tester.pushGroups_equation_1.
  destruct (Z_gt_le_dec v 127); [lia|reflexivity].
Qed.

Lemma pushGroups_big v :
  127 < v ->
  Tester.pushGroups v
  = or32 (Tester.and32 v 0x7f) 0x80 :: Tester.pushGroups (Tester.shru32 v 7).
Proof.
  intros H. rewrite Tester.pushGroups_equation_1.
  destruct (Z_gt_le_dec v 127); [reflexivity|lia].
Qed.

Lemma tester_encodeVarint_loop v : Tester.encodeVarint v = Tester.pushGroups v.
Proof.
  unfold Tester.encodeVarint.
  destruct (Z_gt_le_dec v 127).
  - rewrite pushGroups_big by lia. reflexivity.
  - rewrite pushGroups_small by lia. reflexivity.
Qed.

Lemma toInt32_low7 v : Z.land (toInt32 v) 0x7f = Z.land v 0x7f.
Proof.
  unfold toInt32. change 0x7f with (Z.ones 7). rewrite !Z.land_ones by lia.
  change (2 ^ 7) with 128. change (2 ^ 31) with 2147483648.
  change (2 ^ 32) with 4294967296.
  Z.div_mod_to_equations. lia.
Qed.

Lemma and32_low7 v : Tester.and32 v 0x7f = Z.land v 0x7f.
Proof.
  unfold Tester.and32. rewrite (toInt32_small 0x7f) by lia. apply toInt32_low7.
Qed.

Lemma shru32_7 v : Tester.shru32 v 7 = Z.shiftr (v mod 2 ^ 32) 7.
Proof. reflexivity. Qed.

Lemma shiftr7_uint32 v : 0 <= Z.shiftr (v mod 2 ^ 32) 7 < 2 ^ 25.
Proof.
  rewrite Z.shiftr_div_pow2 by lia.
  pose proof (Z.mod_pos_bound v (2 ^ 32) ltac:(lia)).
  change (2 ^ 7) with 128. change (2 ^ 25) with 33554432.
  change (2 ^ 32) with 4294967296 in *.
  Z.div_mod_to_equations. lia.
Qed.

(** On the values of an unsigned 32-bit integer the loop on numbers and the
    loop on BigInts push the same entries. *)
Lemma pushGroups_uint32 v :
  0 <= v < 2 ^ 32 -> Tester.pushGroups v = Wire.encodeVarint v.
Proof.
  intros [Hv Hb]. revert Hb. pattern v. apply Zlt_0_ind; [clear v Hv|exact Hv].
  intros v IH Hv Hb.
  destruct (Z_gt_le_dec v 127) as [Hbig|Hsmall].
  - rewrite pushGroups_big, encodeVarint_big by lia.
    rewrite and32_low7, shru32_7. rewrite (Z.mod_small v) by lia.
    f_equal.
    assert (Hs : 0 <= Z.shiftr v 7 < v).
    { rewrite Z.shiftr_div_pow2 by lia. change (2 ^ 7) with 128.
      Z.div_mod_to_equations. lia. }
    apply IH; lia.
  - rewrite pushGroups_small, encodeVarint_small by lia. reflexivity.
Qed.

Lemma mod_uint32_split v :
  0 <= v ->
  Z.lor (Z.land v 0x7f) (Z.shiftl (Z.shiftr (v mod 2 ^ 32) 7) 7) = v mod 2 ^ 32.
Proof.
  intros Hv. rewrite <- (split_low7 (v mod 2 ^ 32)) at 2. f_equal.
  change 0x7F with (Z.ones 7). change 0x7f with (Z.ones 7).
  rewrite !Z.land_ones by lia.
  change (2 ^ 7) with 128. change (2 ^ 32) with 4294967296.
  Z.div_mod_to_equations. lia.
Qed.

Lemma pushGroups_reads_back v rest :
  0 <= v ->
  decodeVarint (Tester.pushGroups v ++ rest) = Some (v mod 2 ^ 32, rest).
Proof.
  intros Hv. destruct (Z_gt_le_dec v 127) as [Hbig|Hsmall].
  - rewrite pushGroups_big by lia. rewrite and32_low7, shru32_7.
    pose proof (shiftr7_uint32 v) as Hs.
    assert (Hs' : 0 <= Z.shiftr (v mod 2 ^ 32) 7 < 2 ^ 32).
    { split; [lia|]. apply Z.lt_trans with (2 ^ 25); [lia|reflexivity]. }
    rewrite pushGroups_uint32 by exact Hs'.
    pose proof (low7_range v) as Hlow.
    rewrite or32_cont by exact Hlow.
    unfold decodeVarint. cbn [app decodeVarintFrom].
    rewrite cont_flag by exact Hlow. rewrite cont_low7 by exact Hlow.
    destruct (encodeVarint_facts (Z.shiftr (v mod 2 ^ 32) 7) ltac:(lia))
      as (_ & _ & _ & Hdec).
    rewrite Hdec by lia. rewrite Z.shiftl_0_r, Z.lor_0_l.
    change (0 + 7) with 7. rewrite mod_uint32_split by lia. reflexivity.
  - rewrite pushGroups_small by lia. rewrite Z.mod_small
      by (change (2 ^ 32) with 4294967296; lia).
    rewrite <- (encodeVarint_small v) by lia.
    apply decodeVarint_encodeVarint. lia.
Qed.

End TesterFacts.

(** X8: the tester's [encodeVarint], which works on a number with [&],
    [|] and [>>>], keeps only the low 32 bits of its value: what a decoder
    reads back from its output is [v mod 2^32].  It returns the entries of
    the client's BigInt [encodeVarint] exactly for the values below [2^32];
    a larger value (a clock value in milliseconds, say) is encoded
    differently and is not read back. *)
Theorem tester_encodeVarint_uint32 (v : Z) (rest : list Z) :
  0 <= v ->
  decodeVarint (Tester.encodeVarint v ++ rest) = Some (v mod 2 ^ 32, rest)
  /\ (Tester.encodeVarint v = Wire.encodeVarint v <-> v < 2 ^ 32).
Proof.
  intros Hv. rewrite tester_encodeVarint_loop.
  split; [apply pushGroups_reads_back; exact Hv|split].
  - intros E. pose proof (pushGroups_reads_back v [] Hv) as Hr.
    rewrite E, decodeVarint_encodeVarint in Hr by exact Hv.
    injection Hr as Hr.
    pose proof (Z.mod_pos_bound v (2 ^ 32) ltac:(lia)). lia.
  - intros Hb. apply pushGroups_uint32. lia.
Qed.

Lemma tester_encodeVarint_uint32_witness :
  decodeVarint (Tester.encodeVarint 1700000000123 ++ [])
    = Some (1700000000123 mod 2 ^ 32, [])
  /\ (Tester.encodeVarint 1700000000123 = Wire.encodeVarint 1700000000123
      <-> 1700000000123 < 2 ^ 32).
Proof. apply (tester_encodeVarint_uint32 1700000000123 []). lia. Defined.

(** ** The model tables, both directions *)

Section NameFacts.

Lemma trimStart_head s :
  trimStart s = [] \/ exists c r, trimStart s = c :: r /\ isWhiteSpace c = false.
Proof.
  induction s as [|c r IH]; [left; reflexivity|].
  cbn [trimStart]. destruct (isWhiteSpace c) eqn:E; [exact IH|].
  right. exists c, r. split; [reflexivity|exact E].
Qed.

Lemma trimStart_kept c r : isWhiteSpace c = false -> trimStart (c :: r) = c :: r.
Proof. intros E. cbn [trimStart]. rewrite E. reflexivity. Qed.

Lemma trimStart_idem s : trimStart (trimStart s) = trimStart s.
Proof.
  destruct (trimStart_head s) as [->|(c & r & -> & E)]; [reflexivity|].
  apply trimStart_kept. exact E.
Qed.

Lemma trimStart_snoc l c :
  isWhiteSpace c = false -> trimStart (l ++ [c]) = trimStart l ++ [c].
Proof.
  intros E. induction l as [|x l IH].
  - cbn [app trimStart]. rewrite E. reflexivity.
  - cbn [app trimStart]. destruct (isWhiteSpace x); [exact IH|reflexivity].
Qed.

Lemma trimEnd_head c r :
  isWhiteSpace c = false -> exists r', trimEnd (c :: r) = c :: r'.
Proof.
  intros E. unfold trimEnd. cbn [rev]. rewrite trimStart_snoc by exact E.
  rewrite rev_app_distr. cbn [rev app]. eexists. reflexivity.
Qed.

Lemma trimEnd_idem s : trimEnd (trimEnd s) = trimEnd s.
Proof. unfold trimEnd. rewrite rev_involutive, trimStart_idem. reflexivity. Qed.

Lemma trim_idem s : trim (trim s) = trim s.
Proof.
  unfold trim.
  destruct (trimStart_head s) as [->|(c & r & -> & E)]; [reflexivity|].
  destruct (trimEnd_head c r E) as (r' & Hr).
  assert (Hk : trimStart (trimEnd (c :: r)) = trimEnd (c :: r))
    by (rewrite Hr; apply trimStart_kept; exact E).
  rewrite Hk. apply trimEnd_idem.
Qed.

Lemma isWhiteSpace_lower c :
  isWhiteSpace (if (65 <=? c) && (c <=? 90) then c + 32 else c) = isWhiteSpace c.
Proof.
  destruct ((65 <=? c) && (c <=? 90)) eqn:E; [|reflexivity].
  apply andb_true_iff in E. destruct E as [E1 E2].
  apply Z.leb_le in E1. apply Z.leb_le in E2.
  unfold isWhiteSpace.
  repeat match goal with
  | |- context [?a =? ?b] =>
    rewrite (proj2 (Z.eqb_neq a b)) by lia
  end.
  replace (8192 <=? c + 32) with false by (symmetry; apply Z.leb_gt; lia).
  replace (8192 <=? c) with false by (symmetry; apply Z.leb_gt; lia).
  reflexivity.
Qed.

Lemma trimStart_lower s : trimStart (toLowerCase s) = toLowerCase (trimStart s).
Proof.
  induction s as [|c r IH]; [reflexivity|].
  cbn [toLowerCase map trimStart]. rewrite isWhiteSpace_lower.
  destruct (isWhiteSpace c); [exact IH|reflexivity].
Qed.

Lemma trim_lower s : trim (toLowerCase s) = toLowerCase (trim s).
Proof.
  unfold trim, trimEnd. rewrite trimStart_lower.
  unfold toLowerCase at 1. rewrite <- map_rev.
  fold (toLowerCase (rev (trimStart s))).
  rewrite trimStart_lower. unfold toLowerCase. rewrite map_rev. reflexivity.
Qed.

Lemma toLowerCase_idem s : toLowerCase (toLowerCase s) = toLowerCase s.
Proof.
  unfold toLowerCase. rewrite map_map. apply map_ext. intros c.
  destruct ((65 <=? c) && (c <=? 90)) eqn:E; [|rewrite E; reflexivity].
  apply andb_true_iff in E. destruct E as [E1 E2].
  apply Z.leb_le in E1. apply Z.leb_le in E2.
  replace (c + 32 <=? 90) with false by (symmetry; apply Z.leb_gt; lia).
  rewrite andb_false_r. reflexivity.
Qed.

(** The normal form of a name is the same with and without its padding and
    its capitals. *)
Lemma normalized_trim name :
  trim (toLowerCase (trim name)) = trim (toLowerCase name).
Proof. rewrite trim_lower, trim_idem, <- trim_lower. reflexivity. Qed.

Lemma normalized_lower name :
  trim (toLowerCase (toLowerCase name)) = trim (toLowerCase name).
Proof. rewrite toLowerCase_idem. reflexivity. Qed.

Lemma trimStart_padding ws s :
  forallb isWhiteSpace ws = true -> trimStart (ws ++ s) = trimStart s.
Proof.
  induction ws as [|c r IH]; intros H; [reflexivity|].
  cbn [forallb] in H. apply andb_true_iff in H. destruct H as [Hc Hr].
  cbn [app trimStart]. rewrite Hc. apply IH. exact Hr.
Qed.

Lemma forallb_rev {A} (p : A -> bool) l : forallb p (rev l) = forallb p l.
Proof.
  induction l as [|x l IH]; [reflexivity|].
  cbn [rev forallb]. rewrite forallb_app, IH. cbn [forallb].
  rewrite andb_true_r. apply andb_comm.
Qed.

Lemma trimEnd_padding s ws :
  forallb isWhiteSpace ws = true -> trimEnd (s ++ ws) = trimEnd s.
Proof.
  intros H. unfold trimEnd. rewrite rev_app_distr.
  rewrite trimStart_padding by (rewrite forallb_rev; exact H). reflexivity.
Qed.

Lemma trim_padding before name after :
  forallb isWhiteSpace before = true -> forallb isWhiteSpace after = true ->
  trim (before ++ name ++ after) = trim name.
Proof.
  intros Hb Ha. unfold trim. rewrite trimStart_padding by exact Hb.
  destruct (trimStart_head name) as [E|(c & r & E & Hc)].
  - assert (Hall : forallb isWhiteSpace name = true).
    { clear - E. induction name as [|x l IH]; [reflexivity|].
      cbn [trimStart] in E. cbn [forallb].
      destruct (isWhiteSpace x); [apply IH; exact E|discriminate]. }
    rewrite E. rewrite <- (app_nil_r (name ++ after)).
    rewrite (trimStart_padding (name ++ after) [])
      by (rewrite forallb_app, Hall, Ha; reflexivity).
    reflexivity.
  - assert (Hsplit : exists pad, name = pad ++ c :: r
                                 /\ forallb isWhiteSpace pad = true).
    { clear - E. induction name as [|x l IH]; [discriminate|].
      cbn [trimStart] in E. destruct (isWhiteSpace x) eqn:Hx.
      - destruct (IH E) as (pad & -> & Hp). exists (x :: pad).
        split; [reflexivity|]. cbn [forallb]. rewrite Hx, Hp. reflexivity.
      - exists []. split; [cbn [app]; congruence|reflexivity]. }
    rewrite E. destruct Hsplit as (pad & -> & Hp).
    rewrite <- app_assoc. rewrite (trimStart_padding pad) by exact Hp.
    cbn [app]. rewrite trimStart_kept by exact Hc.
    change (c :: r ++ after) with ((c :: r) ++ after).
    apply trimEnd_padding. exact Ha.
Qed.

(** Checked on every row of [ENUM_TO_MODEL_NAME]. *)
Lemma canonical_rows_agree :
  forallb (fun row =>
    match getProperty (snd row) with
    | Some (Member e) => ModelEnum_beq e (fst row)
    | _ => false
    end
    && str_eqb (trim (toLowerCase (snd row))) (snd row))
    ENUM_TO_MODEL_NAME = true.
Proof. vm_compute. reflexivity. Qed.

Lemma nameOfMember_In e table n :
  nameOfMember e table = Some n -> In (e, n) table.
Proof.
  induction table as [|[e' n'] rest IH]; [discriminate|].
  cbn [nameOfMember]. destruct (ModelEnum_beq e' e) eqn:E.
  - intros H. injection H as <-.
    apply internal_ModelEnum_dec_bl in E. subst. left. reflexivity.
  - intros H. right. apply IH. exact H.
Qed.

Lemma every_member_named e : nameOfMember e ENUM_TO_MODEL_NAME <> None.
Proof. destruct e; vm_compute; discriminate. Qed.

Lemma enumToModelName_row e : In (e, enumToModelName e) ENUM_TO_MODEL_NAME.
Proof.
  unfold enumToModelName.
  destruct (nameOfMember e ENUM_TO_MODEL_NAME) as [n|] eqn:E.
  - apply nameOfMember_In. exact E.
  - exfalso. exact (every_member_named e E).
Qed.

Lemma modelNameToEnum_canonical e :
  modelNameToEnum (enumToModelName e) = Member e.
Proof.
  pose proof canonical_rows_agree as H. rewrite forallb_forall in H.
  specialize (H _ (enumToModelName_row e)). cbn [fst snd] in H.
  apply andb_true_iff in H. destruct H as [Hp Hn].
  apply str_eqb_eq in Hn. unfold modelNameToEnum. cbv zeta. rewrite Hn.
  destruct (getProperty (enumToModelName e)) as [[e'|?]|]; try discriminate.
  apply internal_ModelEnum_dec_bl in Hp. subst. reflexivity.
Qed.

Lemma ownProperty_In key table e :
  ownProperty key table = Some e -> In (key, e) table.
Proof.
  induction table as [|[k e'] rest IH]; [discriminate|].
  cbn [ownProperty]. destruct (str_eqb k key) eqn:E.
  - intros H. injection H as <-. apply str_eqb_eq in E. subst. left. reflexivity.
  - intros H. right. apply IH. exact H.
Qed.

Lemma ownProperty_key key table :
  ownProperty key table = None ->
  existsb (fun entry => str_eqb (fst entry) key) table = false.
Proof.
  induction table as [|[k e'] rest IH]; [reflexivity|].
  cbn [ownProperty existsb fst]. destruct (str_eqb k key); [discriminate|].
  exact IH.
Qed.

Lemma inherited_not_own :
  forallb (fun key =>
    match ownProperty key MODEL_NAME_TO_ENUM with Some _ => false | None => true end)
    inheritedNames = true.
Proof. vm_compute. reflexivity. Qed.

End NameFacts.

(** X9: the two tables agree.  For every enum member, [enumToModelName]
    returns a name that is one of [getCanonicalModels()] and one of
    [getSupportedModels()], and [modelNameToEnum] takes that name back to
    the member; so no two members share a canonical name.  (A member
    stands for its number: the members of [types.ts] are taken to have
    different numbers.) *)
Theorem enumToModelName_roundtrip (e : ModelEnum) :
  In (enumToModelName e) getCanonicalModels
  /\ In (enumToModelName e) getSupportedModels
  /\ modelNameToEnum (enumToModelName e) = Member e
  /\ forall e', enumToModelName e' = enumToModelName e -> e' = e.
Proof.
  pose proof (enumToModelName_row e) as Hrow.
  pose proof canonical_rows_agree as H. rewrite forallb_forall in H.
  specialize (H _ Hrow). cbn [fst snd] in H.
  apply andb_true_iff in H. destruct H as [Hp _].
  split; [|split; [|split]].
  - unfold getCanonicalModels. apply in_map_iff.
    exists (e, enumToModelName e). split; [reflexivity|exact Hrow].
  - unfold getSupportedModels, getProperty in *.
    destruct (ownProperty (enumToModelName e) MODEL_NAME_TO_ENUM) as [m|] eqn:E.
    + apply ownProperty_In in E. apply in_map_iff.
      exists (enumToModelName e, m). split; [reflexivity|exact E].
    + destruct (existsb _ inheritedNames); discriminate.
  - apply modelNameToEnum_canonical.
  - intros e' E. pose proof (modelNameToEnum_canonical e') as H1.
    rewrite E, modelNameToEnum_canonical in H1. congruence.
Qed.

(** X10: the lookup does not depend on capitals or on white space around
    the name: a name of ASCII characters resolves as its lower-case form
    does and as it does with white space put before and after it, and
    [isModelSupported] answers the same for them. *)
Theorem modelNameToEnum_normalizes (name before after : JsString) :
  Forall (fun c => 0 <= c < 128) name ->
  forallb isWhiteSpace before = true -> forallb isWhiteSpace after = true ->
  modelNameToEnum (before ++ name ++ after) = modelNameToEnum name
  /\ modelNameToEnum (toLowerCase name) = modelNameToEnum name
  /\ isModelSupported (before ++ name ++ after) = isModelSupported name
  /\ isModelSupported (toLowerCase name) = isModelSupported name.
Proof.
  intros _ Hb Ha.
  assert (Hpad : trim (toLowerCase (before ++ name ++ after))
                 = trim (toLowerCase name)).
  { rewrite !trim_lower. f_equal. apply trim_padding; assumption. }
  unfold modelNameToEnum, isModelSupported. cbv zeta.
  rewrite Hpad, normalized_lower. repeat split; reflexivity.
Qed.

Lemma modelNameToEnum_normalizes_witness :
  modelNameToEnum (lit "  " ++ lit "GPT-4o" ++ lit " ") = modelNameToEnum (lit "GPT-4o")
  /\ modelNameToEnum (toLowerCase (lit "GPT-4o")) = modelNameToEnum (lit "GPT-4o")
  /\ isModelSupported (lit "  " ++ lit "GPT-4o" ++ lit " ") = isModelSupported (lit "GPT-4o")
  /\ isModelSupported (toLowerCase (lit "GPT-4o")) = isModelSupported (lit "GPT-4o").
Proof.
  apply (modelNameToEnum_normalizes (lit "GPT-4o") (lit "  ") (lit " ")).
  - repeat constructor; vm_compute; discriminate.
  - reflexivity.
  - reflexivity.
Defined.

(** X11: [isModelSupported] uses [in], which also finds the names every
    object inherits.  For a name whose normal form is [constructor] or
    [__proto__], [isModelSupported] answers true although the name is none
    of [getSupportedModels()], and [modelNameToEnum] returns the inherited
    value, which is no enum member: the default is not applied. *)
Theorem inherited_names_pass (name : JsString) :
  In (trim (toLowerCase name)) inheritedNames ->
  isModelSupported name = true
  /\ ~ In (trim (toLowerCase name)) getSupportedModels
  /\ modelNameToEnum name = ObjectPrototypeMember (trim (toLowerCase name)).
Proof.
  intros Hin. pose proof inherited_not_own as H. rewrite forallb_forall in H.
  specialize (H _ Hin).
  destruct (ownProperty (trim (toLowerCase name)) MODEL_NAME_TO_ENUM) as [m|] eqn:E;
    [discriminate|].
  assert (Hex : existsb (str_eqb (trim (toLowerCase name))) inheritedNames = true).
  { apply existsb_exists. exists (trim (toLowerCase name)).
    split; [exact Hin|apply str_eqb_eq; reflexivity]. }
  unfold isModelSupported, modelNameToEnum, getProperty. cbv zeta.
  rewrite E, Hex. split; [reflexivity|split; [|reflexivity]].
  intros Hs. unfold getSupportedModels in Hs. apply in_map_iff in Hs.
  destruct Hs as ([k m] & Hk & Hrow). cbn [fst] in Hk. subst k.
  apply ownProperty_key in E.
  assert (existsb (fun entry => str_eqb (fst entry) (trim (toLowerCase name)))
            MODEL_NAME_TO_ENUM = true).
  { apply existsb_exists. exists (trim (toLowerCase name), m).
    split; [exact Hrow|apply str_eqb_eq; reflexivity]. }
  congruence.
Qed.

Lemma inherited_names_pass_witness :
  isModelSupported (lit " Constructor") = true
  /\ ~ In (trim (toLowerCase (lit " Constructor"))) getSupportedModels
  /\ modelNameToEnum (lit " Constructor")
     = ObjectPrototypeMember (trim (toLowerCase (lit " Constructor"))).
Proof.
  apply (inherited_names_pass (lit " Constructor")).
  left. vm_compute. reflexivity.
Defined.

(** X12: an ASCII name whose normal form is neither one of
    [getSupportedModels()] nor an inherited name is rejected by
    [isModelSupported] and resolves to the default enum; and the defaults
    agree with each other: [getDefaultModelEnum()] has the canonical name
    [getDefaultModel()], which resolves to the default enum.  (A name with
    other characters can lower-case into a listed one.) *)
Theorem unlisted_name_defaults (name : JsString) :
  Forall (fun c => 0 <= c < 128) name ->
  ~ In (trim (toLowerCase name)) getSupportedModels ->
  ~ In (trim (toLowerCase name)) inheritedNames ->
  isModelSupported name = false
  /\ modelNameToEnum name = Member getDefaultModelEnum
  /\ enumToModelName getDefaultModelEnum = getDefaultModel
  /\ modelNameToEnum getDefaultModel = Member getDefaultModelEnum.
Proof.
  intros _ Hs Hi. unfold isModelSupported, modelNameToEnum, getProperty. cbv zeta.
  destruct (ownProperty (trim (toLowerCase name)) MODEL_NAME_TO_ENUM) as [m|] eqn:E.
  { exfalso. apply Hs. apply ownProperty_In in E. unfold getSupportedModels.
    apply in_map_iff. exists (trim (toLowerCase name), m).
    split; [reflexivity|exact E]. }
  destruct (existsb (str_eqb (trim (toLowerCase name))) inheritedNames) eqn:X.
  { exfalso. apply Hi. apply existsb_exists in X. destruct X as (k & Hk & Ek).
    apply str_eqb_eq in Ek. subst k. exact Hk. }
  repeat split; vm_compute; reflexivity.
Qed.

Lemma unlisted_name_defaults_witness :
  isModelSupported (lit "gemini-3.0-pro") = false
  /\ modelNameToEnum (lit "gemini-3.0-pro") = Member getDefaultModelEnum
  /\ enumToModelName getDefaultModelEnum = getDefaultModel
  /\ modelNameToEnum getDefaultModel = Member getDefaultModelEnum.
Proof.
  apply (unlisted_name_defaults (lit "gemini-3.0-pro")).
  - let l := eval vm_compute in (lit "gemini-3.0-pro") in
    change (Forall (fun c => 0 <= c < 128) l).
    repeat (apply Forall_cons; [lia|]). apply Forall_nil.
  - intros H. unfold getSupportedModels in H. apply in_map_iff in H.
    destruct H as ([k m] & Hk & Hrow). cbn [fst] in Hk. subst k.
    assert (Hx : isTableKey (trim (toLowerCase (lit "gemini-3.0-pro"))) = true).
    { unfold isTableKey. apply existsb_exists.
      exists (trim (toLowerCase (lit "gemini-3.0-pro")), m).
      split; [exact Hrow|apply str_eqb_eq; reflexivity]. }
    vm_compute in Hx. discriminate.
  - intros [H|[H|[]]]; vm_compute in H; discriminate.
Defined.

(** ** What the extractor can return *)

Section ExtractFacts.

Lemma trimStart_In x s : In x (trimStart s) -> In x s.
Proof.
  induction s as [|c r IH]; [exact (fun H => H)|].
  cbn [trimStart]. destruct (isWhiteSpace c); [|exact (fun H => H)].
  intros H. right. apply IH. exact H.
Qed.

Lemma trimEnd_In x s : In x (trimEnd s) -> In x s.
Proof.
  unfold trimEnd. intros H. apply in_rev in H. apply trimStart_In in H.
  apply in_rev. exact H.
Qed.

Lemma trim_In x s : In x (trim s) -> In x s.
Proof. unfold trim. intros H. apply trimStart_In, trimEnd_In. exact H. Qed.

Lemma takeWhile_In p x s : In x (takeWhile p s) -> In x s /\ p x = true.
Proof.
  induction s as [|c r IH]; [intros []|].
  cbn [takeWhile]. destruct (p c) eqn:E; [|intros []].
  intros [<-|H]; [split; [left; reflexivity|exact E]|].
  destruct (IH H). split; [right; assumption|assumption].
Qed.

Lemma dropWhile_In p x s : In x (dropWhile p s) -> In x s.
Proof.
  induction s as [|c r IH]; [exact (fun H => H)|].
  cbn [dropWhile]. destruct (p c); [|exact (fun H => H)].
  intros H. right. apply IH. exact H.
Qed.

Lemma whiteSpace_not_zero c : isWhiteSpace c = true -> c <> 48.
Proof. intros H ->. vm_compute in H. discriminate. Qed.

Lemma markerAfterAsterisk_capture rest m g :
  markerAfterAsterisk rest = Some (m, g) ->
  forall x, In x g -> In x rest /\ x <> 48.
Proof.
  unfold markerAfterAsterisk.
  destruct (takeWhile notZeroDigit (dropWhile isWhiteSpace rest)) as [|c t] eqn:E.
  - destruct (rev (takeWhile isWhiteSpace rest)) as [|c t] eqn:R; [discriminate|].
    intros H. injection H as _ <-. intros x [<-|[]].
    assert (Hin : In c (takeWhile isWhiteSpace rest))
      by (apply in_rev; rewrite R; left; reflexivity).
    apply takeWhile_In in Hin. destruct Hin as [Hin Hws].
    split; [exact Hin|apply whiteSpace_not_zero; exact Hws].
  - intros H. injection H as _ <-. intros x Hx. rewrite <- E in Hx.
    apply takeWhile_In in Hx. destruct Hx as [Hin Hnz].
    split; [apply dropWhile_In in Hin; exact Hin|].
    unfold notZeroDigit in Hnz. apply negb_true_iff in Hnz.
    apply Z.eqb_neq. exact Hnz.
Qed.

Lemma markerMatch_capture s : forall m,
  markerMatch s = Some m ->
  In 42 s
  /\ exists whole g, m = [Some whole; Some g]
     /\ forall x, In x g -> In x s /\ x <> 48.
Proof.
  induction s as [|c rest IH]; [discriminate|].
  intros m. cbn [markerMatch]. destruct (isAsterisk c) eqn:A.
  - destruct (markerAfterAsterisk rest) as [[w g]|] eqn:E.
    + intros H. injection H as <-. apply Z.eqb_eq in A. subst c.
      split; [left; reflexivity|]. exists (42 :: w), g. split; [reflexivity|].
      intros x Hx. destruct (markerAfterAsterisk_capture _ _ _ E x Hx).
      split; [right; assumption|assumption].
    + intros H. destruct (IH m H) as (H42 & whole & g & -> & Hg).
      split; [right; exact H42|]. exists whole, g. split; [reflexivity|].
      intros x Hx. destruct (Hg x Hx). split; [right; assumption|assumption].
  - intros H. destruct (IH m H) as (H42 & whole & g & -> & Hg).
    split; [right; exact H42|]. exists whole, g. split; [reflexivity|].
    intros x Hx. destruct (Hg x Hx). split; [right; assumption|assumption].
Qed.

Lemma splitWide_In s : forall inSeparator acc part x,
  In part (splitWide inSeparator acc s) -> In x part ->
  In x acc \/ In x s.
Proof.
  induction s as [|c r IH]; intros inSeparator acc part x Hp Hx.
  - cbn [splitWide] in Hp. destruct Hp as [<-|[]]. left. apply in_rev. exact Hx.
  - cbn [splitWide] in Hp. destruct inSeparator.
    + destruct (isWhiteSpace c).
      * destruct (IH _ _ _ _ Hp Hx) as [[]|H]. right. right. exact H.
      * destruct (IH _ _ _ _ Hp Hx) as [[<-|[]]|H]; right;
          [left; reflexivity|right; exact H].
    + destruct (isWhiteSpace c && startsWithSpace r).
      * destruct Hp as [<-|Hp]; [left; apply in_rev; exact Hx|].
        destruct (IH _ _ _ _ Hp Hx) as [[]|H]. right. right. exact H.
      * destruct (IH _ _ _ _ Hp Hx) as [[<-|H]|H];
          [right; left; reflexivity|left; exact H|right; right; exact H].
Qed.

Lemma candidate_facts part cleaned :
  candidate part = Some cleaned ->
  trim cleaned = cleaned
  /\ forall x, In x cleaned -> In x part /\ x <> 45.
Proof.
  unfold candidate.
  destruct ((0 <? Z.of_nat (length part)) && negb (includesDash part)
            && negb (looksLikeId part)) eqn:E; [|discriminate].
  cbv zeta. destruct (0 <? Z.of_nat (length (trim (stripLead part)))); [|discriminate].
  intros H. injection H as <-. split; [apply trim_idem|].
  intros x Hx. apply trim_In in Hx. unfold stripLead in Hx.
  apply dropWhile_In in Hx. split; [exact Hx|].
  apply andb_true_iff in E. destruct E as [E _].
  apply andb_true_iff in E. destruct E as [_ E].
  apply negb_true_iff in E. intros ->.
  assert (includesDash part = true).
  { unfold includesDash. apply existsb_exists. exists 45.
    split; [exact Hx|reflexivity]. }
  congruence.
Qed.

Lemma firstCandidate_facts parts :
  firstCandidate parts = []
  \/ exists part, In part parts /\ candidate part = Some (firstCandidate parts).
Proof.
  induction parts as [|part rest IH]; [left; reflexivity|].
  cbn [firstCandidate]. destruct (candidate part) as [cleaned|] eqn:E.
  - right. exists part. split; [left; reflexivity|exact E].
  - destruct IH as [H|(p & Hin & Hc)]; [left; exact H|].
    right. exists p. split; [right; exact Hin|exact Hc].
Qed.

Lemma replaceNonPrintable_readable s : Forall isReadable (replaceNonPrintable s).
Proof.
  unfold replaceNonPrintable. apply Forall_forall. intros x Hx.
  apply in_map_iff in Hx. destruct Hx as (c & <- & _).
  destruct ((0x20 <=? c) && (c <=? 0x7E) || (c =? 10)) eqn:E.
  - apply orb_true_iff in E. destruct E as [E|E].
    + apply andb_true_iff in E. destruct E as [E1 E2].
      apply Z.leb_le in E1. apply Z.leb_le in E2. left. lia.
    + apply Z.eqb_eq in E. right. exact E.
  - left. lia.
Qed.

Lemma readableOf_readable chunk : Forall isReadable (readableOf chunk).
Proof.
  unfold readableOf. apply Forall_forall. intros x Hx. apply trim_In in Hx.
  pose proof (replaceNonPrintable_readable (toStringUtf8 chunk)) as H.
  rewrite Forall_forall in H. apply H. exact Hx.
Qed.

(** What the extractor returns, in terms of the readable text. *)
Lemma extractTextFromChunk_result chunk :
  exists text,
    extractTextFromChunk chunk = Returned text
    /\ trim text = text
    /\ (forall x, In x text -> In x (readableOf chunk))
    /\ ((In 42 (readableOf chunk) /\ ~ In 48 text)
        \/ (markerMatch (readableOf chunk) = None /\ ~ In 45 text)).
Proof.
  unfold extractTextFromChunk. cbv zeta.
  destruct (markerMatch (readableOf chunk)) as [m|] eqn:E.
  - destruct (markerMatch_capture _ _ E) as (H42 & whole & g & -> & Hg).
    exists (trim g). split; [reflexivity|]. split; [apply trim_idem|].
    split.
    + intros x Hx. apply trim_In in Hx. apply Hg. exact Hx.
    + left. split; [exact H42|]. intros H0. apply trim_In in H0.
      destruct (Hg _ H0) as [_ Hne]. apply Hne. reflexivity.
  - eexists. split; [reflexivity|].
    destruct (firstCandidate_facts (splitWide false [] (readableOf chunk)))
      as [Hempty|(part & Hin & Hc)].
    + rewrite Hempty. split; [reflexivity|]. split; [intros x []|].
      right. split; [reflexivity|intros []].
    + destruct (candidate_facts _ _ Hc) as [Ht Hx]. split; [exact Ht|].
      split.
      * intros x Hin'. destruct (Hx x Hin') as [Hp _].
        destruct (splitWide_In _ _ _ _ _ Hin Hp) as [[]|H]. exact H.
      * right. split; [reflexivity|]. intros H45.
        destruct (Hx _ H45) as [_ Hne]. apply Hne. reflexivity.
Qed.

End ExtractFacts.

(** X13: for every chunk the extractor returns a text that is already
    trimmed and consists of printable ASCII characters and line feeds
    only: nothing of the binary framing gets through. *)
Theorem extractTextFromChunk_readable (chunk : list Z) :
  exists text,
    extractTextFromChunk chunk = Returned text
    /\ Forall isReadable text
    /\ trim text = text.
Proof.
  destruct (extractTextFromChunk_result chunk) as (text & E & Ht & Hin & _).
  exists text. split; [exact E|]. split; [|exact Ht].
  apply Forall_forall. intros x Hx.
  pose proof (readableOf_readable chunk) as H. rewrite Forall_forall in H.
  apply H, Hin, Hx.
Qed.

(** X14: the text returned never holds both a [0] and a [-].  When the
    marker pattern matches, which needs an asterisk, the capture stops
    before the first [0]; otherwise the fallback takes only a part without
    [-].  So a chunk without an asterisk never yields a text with a dash,
    and no chunk yields a text such as a date [2024-01-10] in full. *)
Theorem extractTextFromChunk_never_both (chunk : list Z) :
  exists text,
    extractTextFromChunk chunk = Returned text
    /\ (~ In 48 text \/ ~ In 45 text)
    /\ (~ In 42 (readableOf chunk) -> ~ In 45 text).
Proof.
  destruct (extractTextFromChunk_result chunk)
    as (text & E & _ & _ & [[H42 H0]|[Hnone H45]]).
  - exists text. split; [exact E|]. split; [left; exact H0|].
    intros Hno. contradiction.
  - exists text. split; [exact E|]. split; [right; exact H45|].
    intros _. exact H45.
Qed.

(** ** The marker pattern on a chunk *)

Section MarkerFacts.

Lemma land_low_bits b k base :
  0 <= k -> base mod 2 ^ k = 0 -> base <= b < base + 2 ^ k ->
  Z.land b (Z.ones k) = b - base.
Proof.
  intros Hk Hbase Hb. rewrite Z.land_ones by lia.
  assert (0 < 2 ^ k) by (apply Z.pow_pos_nonneg; lia).
  apply Z.mod_divide in Hbase; [|lia]. destruct Hbase as (q & ->).
  replace b with ((b - q * 2 ^ k) + q * 2 ^ k) at 1 by lia.
  rewrite Z.mod_add by lia. apply Z.mod_small. lia.
Qed.

Lemma continuation_value cp b :
  0 <= cp -> 0x80 <= b <= 0xBF ->
  Z.lor (Z.shiftl cp 6) (Z.land b 0x3F) = cp * 64 + (b - 128).
Proof.
  intros Hcp Hb. change 0x3F with (Z.ones 6).
  rewrite (land_low_bits b 6 128) by (try reflexivity; change (2 ^ 6) with 64; lia).
  rewrite shifted_lor by (change (2 ^ 6) with 64; lia). reflexivity.
Qed.

Lemma utf8Start_inv : utf8Inv utf8Start.
Proof. unfold utf8Inv, utf8Start. cbn. lia. Qed.

Lemma utf8Lead_inv b :
  isByte b -> b <> 42 ->
  utf8Inv (snd (utf8Lead b)) /\ Forall (fun x => x <> 42) (fst (utf8Lead b)).
Proof.
  intros Hb Hne. unfold isByte in Hb. unfold utf8Lead.
  destruct (Z.leb_spec b 0x7F) as [L1|L1].
  { split; [apply utf8Start_inv|]. constructor; [exact Hne|constructor]. }
  destruct ((0xC2 <=? b) && (b <=? 0xDF)) eqn:E2.
  { apply andb_true_iff in E2. destruct E2 as [A B].
    apply Z.leb_le in A. apply Z.leb_le in B.
    split; [|constructor]. unfold utf8Inv. cbn [snd needed lower upper codePoint].
    change 0x1F with (Z.ones 5).
    rewrite (land_low_bits b 5 192) by (try reflexivity; change (2 ^ 5) with 32; lia).
    lia. }
  destruct ((0xE0 <=? b) && (b <=? 0xEF)) eqn:E3.
  { apply andb_true_iff in E3. destruct E3 as [A B].
    apply Z.leb_le in A. apply Z.leb_le in B.
    split; [|constructor]. unfold utf8Inv. cbn [snd needed lower upper codePoint].
    change 0xF with (Z.ones 4).
    rewrite (land_low_bits b 4 224) by (try reflexivity; change (2 ^ 4) with 16; lia).
    destruct (Z.eqb_spec b 0xE0); destruct (Z.eqb_spec b 0xED); lia. }
  destruct ((0xF0 <=? b) && (b <=? 0xF4)) eqn:E4.
  { apply andb_true_iff in E4. destruct E4 as [A B].
    apply Z.leb_le in A. apply Z.leb_le in B.
    split; [|constructor]. unfold utf8Inv. cbn [snd needed lower upper codePoint].
    change 0x7 with (Z.ones 3).
    rewrite (land_low_bits b 3 240) by (try reflexivity; change (2 ^ 3) with 8; lia).
    destruct (Z.eqb_spec b 0xF0); destruct (Z.eqb_spec b 0xF4); lia. }
  split; [apply utf8Start_inv|]. constructor; [lia|constructor].
Qed.

Lemma codeUnitsOf_high cp : 128 <= cp -> Forall (fun x => x <> 42) (codeUnitsOf cp).
Proof.
  intros H. unfold codeUnitsOf. destruct (Z.ltb_spec cp 0x10000).
  - constructor; [lia|constructor].
  - assert (0 <= Z.shiftr (cp - 0x10000) 10) by (apply Z.shiftr_nonneg; lia).
    assert (0 <= Z.land (cp - 0x10000) 0x3FF) by (apply Z.land_nonneg; lia).
    constructor; [lia|constructor; [lia|constructor]].
Qed.

Lemma utf8Step_inv st b :
  utf8Inv st -> isByte b -> b <> 42 ->
  utf8Inv (snd (utf8Step st b)) /\ Forall (fun x => x <> 42) (fst (utf8Step st b)).
Proof.
  intros (Hlo & Hup & Hcp & Hn) Hb Hne. unfold utf8Step.
  destruct (Z.eqb_spec (needed st) 0) as [N0|N0]; [apply utf8Lead_inv; assumption|].
  destruct ((lower st <=? b) && (b <=? upper st)) eqn:R.
  - apply andb_true_iff in R. destruct R as [A B].
    apply Z.leb_le in A. apply Z.leb_le in B.
    rewrite continuation_value by lia.
    destruct (Z.eqb_spec (needed st) 1) as [N1|N1].
    + cbn [fst snd]. split; [apply utf8Start_inv|].
      apply codeUnitsOf_high. lia.
    + cbn [fst snd]. split; [|constructor].
      unfold utf8Inv. cbn [needed lower upper codePoint]. lia.
  - destruct (utf8Lead_inv b Hb Hne) as [Hi Ho].
    destruct (utf8Lead b) as [out st']. cbn [fst snd] in *.
    split; [exact Hi|]. constructor; [lia|exact Ho].
Qed.

(** Decoding up to the first asterisk: whatever state the bytes before it
    leave, the asterisk is decoded as itself and the decoder starts afresh
    after it. *)
Lemma utf8Decode_to_asterisk pre : forall st rest,
  utf8Inv st -> Forall isByte pre -> ~ In 42 pre ->
  exists before,
    ~ In 42 before
    /\ utf8Decode st (pre ++ 42 :: rest) = before ++ 42 :: utf8Decode utf8Start rest.
Proof.
  induction pre as [|b pre IH]; intros st rest Hinv Hbytes Hno.
  - cbn [app utf8Decode]. destruct Hinv as (Hlo & Hup & _ & _).
    unfold utf8Step. destruct (needed st =? 0).
    + exists []. split; [intros []|reflexivity].
    + replace ((lower st <=? 42) && (42 <=? upper st)) with false
        by (symmetry; apply andb_false_iff; left; apply Z.leb_gt; lia).
      exists [0xFFFD]. split; [intros [H|[]]; discriminate|reflexivity].
  - inversion Hbytes as [|? ? Hb Hrest]; subst.
    assert (Hne : b <> 42) by (intros ->; apply Hno; left; reflexivity).
    assert (Hno' : ~ In 42 pre) by (intros H; apply Hno; right; exact H).
    destruct (utf8Step_inv st b Hinv Hb Hne) as [Hi Ho].
    cbn [app utf8Decode]. destruct (utf8Step st b) as [out st'].
    cbn [fst snd] in *.
    destruct (IH st' rest Hi Hrest Hno') as (before & Hb42 & E).
    exists (out ++ before). split.
    + intros H. apply in_app_or in H. destruct H as [H|H]; [|exact (Hb42 H)].
      rewrite Forall_forall in Ho. exact (Ho _ H eq_refl).
    + rewrite E, <- app_assoc. reflexivity.
Qed.

Lemma utf8Decode_ascii text : forall rest,
  Forall isReadable text ->
  utf8Decode utf8Start (text ++ rest) = text ++ utf8Decode utf8Start rest.
Proof.
  induction text as [|c r IH]; intros rest H; [reflexivity|].
  inversion H as [|? ? Hc Hr]; subst. cbn [app utf8Decode].
  unfold utf8Step. cbn [utf8Start needed]. cbn [Z.eqb]. unfold utf8Lead.
  replace (c <=? 0x7F) with true
    by (symmetry; apply Z.leb_le; unfold isReadable in Hc; lia).
  cbn [app]. fold utf8Start. rewrite IH by exact Hr. reflexivity.
Qed.

Lemma replaceNonPrintable_app a b :
  replaceNonPrintable (a ++ b) = replaceNonPrintable a ++ replaceNonPrintable b.
Proof. apply map_app. Qed.

Lemma replaceNonPrintable_id text :
  Forall isReadable text -> replaceNonPrintable text = text.
Proof.
  induction 1 as [|c r Hc _ IH]; [reflexivity|].
  unfold replaceNonPrintable in *. cbn [map]. rewrite IH. f_equal.
  unfold isReadable in Hc.
  destruct Hc as [Hc| ->]; [|reflexivity].
  replace (0x20 <=? c) with true by (symmetry; apply Z.leb_le; lia).
  replace (c <=? 0x7E) with true by (symmetry; apply Z.leb_le; lia).
  reflexivity.
Qed.

Lemma replaceNonPrintable_no_asterisk s :
  ~ In 42 s -> ~ In 42 (replaceNonPrintable s).
Proof.
  intros H Hin. unfold replaceNonPrintable in Hin. apply in_map_iff in Hin.
  destruct Hin as (c & E & Hc).
  destruct ((0x20 <=? c) && (c <=? 0x7E) || (c =? 10)); [|discriminate].
  subst c. exact (H Hc).
Qed.

Lemma replaceNonPrintable_stops tail :
  stopsCapture tail -> stopsCapture (replaceNonPrintable tail).
Proof.
  intros [->|(more & ->)]; [left; reflexivity|].
  right. exists (replaceNonPrintable more). reflexivity.
Qed.

Lemma trimStart_before x c y :
  isWhiteSpace c = false -> trimStart (x ++ c :: y) = trimStart x ++ c :: y.
Proof.
  intros E. induction x as [|a x IH].
  - cbn [app trimStart]. rewrite E. reflexivity.
  - cbn [app trimStart]. destruct (isWhiteSpace a); [exact IH|reflexivity].
Qed.

Lemma trimEnd_after a c b :
  isWhiteSpace c = false -> trimEnd (a ++ c :: b) = a ++ c :: trimEnd b.
Proof.
  intros E. unfold trimEnd. rewrite rev_app_distr. cbn [rev].
  rewrite <- app_assoc. cbn [app]. rewrite trimStart_before by exact E.
  rewrite rev_app_distr. cbn [rev]. rewrite rev_involutive, <- app_assoc.
  reflexivity.
Qed.

Lemma trimmed_parts text :
  trim text = text -> trimStart text = text /\ trimEnd text = text.
Proof.
  intros H. assert (Hs : trimStart text = text).
  { rewrite <- H at 1. unfold trim.
    destruct (trimStart_head text) as [E|(c & r & E & Hc)].
    - rewrite E. cbn. rewrite <- H. unfold trim. rewrite E. reflexivity.
    - rewrite E. destruct (trimEnd_head c r Hc) as (r' & Hr). rewrite Hr.
      rewrite trimStart_kept by exact Hc. rewrite <- Hr, <- E. exact H. }
  split; [exact Hs|]. unfold trim in H. rewrite Hs in H. exact H.
Qed.

Lemma trimEnd_stops tail :
  stopsCapture tail -> stopsCapture (trimEnd tail).
Proof.
  intros [->|(more & ->)]; [left; reflexivity|].
  right. exists (trimEnd more).
  apply (trimEnd_after [] 48 more). reflexivity.
Qed.

Lemma markerMatch_skip a s : ~ In 42 a -> markerMatch (a ++ s) = markerMatch s.
Proof.
  induction a as [|c a IH]; intros H; [reflexivity|].
  cbn [app markerMatch].
  replace (isAsterisk c) with false.
  - apply IH. intros Hin. apply H. right. exact Hin.
  - symmetry. apply Z.eqb_neq. intros ->. apply H. left. reflexivity.
Qed.

Lemma takeWhile_all p text tail :
  Forall (fun x => p x = true) text ->
  (tail = [] \/ exists c more, tail = c :: more /\ p c = false) ->
  takeWhile p (text ++ tail) = text.
Proof.
  intros H Ht. induction H as [|c r Hc _ IH].
  - destruct Ht as [->|(c & more & -> & E)]; [reflexivity|].
    cbn [app takeWhile]. rewrite E. reflexivity.
  - cbn [app takeWhile]. rewrite Hc, IH. reflexivity.
Qed.

Lemma markerAfterAsterisk_text text tail :
  text <> [] -> trimStart text = text -> ~ In 48 text -> stopsCapture tail ->
  exists m, markerAfterAsterisk (text ++ tail) = Some (m, text).
Proof.
  intros Hne Hs H0 Ht. destruct text as [|c r]; [contradiction|].
  assert (Hc : isWhiteSpace c = false).
  { cbn [trimStart] in Hs. destruct (isWhiteSpace c) eqn:E; [|reflexivity].
    exfalso. pose proof (trimStart_length r) as L. rewrite Hs in L.
    simpl in L. lia. }
  unfold markerAfterAsterisk. cbn [app takeWhile dropWhile]. rewrite Hc.
  change (c :: r ++ tail) with ((c :: r) ++ tail).
  rewrite takeWhile_all.
  - eexists. reflexivity.
  - apply Forall_forall. intros x Hx. unfold notZeroDigit.
    apply negb_true_iff. apply Z.eqb_neq. intros ->. exact (H0 Hx).
  - destruct Ht as [->|(more & ->)]; [left; reflexivity|].
    right. exists 48, more. split; reflexivity.
Qed.

Lemma readable_marker before text tail :
  ~ In 42 before -> text <> [] -> trim text = text -> ~ In 48 text ->
  stopsCapture tail ->
  exists whole,
    markerMatch (trim (before ++ 42 :: text ++ tail)) = Some [Some whole; Some text].
Proof.
  intros Hb Hne Ht H0 Hs. destruct (trimmed_parts text Ht) as [Hts Hte].
  assert (Htrim : exists tail', stopsCapture tail'
            /\ trim (before ++ 42 :: text ++ tail)
               = trimStart before ++ 42 :: text ++ tail').
  { unfold trim. rewrite trimStart_before by reflexivity.
    destruct Hs as [->|(more & ->)].
    - exists []. split; [left; reflexivity|]. rewrite !app_nil_r.
      rewrite trimEnd_after by reflexivity. rewrite Hte. reflexivity.
    - exists (48 :: trimEnd more). split; [right; eexists; reflexivity|].
      change (trimStart before ++ 42 :: text ++ 48 :: more)
        with (trimStart before ++ (42 :: text) ++ 48 :: more).
      rewrite app_assoc. rewrite trimEnd_after by reflexivity.
      rewrite <- app_assoc. reflexivity. }
  destruct Htrim as (tail' & Hs' & ->).
  rewrite markerMatch_skip
    by (intros H; apply Hb; apply trimStart_In; exact H).
  cbn [markerMatch isAsterisk]. change (42 =? 42) with true. cbv iota.
  destruct (markerAfterAsterisk_text text tail' Hne Hts H0 Hs') as (m & ->).
  eexists. reflexivity.
Qed.

Lemma extract_after_marker pre text tail :
  Forall isByte pre -> ~ In 42 pre ->
  Forall isReadable text -> text <> [] -> trim text = text -> ~ In 48 text ->
  stopsCapture tail ->
  extractTextFromChunk (pre ++ 42 :: text ++ tail) = Returned text.
Proof.
  intros Hp Hno Hr Hne Ht H0 Hs.
  destruct (utf8Decode_to_asterisk pre utf8Start (text ++ tail)
              utf8Start_inv Hp Hno) as (before & Hb & E).
  assert (Hstop : stopsCapture (utf8Decode utf8Start tail)).
  { destruct Hs as [->|(more & ->)]; [left; reflexivity|].
    right. exists (utf8Decode utf8Start more). reflexivity. }
  unfold extractTextFromChunk, readableOf, toStringUtf8. cbv zeta.
  rewrite E, utf8Decode_ascii by exact Hr.
  rewrite replaceNonPrintable_app.
  change (replaceNonPrintable (42 :: text ++ utf8Decode utf8Start tail))
    with (42 :: replaceNonPrintable (text ++ utf8Decode utf8Start tail)).
  rewrite replaceNonPrintable_app.
  rewrite (replaceNonPrintable_id text) by exact Hr.
  destruct (readable_marker (replaceNonPrintable before) text
              (replaceNonPrintable (utf8Decode utf8Start tail))
              (replaceNonPrintable_no_asterisk _ Hb) Hne Ht H0
              (replaceNonPrintable_stops _ Hstop)) as (whole & ->).
  unfold trimCapture. cbn [nth]. rewrite Ht. reflexivity.
Qed.

End MarkerFacts.

(** X15: the marker path, end to end.  Let a chunk hold any bytes without
    an asterisk, then an asterisk, then a text of printable characters
    that has no [0], is not empty and has no white space at its ends.  If
    the chunk ends there, the extractor returns the text; if a [0] and
    any bytes follow, it returns the text as well: what comes from the
    first [0] on is dropped. *)
Theorem extractTextFromChunk_marker (pre text more : list Z) :
  Forall isByte pre -> ~ In 42 pre ->
  Forall isReadable text -> text <> [] -> trim text = text -> ~ In 48 text ->
  extractTextFromChunk (pre ++ 42 :: text) = Returned text
  /\ extractTextFromChunk (pre ++ 42 :: text ++ 48 :: more) = Returned text.
Proof.
  intros Hp Hno Hr Hne Ht H0. split.
  - rewrite <- (app_nil_r text) at 1.
    apply extract_after_marker; try assumption. left. reflexivity.
  - apply extract_after_marker; try assumption. right. exists more. reflexivity.
Qed.

Lemma extractTextFromChunk_marker_witness :
  extractTextFromChunk ([0; 0; 0; 0; 18; 10; 16] ++ 42 :: lit "The answer is 1")
    = Returned (lit "The answer is 1")
  /\ extractTextFromChunk ([0; 0; 0; 0; 18; 10; 16] ++ 42 :: lit "The answer is 1"
                           ++ 48 :: lit "0 percent")
    = Returned (lit "The answer is 1").
Proof.
  apply (extractTextFromChunk_marker [0; 0; 0; 0; 18; 10; 16]
           (lit "The answer is 1") (lit "0 percent")).
  - repeat (apply Forall_cons; [unfold isByte; lia|]). apply Forall_nil.
  - cbn [In]. lia.
  - let l := eval vm_compute in (lit "The answer is 1") in
    change (Forall isReadable l).
    repeat (apply Forall_cons; [unfold isReadable; lia|]). apply Forall_nil.
  - discriminate.
  - vm_compute. reflexivity.
  - let l := eval vm_compute in (lit "The answer is 1") in
    change (~ In 48 l).
    cbn [In]. lia.
Defined.

(** ** A stream from its first chunk to its end *)

Section StreamRuns.

Lemma keep_app {A B} (f : A -> option B) xs ys :
  keep f (xs ++ ys) = keep f xs ++ keep f ys.
Proof.
  induction xs as [|x xs IH]; [reflexivity|].
  cbn [app keep]. destruct (f x); [cbn [app]; rewrite IH|]; auto.
Qed.

Lemma keptText_nonempty chunk text : keptText chunk = Some text -> text <> [].
Proof.
  unfold keptText. destruct (extractTextFromChunk chunk) as [[|c t]|]; try discriminate.
  intros H. injection H as <-. discriminate.
Qed.

Lemma kept_texts_nonempty ds : Forall (fun t => t <> []) (keep keptText ds).
Proof.
  induction ds as [|d ds IH]; [constructor|].
  cbn [keep]. destruct (keptText d) eqn:E; [|exact IH].
  constructor; [exact (keptText_nonempty _ _ E)|exact IH].
Qed.

Lemma streamChat_data ds : forall acc s,
  fold_left streamChatStep (map Data ds) (mkCall true acc s)
  = mkCall true (acc ++ keep keptText ds) s.
Proof.
  induction ds as [|d ds IH]; intros acc s.
  - cbn. rewrite app_nil_r. reflexivity.
  - cbn [map fold_left keep]. unfold streamChatStep at 2.
    cbn [connected chunks settled]. destruct (keptText d) as [text|].
    + rewrite IH, <- app_assoc. reflexivity.
    + apply IH.
Qed.

Lemma generator_data ds : forall d e y,
  fold_left generatorStep (map Data ds) (mkGenerator [] d e y)
  = mkGenerator [] d e (y ++ keep keptText ds).
Proof.
  induction ds as [|c ds IH]; intros d e y.
  - cbn. rewrite app_nil_r. reflexivity.
  - cbn [map fold_left keep]. unfold generatorStep at 2, drain, handlerStep.
    destruct (keptText c) as [text|]; cbn [chunkQueue done error yielded app].
    + rewrite IH, <- app_assoc. reflexivity.
    + rewrite app_nil_r. apply IH.
Qed.

Lemma streamChatStep_settled c e s :
  settled c = Some s -> settled (streamChatStep c e) = Some s.
Proof.
  intros H. unfold streamChatStep, settle.
  destruct e as [m| |chunk|grpcStatus grpcMessage| |m|];
    try (rewrite H; exact H); try exact H;
    destruct (connected c); try (rewrite H; exact H); try exact H.
  - destruct (keptText chunk); exact H.
  - destruct (statusIsZero grpcStatus); [exact H|].
    destruct (grpcError grpcStatus grpcMessage); [rewrite H|]; exact H.
Qed.

Lemma uriStep_plain st c :
  phase st = Plain -> needed (octets st) = 0 -> c <> 37 ->
  uriStep st c = Some ([c], st).
Proof.
  intros Hp Hn Hc. unfold uriStep. rewrite Hp, Hn.
  rewrite (proj2 (Z.eqb_neq c 37)) by exact Hc. reflexivity.
Qed.

(** A text without [%] is decoded as itself. *)
Lemma decodeURIComponent_plain text :
  ~ In 37 text -> decodeURIComponent text = Some text.
Proof.
  unfold decodeURIComponent. induction text as [|c r IH]; intros H; [reflexivity|].
  cbn [decodeFrom]. rewrite uriStep_plain; try reflexivity.
  - rewrite IH by (intros Hin; apply H; right; exact Hin). reflexivity.
  - intros ->. apply H. left. reflexivity.
Qed.

Lemma grpcError_code grpcStatus grpcMessage err :
  grpcError grpcStatus grpcMessage = Returned err -> code err = STREAM_ERROR.
Proof.
  unfold grpcError. destruct (errorText grpcMessage); [|discriminate].
  intros H. injection H as <-. reflexivity.
Qed.

Lemma streamChat_settled events : forall c s,
  settled c = Some s -> settled (fold_left streamChatStep events c) = Some s.
Proof.
  induction events as [|e events IH]; intros c s H; [exact H|].
  cbn [fold_left]. apply IH. apply streamChatStep_settled. exact H.
Qed.

End StreamRuns.

(** X16: the promise of [streamChat] settles once.  Whatever events follow
    the first resolve or reject (an end after an error status, the timer
    after the end, a late error), the outcome stays what it was. *)
Theorem streamChat_settles_once (events more : list Event) (s : Settlement) :
  settled (streamChat events) = Some s ->
  settled (streamChat (events ++ more)) = Some s.
Proof.
  intros H. unfold streamChat. rewrite fold_left_app.
  apply streamChat_settled. exact H.
Qed.

Lemma streamChat_settles_once_witness :
  settled (streamChat ([Connect; Trailers (Some (lit "13")) None] ++ [End; TimerElapsed]))
  = Some (Rejected (mkError STREAM_ERROR (lit "Unknown error"))).
Proof.
  apply (streamChat_settles_once [Connect; Trailers (Some (lit "13")) None]
           [End; TimerElapsed]).
  reflexivity.
Defined.

(** X17: a stream that completes.  For any data chunks followed by
    trailers with [grpc-status] ['0'] and the end of the stream,
    [streamChat] resolves with the kept texts joined, and
    [streamChatGenerator] yields the same texts one by one, in order, and
    returns; no text handed on is empty. *)
Theorem stream_completes (ds : list (list Z)) (grpcMessage : option JsString) :
  let events := Connect :: map Data ds ++ [Trailers (Some (lit "0")) grpcMessage; End] in
  let texts := keep keptText ds in
  settled (streamChat events) = Some (Resolved (join texts))
  /\ yielded (streamChatGenerator events) = texts
  /\ standing (streamChatGenerator events) = Finished
  /\ Forall (fun t => t <> []) texts.
Proof.
  cbv zeta. unfold streamChat, streamChatGenerator.
  cbn [fold_left]. rewrite !fold_left_app.
  change (streamChatStep newCall Connect) with (mkCall true [] None).
  change (generatorStep newGenerator Connect) with (mkGenerator [] false None []).
  rewrite streamChat_data, generator_data. cbn [app fold_left].
  unfold streamChatStep, generatorStep, handlerStep, drain, settle, standing.
  change (statusIsZero (Some (lit "0"))) with true.
  cbn [connected settled chunks chunkQueue done error yielded].
  rewrite !app_nil_r.
  split; [reflexivity|]. split; [reflexivity|]. split; [reflexivity|].
  apply kept_texts_nonempty.
Qed.

(** X18: a stream that fails.  When the trailers carry a [grpc-status]
    other than ['0'], or none at all, and the [grpc-message], if there is
    one, is well-formed percent-encoding, [streamChat] rejects with a
    [STREAM_ERROR] that carries the decoded message (a message without
    [%] as it is, [Unknown error] when there is none), and the end of the
    stream does not turn that into a result; [streamChatGenerator] still
    yields every text received and throws the error after the last of
    them. *)
Theorem stream_fails (ds : list (list Z)) (grpcStatus grpcMessage : option JsString)
    (err : WindsurfError) :
  statusIsZero grpcStatus = false ->
  grpcError grpcStatus grpcMessage = Returned err ->
  let events := Connect :: map Data ds ++ [Trailers grpcStatus grpcMessage; End] in
  settled (streamChat events) = Some (Rejected err)
  /\ code err = STREAM_ERROR
  /\ (grpcMessage = None -> detail err = lit "Unknown error")
  /\ (forall c m, grpcMessage = Some (c :: m) -> ~ In 37 (c :: m) ->
       detail err = c :: m)
  /\ yielded (streamChatGenerator events) = keep keptText ds
  /\ standing (streamChatGenerator events) = Failed err.
Proof.
  intros Hs He. cbv zeta. unfold streamChat, streamChatGenerator.
  cbn [fold_left]. rewrite !fold_left_app.
  change (streamChatStep newCall Connect) with (mkCall true [] None).
  change (generatorStep newGenerator Connect) with (mkGenerator [] false None []).
  rewrite streamChat_data, generator_data. cbn [app fold_left].
  unfold streamChatStep, generatorStep, handlerStep, drain, settle, standing.
  cbn [connected settled chunks]. rewrite Hs, He.
  cbn [connected settled chunks chunkQueue done error yielded].
  rewrite !app_nil_r.
  split; [reflexivity|]. split; [exact (grpcError_code _ _ _ He)|].
  split; [|split; [|split; reflexivity]].
  - intros ->. cbn in He. injection He as <-. reflexivity.
  - intros c m -> Hplain. unfold grpcError, errorText in He.
    rewrite decodeURIComponent_plain in He by exact Hplain.
    injection He as <-. reflexivity.
Qed.

Lemma stream_fails_witness :
  let events := Connect :: map Data [utf8Encode (lit "Hello")]
                ++ [Trailers (Some (lit "13")) (Some (lit "bad%20request")); End] in
  let err := mkError STREAM_ERROR (lit "bad request") in
  settled (streamChat events) = Some (Rejected err)
  /\ code err = STREAM_ERROR
  /\ (Some (lit "bad%20request") = None -> detail err = lit "Unknown error")
  /\ (forall c m, Some (lit "bad%20request") = Some (c :: m) ->
       ~ In 37 (c :: m) -> detail err = c :: m)
  /\ yielded (streamChatGenerator events) = keep keptText [utf8Encode (lit "Hello")]
  /\ standing (streamChatGenerator events) = Failed err.
Proof.
  apply (stream_fails [utf8Encode (lit "Hello")] (Some (lit "13"))
           (Some (lit "bad%20request")) (mkError STREAM_ERROR (lit "bad request")));
    vm_compute; reflexivity.
Defined.

(** ** Normalized arguments *)

Section ArgumentFacts.

Lemma settled_nullFree_all :
  forall n v, (weight v <= n)%nat -> settledValue v = true -> nullFree v = true.
Proof.
  induction n as [|n IH]; intros v Hw Hs.
  { destruct v; simpl in Hw; lia. }
  destruct v as [|b|l|s|items|members]; try reflexivity; try discriminate.
  - cbn [settledValue nullFree] in *. rewrite forallb_forall in *.
    intros x Hx. apply IH; [|apply Hs; exact Hx].
    apply weight_in in Hx. rewrite weight_array in Hw. lia.
  - cbn [settledValue nullFree] in *. rewrite forallb_forall in *.
    intros m Hm. apply IH; [|apply Hs; exact Hm].
    apply memberWeight_in in Hm. rewrite weight_object in Hw. lia.
Qed.

Lemma settled_nullFree v : settledValue v = true -> nullFree v = true.
Proof. apply (settled_nullFree_all (weight v)). lia. Qed.

Lemma normalize_settled fuel : forall v,
  (weight v <= fuel)%nat -> settledValue (normalize fuel v) = true.
Proof.
  induction fuel as [|fuel IH]; intros v Hw.
  { destruct v; simpl in Hw; lia. }
  destruct v as [|b|l|s|items|members]; cbn [normalize]; try reflexivity.
  - destruct (enclosedBy 123 125 (trim s) || enclosedBy 91 93 (trim s)) eqn:L.
    + destruct (JSON_parse (trim s)) as [parsed|] eqn:P.
      * apply IH. apply JSON_parse_weight in P. pose proof (trim_length s).
        simpl in Hw. lia.
      * cbn [settledValue]. unfold holdsJson. cbv zeta. rewrite L, P. reflexivity.
    + cbn [settledValue]. unfold holdsJson. cbv zeta. rewrite L. reflexivity.
  - cbn [settledValue]. rewrite forallb_forall. intros x Hx.
    apply in_map_iff in Hx. destruct Hx as (y & <- & Hy).
    apply IH. apply weight_in in Hy. rewrite weight_array in Hw. lia.
  - cbn [settledValue]. rewrite forallb_forall. intros x Hx.
    apply in_map_iff in Hx. destruct Hx as (y & <- & Hy). cbn [snd].
    apply IH. apply memberWeight_in in Hy. rewrite weight_object in Hw. lia.
Qed.

Lemma normalize_fixed fuel : forall v,
  (weight v <= fuel)%nat -> settledValue v = true -> normalize fuel v = v.
Proof.
  induction fuel as [|fuel IH]; intros v Hw Hs.
  { destruct v; simpl in Hw; lia. }
  destruct v as [|b|l|s|items|members]; cbn [normalize]; try reflexivity;
    try discriminate.
  - cbn [settledValue] in Hs. unfold holdsJson in Hs. cbv zeta in Hs.
    destruct (enclosedBy 123 125 (trim s) || enclosedBy 91 93 (trim s));
      [|reflexivity].
    destruct (JSON_parse (trim s)); [discriminate|reflexivity].
  - cbn [settledValue] in Hs. rewrite forallb_forall in Hs. f_equal.
    rewrite <- (map_id items) at 2. apply map_ext_in. intros x Hx.
    apply IH; [|apply Hs; exact Hx].
    apply weight_in in Hx. rewrite weight_array in Hw. lia.
  - cbn [settledValue] in Hs. rewrite forallb_forall in Hs. f_equal.
    rewrite <- (map_id members) at 2. apply map_ext_in. intros [k x] Hx.
    cbn [fst snd]. f_equal.
    apply IH; [|apply (Hs _ Hx)].
    apply memberWeight_in in Hx. cbn [snd] in Hx. rewrite weight_object in Hw. lia.
Qed.

Lemma normalizeToolArguments_settled raw :
  settledValue (normalizeToolArguments raw) = true.
Proof.
  destruct raw as [v|]; [|reflexivity].
  apply normalize_settled. lia.
Qed.

Lemma keep_Forall {A B} (f : A -> option B) (P : B -> Prop) xs :
  (forall x y, f x = Some y -> P y) -> Forall P (keep f xs).
Proof.
  intros H. induction xs as [|x xs IH]; [constructor|].
  cbn [keep]. destruct (f x) eqn:E; [constructor; [exact (H _ _ E)|exact IH]|exact IH].
Qed.

Lemma toolCallOf_settled t tc :
  toolCallOf t = Some tc -> settledValue (arguments tc) = true.
Proof.
  unfold toolCallOf. destruct (truthy t); [|discriminate].
  destruct (getProp t (lit "name")) as [[| | |n| |]|]; try discriminate.
  intros H. injection H as <-. cbn [arguments].
  apply normalizeToolArguments_settled.
Qed.

Lemma toolCallOfMatch_settled m tc :
  toolCallOfMatch m = Some tc -> settledValue (arguments tc) = true.
Proof.
  unfold toolCallOfMatch. destruct (JSON_parse (snd m)) as [args|]; [|discriminate].
  intros H. injection H as <-. cbn [arguments].
  apply (normalizeToolArguments_settled (Some args)).
Qed.

Lemma plan_calls_settled output calls :
  parseToolCallPlan output = Some (ToolCalls calls) ->
  Forall (fun tc => settledValue (arguments tc) = true) calls.
Proof.
  unfold parseToolCallPlan. destruct (jsonTextOf output); [|discriminate].
  destruct (JSON_parse j) as [parsed|].
  - unfold planOfParsed. cbv zeta.
    set (final := if truthy parsed
                     && isString (getProp parsed (lit "action")) (lit "final")
                  then getProp parsed (lit "content") else None).
    set (called := if truthy parsed
                      && isString (getProp parsed (lit "action")) (lit "tool_call")
                   then getProp parsed (lit "tool_calls") else None).
    assert (Hcalled : match called with
                      | Some (JArray items) => Some (ToolCalls (keep toolCallOf items))
                      | _ => None
                      end = Some (ToolCalls calls) ->
                      Forall (fun tc => settledValue (arguments tc) = true) calls).
    { destruct called as [v|]; [|discriminate].
      destruct v; try discriminate.
      intros H; injection H as <-; apply keep_Forall; exact toolCallOf_settled. }
    destruct final as [v|]; [|exact Hcalled].
    destruct v; try exact Hcalled. discriminate.
  - unfold planOfTags. destruct (taggedMatches 0 output); [discriminate|].
    destruct (keep toolCallOfMatch (p :: l)) eqn:K; [discriminate|].
    intros H. injection H as <-. rewrite <- K.
    apply keep_Forall. exact toolCallOfMatch_settled.
Qed.

End ArgumentFacts.

(** X19: no tool call of a plan carries a [null].  Whatever the model
    wrote, in the arguments of every call that [parseToolCallPlan] returns
    each [null], at any depth, has become [{}]; the arguments themselves
    are never [null], so the [?? {}] of [buildToolCallPayload] has nothing
    to replace. *)
Theorem plan_arguments_without_null (output : JsString) (calls : list ToolCall) :
  parseToolCallPlan output = Some (ToolCalls calls) ->
  Forall (fun tc => nullFree (arguments tc) = true /\ arguments tc <> JNull) calls.
Proof.
  intros H. apply plan_calls_settled in H.
  rewrite Forall_forall in *. intros tc Hin. specialize (H tc Hin).
  split; [apply settled_nullFree; exact H|].
  intros E. rewrite E in H. discriminate.
Qed.

Lemma plan_arguments_without_null_witness :
  Forall (fun tc => nullFree (arguments tc) = true /\ arguments tc <> JNull)
    [mkToolCall (lit "read") (JObject [(lit "path", JObject [])])].
Proof.
  apply (plan_arguments_without_null
           (quoted "{'action':'tool_call','tool_calls':[{'name':'read','arguments':{'path':null}}]}")).
  vm_compute. reflexivity.
Defined.

(** X20: [normalizeToolArguments] finishes its work in one pass.  Its
    result holds no [null] and no string that holds JSON, and applying it
    to its own result changes nothing. *)
Theorem normalizeToolArguments_idempotent (raw : option JsValue) :
  settledValue (normalizeToolArguments raw) = true
  /\ normalizeToolArguments (Some (normalizeToolArguments raw))
     = normalizeToolArguments raw.
Proof.
  split; [apply normalizeToolArguments_settled|].
  cbn [normalizeToolArguments]. apply normalize_fixed; [lia|].
  apply normalizeToolArguments_settled.
Qed.

(** ** Plans inside a text *)

Section PlanTextFacts.

Lemma indexOf_none c s : ~ In c s -> indexOf c s = None.
Proof.
  induction s as [|d r IH]; intros H; [reflexivity|].
  cbn [indexOf]. destruct (Z.eqb_spec d c) as [->|_].
  - exfalso. apply H. left. reflexivity.
  - rewrite IH; [reflexivity|]. intros Hin. apply H. right. exact Hin.
Qed.

Lemma lastIndexOf_none c s : ~ In c s -> lastIndexOf c s = None.
Proof.
  induction s as [|d r IH]; intros H; [reflexivity|].
  cbn [lastIndexOf]. rewrite IH by (intros Hin; apply H; right; exact Hin).
  destruct (Z.eqb_spec d c) as [->|_]; [|reflexivity].
  exfalso. apply H. left. reflexivity.
Qed.

Lemma indexOf_first c pre r :
  ~ In c pre -> indexOf c (pre ++ c :: r) = Some (length pre).
Proof.
  induction pre as [|d pre IH]; intros H.
  - cbn [app indexOf]. rewrite Z.eqb_refl. reflexivity.
  - cbn [app indexOf length]. destruct (Z.eqb_spec d c) as [->|_].
    + exfalso. apply H. left. reflexivity.
    + rewrite IH; [reflexivity|]. intros Hin. apply H. right. exact Hin.
Qed.

Lemma lastIndexOf_last c a post :
  ~ In c post -> lastIndexOf c (a ++ c :: post) = Some (length a).
Proof.
  intros H. induction a as [|d a IH].
  - cbn [app lastIndexOf]. rewrite lastIndexOf_none by exact H.
    rewrite Z.eqb_refl. reflexivity.
  - cbn [app lastIndexOf length]. rewrite IH. reflexivity.
Qed.

(** The text handed to [JSON.parse] when an object is embedded in a text
    whose other parts have no brace on the side that matters. *)
Lemma jsonTextOf_embedded prefix inner suffix :
  ~ In 123 prefix -> ~ In 125 suffix ->
  jsonTextOf (prefix ++ (123 :: inner ++ [125]) ++ suffix)
  = Some (123 :: inner ++ [125]).
Proof.
  intros Hp Hs. unfold jsonTextOf.
  rewrite <- app_comm_cons. rewrite indexOf_first by exact Hp.
  set (object := 123 :: inner ++ [125]).
  set (upTo := prefix ++ 123 :: inner).
  assert (Hsplit : prefix ++ 123 :: (inner ++ [125]) ++ suffix
                   = upTo ++ 125 :: suffix)
    by (unfold upTo; rewrite <- !app_assoc; reflexivity).
  assert (Hlen : length upTo = (length prefix + S (length inner))%nat)
    by (unfold upTo; rewrite length_app; reflexivity).
  rewrite Hsplit. rewrite lastIndexOf_last by exact Hs.
  replace (Nat.leb (length upTo) (length prefix)) with false
    by (symmetry; apply Nat.leb_gt; lia).
  unfold slice. f_equal. rewrite <- Hsplit.
  rewrite skipn_app, skipn_all, Nat.sub_diag. cbn [app skipn].
  change (123 :: (inner ++ [125]) ++ suffix) with (object ++ suffix).
  assert (Hobj : length object = S (S (length inner)))
    by (unfold object; cbn [length]; rewrite length_app; cbn [length]; lia).
  replace (S (length upTo) - length prefix)%nat with (length object)
    by (rewrite Hobj, Hlen; lia).
  rewrite firstn_app, Nat.sub_diag, firstn_all. cbn [firstn].
  apply app_nil_r.
Qed.

Lemma parseChars_plain content : forall acc rest,
  Forall isPlainChar content ->
  parseChars (content ++ 34 :: rest) acc = Done (rev acc ++ content) rest.
Proof.
  induction content as [|c r IH]; intros acc rest H.
  - cbn [app parseChars]. rewrite Z.eqb_refl, app_nil_r. reflexivity.
  - inversion H as [|? ? (H32 & H34 & H92) Hr]; subst.
    cbn [app parseChars].
    rewrite (proj2 (Z.eqb_neq c 34)) by exact H34.
    rewrite (proj2 (Z.eqb_neq c 92)) by exact H92.
    replace (c <? 32) with false by (symmetry; apply Z.ltb_ge; lia).
    rewrite IH by exact Hr. cbn [rev]. rewrite <- app_assoc. reflexivity.
Qed.

Lemma JSON_parse_finalPlanText content :
  Forall isPlainChar content ->
  JSON_parse (finalPlanText content)
  = Some (JObject [(lit "action", JString (lit "final"));
                   (lit "content", JString content)]).
Proof.
  intros H. unfold JSON_parse, parseFuel.
  assert (Hlen : exists k, length (finalPlanText content) = S (S k)).
  { unfold finalPlanText. rewrite length_app. cbn [length quoted lit map
      list_ascii_of_string]. eexists. reflexivity. }
  destruct Hlen as (k & ->).
  replace (S (2 * S (S k)))%nat with (S (S (S (S (S (2 * k))))))%nat by lia.
  unfold finalPlanText.
  change (quoted "{'action':'final','content':'")
    with ([123; 34] ++ lit "action" ++ [34; 58; 34] ++ lit "final"
          ++ [34; 44; 34] ++ lit "content" ++ [34; 58; 34]).
  change (quoted "'}") with [34; 125].
  rewrite <- !app_assoc. cbn [app].
  cbn [parseValue skipSpace dropWhile isJsonSpace Z.eqb Pos.eqb orb].
  cbn [parseMembers skipSpace dropWhile isJsonSpace Z.eqb Pos.eqb orb].
  change (34 :: 58 :: 34 :: lit "final" ++ 34 :: 44 :: 34 :: lit "content"
          ++ 34 :: 58 :: 34 :: content ++ [34; 125])
    with (34 :: [58; 34] ++ lit "final" ++ 34 :: 44 :: 34 :: lit "content"
          ++ 34 :: 58 :: 34 :: content ++ [34; 125]).
  vm_compute (lit "action"). cbn [app parseChars Z.eqb Pos.eqb Z.ltb Z.compare Pos.compare Pos.compare_cont rev].
  cbn [skipSpace dropWhile isJsonSpace Z.eqb Pos.eqb orb].
  cbn [parseValue skipSpace dropWhile isJsonSpace Z.eqb Pos.eqb orb].
  vm_compute (lit "final"). cbn [app parseChars Z.eqb Pos.eqb Z.ltb Z.compare Pos.compare Pos.compare_cont rev].
  cbn [skipSpace dropWhile isJsonSpace Z.eqb Pos.eqb orb].
  cbn [parseMembers skipSpace dropWhile isJsonSpace Z.eqb Pos.eqb orb].
  vm_compute (lit "content"). cbn [app parseChars Z.eqb Pos.eqb Z.ltb Z.compare Pos.compare Pos.compare_cont rev].
  cbn [skipSpace dropWhile isJsonSpace Z.eqb Pos.eqb orb].
  cbn [parseValue skipSpace dropWhile isJsonSpace Z.eqb Pos.eqb orb].
  change (content ++ [34; 125]) with (content ++ 34 :: [125]).
  rewrite parseChars_plain by exact H.
  cbn [rev app skipSpace dropWhile isJsonSpace Z.eqb Pos.eqb orb].
  reflexivity.
Qed.

Lemma finalPlanText_shape content :
  exists inner, finalPlanText content = 123 :: inner ++ [125].
Proof.
  exists (quoted "'action':'final','content':'" ++ content ++ [34]).
  unfold finalPlanText.
  change (quoted "{'action':'final','content':'")
    with (123 :: quoted "'action':'final','content':'").
  change (quoted "'}") with ([34] ++ [125]).
  cbn [app]. rewrite <- !app_assoc. reflexivity.
Qed.

Lemma parseToolCallPlan_embedded prefix inner suffix :
  ~ In 123 prefix -> ~ In 125 suffix ->
  parseToolCallPlan (prefix ++ (123 :: inner ++ [125]) ++ suffix)
  = match JSON_parse (123 :: inner ++ [125]) with
    | Some parsed => planOfParsed parsed
    | None => planOfTags (prefix ++ (123 :: inner ++ [125]) ++ suffix)
    end.
Proof.
  intros Hp Hs. unfold parseToolCallPlan.
  rewrite jsonTextOf_embedded by assumption. reflexivity.
Qed.

Lemma jsonTextOf_no_brace output :
  ~ In 123 output \/ ~ In 125 output -> jsonTextOf output = None.
Proof.
  intros [H|H]; unfold jsonTextOf.
  - rewrite indexOf_none by exact H. reflexivity.
  - rewrite lastIndexOf_none by exact H. destruct (indexOf 123 output); reflexivity.
Qed.

Lemma mapCalls_spec calls : forall i w,
  let entries := fst (mapCalls i calls w) in
  let w' := snd (mapCalls i calls w) in
  map entryName entries = map name calls
  /\ map entryArguments entries = map arguments calls
  /\ map entryIndex entries = seq i (length calls)
  /\ map entryStamp entries = map (clock w) (seq (clockReads w) (length calls))
  /\ clock w' = clock w
  /\ clockReads w' = (clockReads w + length calls)%nat.
Proof.
  induction calls as [|tc calls IH]; intros i w.
  - cbn. repeat split; try reflexivity. lia.
  - cbn [mapCalls]. unfold bind, Date_now, ret.
    set (w1 := mkWorld (clock w) (S (clockReads w)) (uuids w) (uuidReads w)).
    specialize (IH (S i) w1). cbv zeta in IH.
    destruct (mapCalls (S i) calls w1) as [mapped w2].
    cbn [fst snd] in *. destruct IH as (Hn & Ha & Hi & Hs & Hc & Hr).
    cbn [map length seq entryName entryArguments entryIndex entryStamp].
    rewrite Hn, Ha, Hi, Hs. cbn [clock clockReads w1] in *.
    repeat split; try reflexivity; try assumption. lia.
Qed.

Lemma planOfTags_not_empty output : planOfTags output <> Some (ToolCalls []).
Proof.
  unfold planOfTags. destruct (taggedMatches 0 output); [discriminate|].
  destruct (keep toolCallOfMatch (p :: l)); discriminate.
Qed.

End PlanTextFacts.

(** X21: a final answer is found inside any surrounding text.  For a
    content of plain characters (no quote, no backslash, no control
    character; braces and tags are allowed), text before it without an
    opening brace and text after it without a closing brace,
    [parseToolCallPlan] returns the final plan with exactly that
    content. *)
Theorem parseToolCallPlan_final (prefix content suffix : JsString) :
  ~ In 123 prefix -> ~ In 125 suffix -> Forall isPlainChar content ->
  parseToolCallPlan (prefix ++ finalPlanText content ++ suffix)
  = Some (Final content).
Proof.
  intros Hp Hs Hc. destruct (finalPlanText_shape content) as (inner & E).
  pose proof (JSON_parse_finalPlanText content Hc) as P. rewrite E in *.
  rewrite parseToolCallPlan_embedded by assumption. rewrite P. reflexivity.
Qed.

Lemma parseToolCallPlan_final_witness :
  parseToolCallPlan (lit "Plan: " ++ finalPlanText (lit "use {x} <tool_call>")
                     ++ lit " ok")
  = Some (Final (lit "use {x} <tool_call>")).
Proof.
  apply (parseToolCallPlan_final (lit "Plan: ") (lit "use {x} <tool_call>")
           (lit " ok")).
  - let l := eval vm_compute in (lit "Plan: ") in change (~ In 123 l).
    cbn [In]. lia.
  - let l := eval vm_compute in (lit " ok") in change (~ In 125 l).
    cbn [In]. lia.
  - let l := eval vm_compute in (lit "use {x} <tool_call>") in
    change (Forall isPlainChar l).
    repeat (apply Forall_cons; [unfold isPlainChar; lia|]). apply Forall_nil.
Defined.

(** X22: a text without an opening brace, or without a closing one, is
    never a plan, not even when it holds a [<tool_call>] tag: the tagged
    syntax is tried only after [JSON.parse] has thrown.  The handler then
    answers with that text, unchanged, as the content of a [stop]
    completion; [id] and [created] come from two readings of the clock. *)
Theorem handleToolPlanning_plain_text (requestModel : option JsString)
    (output : JsString) (w : World) :
  ~ In 123 output \/ ~ In 125 output ->
  parseToolCallPlan output = None
  /\ fst (handleToolPlanning requestModel (Returned output) w)
     = Returned (mkResponse 200 (lit "application/json")
         (mkCompletion (clock w (clockReads w))
            (clock w (S (clockReads w)) / 1000)
            (modelOf requestModel) output None finish_stop)).
Proof.
  intros H. assert (Hnone : parseToolCallPlan output = None)
    by (unfold parseToolCallPlan; rewrite jsonTextOf_no_brace by exact H; reflexivity).
  split; [exact Hnone|].
  unfold handleToolPlanning. cbv zeta. rewrite Hnone. reflexivity.
Qed.

Lemma handleToolPlanning_plain_text_witness :
  parseToolCallPlan (lit "<tool_call>read {") = None
  /\ fst (handleToolPlanning None (Returned (lit "<tool_call>read {")) sampleWorld)
     = Returned (mkResponse 200 (lit "application/json")
         (mkCompletion (clock sampleWorld (clockReads sampleWorld))
            (clock sampleWorld (S (clockReads sampleWorld)) / 1000)
            (modelOf None) (lit "<tool_call>read {") None finish_stop)).
Proof.
  apply (handleToolPlanning_plain_text None (lit "<tool_call>read {") sampleWorld).
  right. let l := eval vm_compute in (lit "<tool_call>read {") in
  change (~ In 125 l). cbn [In]. lia.
Defined.

(** X23: the answer to a tool-call plan.  When the plan parsed from the
    collected text is a list of calls, the handler answers 200 with empty
    content and finish reason [tool_calls]; the entries of [tool_calls]
    are the calls of the plan in their order, with their names and
    normalized arguments, call number [i] carrying the index [i] in its
    id, and each id is stamped by a clock reading of its own. *)
Theorem handleToolPlanning_tool_calls (requestModel : option JsString)
    (output : JsString) (calls : list ToolCall) (w : World) :
  parseToolCallPlan output = Some (ToolCalls calls) ->
  exists response entries,
    fst (handleToolPlanning requestModel (Returned output) w) = Returned response
    /\ status response = 200
    /\ finishReason (body response) = finish_tool_calls
    /\ messageContent (body response) = lit ""
    /\ completionModel (body response) = modelOf requestModel
    /\ messageToolCalls (body response) = Some entries
    /\ map entryName entries = map name calls
    /\ map entryArguments entries = map arguments calls
    /\ map entryIndex entries = seq 0 (length calls)
    /\ map entryStamp entries = map (clock w) (seq (clockReads w) (length calls)).
Proof.
  intros H. unfold handleToolPlanning. cbv zeta. rewrite H.
  unfold buildToolCallPayload, bind.
  pose proof (mapCalls_spec calls 0 w) as S. cbv zeta in S.
  destruct (mapCalls 0 calls w) as [mapped w1]. cbn [fst snd] in S.
  destruct S as (Hn & Ha & Hi & Hs & _ & _).
  unfold Date_now, ret. cbn [fst].
  eexists. exists mapped. split; [reflexivity|].
  cbn [status body finishReason messageContent completionModel messageToolCalls
       jsonResponse].
  repeat split; assumption || reflexivity.
Qed.

Lemma handleToolPlanning_tool_calls_witness :
  exists response entries,
    fst (handleToolPlanning None
           (Returned (quoted "<tool_call>read {'path':'a'} <tool_call>list {}"))
           sampleWorld) = Returned response
    /\ status response = 200
    /\ finishReason (body response) = finish_tool_calls
    /\ messageContent (body response) = lit ""
    /\ completionModel (body response) = modelOf None
    /\ messageToolCalls (body response) = Some entries
    /\ map entryName entries = map name
         [mkToolCall (lit "read") (JObject [(lit "path", JString (lit "a"))]);
          mkToolCall (lit "list") (JObject [])]
    /\ map entryArguments entries = map arguments
         [mkToolCall (lit "read") (JObject [(lit "path", JString (lit "a"))]);
          mkToolCall (lit "list") (JObject [])]
    /\ map entryIndex entries = seq 0 2
    /\ map entryStamp entries
       = map (clock sampleWorld) (seq (clockReads sampleWorld) 2).
Proof.
  apply (handleToolPlanning_tool_calls None
           (quoted "<tool_call>read {'path':'a'} <tool_call>list {}")
           [mkToolCall (lit "read") (JObject [(lit "path", JString (lit "a"))]);
            mkToolCall (lit "list") (JObject [])] sampleWorld).
  vm_compute. reflexivity.
Defined.

(** X24: the two parse paths disagree on a plan without calls.  The
    tagged syntax never yields an empty list of calls (it yields no plan
    instead), but the JSON syntax does: for [{"action":"tool_call",
    "tool_calls":[]}] inside any text the plan is an empty list of calls,
    and the handler answers with finish reason [tool_calls] and an empty
    [tool_calls] array. *)
Theorem empty_tool_calls_plan (requestModel : option JsString)
    (prefix suffix : JsString) (w : World) :
  ~ In 123 prefix -> ~ In 125 suffix ->
  let output := prefix ++ emptyCallsText ++ suffix in
  parseToolCallPlan output = Some (ToolCalls [])
  /\ planOfTags output <> Some (ToolCalls [])
  /\ exists response,
       fst (handleToolPlanning requestModel (Returned output) w) = Returned response
       /\ finishReason (body response) = finish_tool_calls
       /\ messageToolCalls (body response) = Some [].
Proof.
  intros Hp Hs output.
  assert (Hplan : parseToolCallPlan output = Some (ToolCalls [])).
  { unfold output.
    change emptyCallsText
      with (123 :: quoted "'action':'tool_call','tool_calls':[]" ++ [125]).
    rewrite parseToolCallPlan_embedded by assumption.
    vm_compute. reflexivity. }
  split; [exact Hplan|]. split; [apply planOfTags_not_empty|].
  unfold handleToolPlanning. cbv zeta. rewrite Hplan.
  eexists. split; [reflexivity|]. split; reflexivity.
Qed.

Lemma empty_tool_calls_plan_witness :
  let output := lit "ok " ++ emptyCallsText ++ lit "." in
  parseToolCallPlan output = Some (ToolCalls [])
  /\ planOfTags output <> Some (ToolCalls [])
  /\ exists response,
       fst (handleToolPlanning None (Returned output) sampleWorld) = Returned response
       /\ finishReason (body response) = finish_tool_calls
       /\ messageToolCalls (body response) = Some [].
Proof.
  apply (empty_tool_calls_plan None (lit "ok ") (lit ".") sampleWorld).
  - let l := eval vm_compute in (lit "ok ") in change (~ In 123 l).
    cbn [In]. lia.
  - let l := eval vm_compute in (lit ".") in change (~ In 125 l).
    cbn [In]. lia.
Defined.

(** The tagged syntax alone would read the call of this text. *)
Example planOfTags_single_call :
  planOfTags (quoted "<tool_call>read {'path':'a'}")
  = Some (ToolCalls [mkToolCall (lit "read")
                       (JObject [(lit "path", JString (lit "a"))])]).
Proof. vm_compute. reflexivity. Qed.

(** X25: a tagged call on its own is lost.  When the text between the
    first [{] and the last [}] is valid JSON that is not itself a plan
    (the arguments of a single [<tool_call>name {...}], say), the
    result is [null] whatever tags stand before it: [JSON.parse] did not
    throw, so the tagged syntax is never tried. *)
Theorem parseToolCallPlan_single_tag_lost (prefix inner suffix : JsString)
    (parsed : JsValue) :
  ~ In 123 prefix -> ~ In 125 suffix ->
  JSON_parse (123 :: inner ++ [125]) = Some parsed ->
  planOfParsed parsed = None ->
  parseToolCallPlan (prefix ++ (123 :: inner ++ [125]) ++ suffix) = None.
Proof.
  intros Hp Hs P N. rewrite parseToolCallPlan_embedded by assumption.
  rewrite P. exact N.
Qed.

Lemma parseToolCallPlan_single_tag_lost_witness :
  parseToolCallPlan (lit "<tool_call>read "
                     ++ (123 :: quoted "'path':'a'" ++ [125]) ++ lit "")
  = None.
Proof.
  apply (parseToolCallPlan_single_tag_lost (lit "<tool_call>read ")
           (quoted "'path':'a'") (lit "")
           (JObject [(lit "path", JString (lit "a"))])).
  - let l := eval vm_compute in (lit "<tool_call>read ") in change (~ In 123 l).
    cbn [In]. lia.
  - intros [].
  - vm_compute. reflexivity.
  - vm_compute. reflexivity.
Defined.

(** X26: an error status alone does not end the generator.  After data
    chunks and trailers with a [grpc-status] other than ['0'] and a
    [grpc-message] that is absent or well-formed percent-encoding,
    [streamChat] has already rejected, while [streamChatGenerator] has
    only recorded the error: it has yielded the texts and waits for the
    end of the stream before it throws. *)
Theorem stream_error_before_end (ds : list (list Z))
    (grpcStatus grpcMessage : option JsString) (err : WindsurfError) :
  statusIsZero grpcStatus = false ->
  grpcError grpcStatus grpcMessage = Returned err ->
  let events := Connect :: map Data ds ++ [Trailers grpcStatus grpcMessage] in
  settled (streamChat events) = Some (Rejected err)
  /\ yielded (streamChatGenerator events) = keep keptText ds
  /\ error (streamChatGenerator events) = Some err
  /\ standing (streamChatGenerator events) = Waiting.
Proof.
  intros Hs He. cbv zeta. unfold streamChat, streamChatGenerator.
  cbn [fold_left]. rewrite !fold_left_app.
  change (streamChatStep newCall Connect) with (mkCall true [] None).
  change (generatorStep newGenerator Connect) with (mkGenerator [] false None []).
  rewrite streamChat_data, generator_data. cbn [app fold_left].
  unfold streamChatStep, generatorStep, handlerStep, drain, settle, standing.
  cbn [connected settled chunks]. rewrite Hs, He.
  cbn [connected settled chunks chunkQueue done error yielded].
  rewrite !app_nil_r. repeat split; reflexivity.
Qed.

Lemma stream_error_before_end_witness :
  let events := Connect :: map Data [utf8Encode (lit "Hello")]
                ++ [Trailers (Some (lit "13")) None] in
  let err := mkError STREAM_ERROR (lit "Unknown error") in
  settled (streamChat events) = Some (Rejected err)
  /\ yielded (streamChatGenerator events) = keep keptText [utf8Encode (lit "Hello")]
  /\ error (streamChatGenerator events) = Some err
  /\ standing (streamChatGenerator events) = Waiting.
Proof.
  apply (stream_error_before_end [utf8Encode (lit "Hello")] (Some (lit "13")) None
           (mkError STREAM_ERROR (lit "Unknown error")));
    reflexivity.
Defined.

(** X29: a malformed [grpc-message] hides the error.  When the trailers
    carry a [grpc-status] other than ['0'] and a message that
    [decodeURIComponent] rejects, the [URIError] leaves the trailers
    handler before [reject] or [error = ...] is reached; when the stream
    then ends, [streamChat] resolves with the texts joined and
    [streamChatGenerator] returns after yielding them, as if the call had
    succeeded. *)
Theorem stream_error_masked (ds : list (list Z)) (grpcStatus : option JsString)
    (message : JsString) :
  statusIsZero grpcStatus = false ->
  decodeURIComponent message = None ->
  let events := Connect :: map Data ds ++ [Trailers grpcStatus (Some message); End] in
  settled (streamChat events) = Some (Resolved (join (keep keptText ds)))
  /\ yielded (streamChatGenerator events) = keep keptText ds
  /\ error (streamChatGenerator events) = None
  /\ standing (streamChatGenerator events) = Finished.
Proof.
  intros Hs Hd. cbv zeta.
  assert (He : grpcError grpcStatus (Some message) = Thrown (lit "URIError")).
  { unfold grpcError, errorText. destruct message as [|c m]; [discriminate|].
    rewrite Hd. reflexivity. }
  unfold streamChat, streamChatGenerator.
  cbn [fold_left]. rewrite !fold_left_app.
  change (streamChatStep newCall Connect) with (mkCall true [] None).
  change (generatorStep newGenerator Connect) with (mkGenerator [] false None []).
  rewrite streamChat_data, generator_data. cbn [app fold_left].
  unfold streamChatStep, generatorStep, handlerStep, drain, settle, standing.
  cbn [connected settled chunks]. rewrite Hs, He.
  cbn [connected settled chunks chunkQueue done error yielded].
  rewrite !app_nil_r. repeat split; reflexivity.
Qed.

Lemma stream_error_masked_witness :
  let events := Connect :: map Data [utf8Encode (lit "Hello")]
                ++ [Trailers (Some (lit "13")) (Some (lit "%E0%A4%A")); End] in
  settled (streamChat events)
    = Some (Resolved (join (keep keptText [utf8Encode (lit "Hello")])))
  /\ yielded (streamChatGenerator events) = keep keptText [utf8Encode (lit "Hello")]
  /\ error (streamChatGenerator events) = None
  /\ standing (streamChatGenerator events) = Finished.
Proof.
  apply (stream_error_masked [utf8Encode (lit "Hello")] (Some (lit "13"))
           (lit "%E0%A4%A")); vm_compute; reflexivity.
Defined.

(** X27: a final answer, end to end.  When the collected text holds a
    final plan in the format of the prompt, with any text without an
    opening brace before it and any text without a closing brace after
    it, the handler answers 200 with the content of the plan alone, the
    wrapper and the surrounding text removed, and finish reason [stop]. *)
Theorem handleToolPlanning_final (requestModel : option JsString)
    (prefix content suffix : JsString) (w : World) :
  ~ In 123 prefix -> ~ In 125 suffix -> Forall isPlainChar content ->
  fst (handleToolPlanning requestModel
         (Returned (prefix ++ finalPlanText content ++ suffix)) w)
  = Returned (mkResponse 200 (lit "application/json")
      (mkCompletion (clock w (clockReads w))
         (clock w (S (clockReads w)) / 1000)
         (modelOf requestModel) content None finish_stop)).
Proof.
  intros Hp Hs Hc. destruct (finalPlanText_shape content) as (inner & E).
  pose proof (JSON_parse_finalPlanText content Hc) as P. rewrite E in *.
  unfold handleToolPlanning. cbv zeta.
  rewrite parseToolCallPlan_embedded by assumption. rewrite P.
  reflexivity.
Qed.

Lemma handleToolPlanning_final_witness :
  fst (handleToolPlanning None
         (Returned (lit "Sure. " ++ finalPlanText (lit "done") ++ lit " bye"))
         sampleWorld)
  = Returned (mkResponse 200 (lit "application/json")
      (mkCompletion (clock sampleWorld (clockReads sampleWorld))
         (clock sampleWorld (S (clockReads sampleWorld)) / 1000)
         (modelOf None) (lit "done") None finish_stop)).
Proof.
  apply (handleToolPlanning_final None (lit "Sure. ") (lit "done") (lit " bye")
           sampleWorld).
  - let l := eval vm_compute in (lit "Sure. ") in change (~ In 123 l).
    cbn [In]. lia.
  - let l := eval vm_compute in (lit " bye") in change (~ In 125 l).
    cbn [In]. lia.
  - let l := eval vm_compute in (lit "done") in change (Forall isPlainChar l).
    repeat (apply Forall_cons; [unfold isPlainChar; lia|]). apply Forall_nil.
Defined.

(** ** The fallback of the extractor *)

Section FallbackFacts.

Lemma utf8Decode_low text : forall rest,
  Forall (fun c => c <= 0x7F) text ->
  utf8Decode utf8Start (text ++ rest) = text ++ utf8Decode utf8Start rest.
Proof.
  induction text as [|c r IH]; intros rest H; [reflexivity|].
  inversion H as [|? ? Hc Hr]; subst. cbn [app utf8Decode].
  unfold utf8Step. cbn [utf8Start needed]. cbn [Z.eqb]. unfold utf8Lead.
  replace (c <=? 0x7F) with true by (symmetry; apply Z.leb_le; exact Hc).
  cbn [app]. fold utf8Start. rewrite IH by exact Hr. reflexivity.
Qed.

Lemma control_low bs : Forall isControlByte bs -> Forall (fun c => c <= 0x7F) bs.
Proof. apply Forall_impl. unfold isControlByte. intros; lia. Qed.

Lemma readable_low text : Forall isReadable text -> Forall (fun c => c <= 0x7F) text.
Proof. apply Forall_impl. unfold isReadable. intros; lia. Qed.

Lemma control_replaced bs :
  Forall isControlByte bs -> forallb isWhiteSpace (replaceNonPrintable bs) = true.
Proof.
  induction 1 as [|b r Hb _ IH]; [reflexivity|].
  unfold replaceNonPrintable in *. cbn [map forallb]. rewrite IH, andb_true_r.
  unfold isControlByte in Hb.
  replace (0x20 <=? b) with false by (symmetry; apply Z.leb_gt; lia).
  cbn [andb orb]. destruct (Z.eqb_spec b 10) as [->|_]; reflexivity.
Qed.

Lemma splitWide_single s : forall acc,
  noWideGap s = true -> splitWide false acc s = [rev acc ++ s].
Proof.
  induction s as [|c r IH]; intros acc H.
  - cbn [splitWide]. rewrite app_nil_r. reflexivity.
  - cbn [noWideGap] in H. apply andb_true_iff in H. destruct H as [Hc Hr].
    apply negb_true_iff in Hc. cbn [splitWide]. rewrite Hc.
    rewrite IH by exact Hr. cbn [rev]. rewrite <- app_assoc. reflexivity.
Qed.

Lemma includesDash_false text : ~ In 45 text -> includesDash text = false.
Proof.
  intros H. unfold includesDash. destruct (existsb (fun c => c =? 45) text) eqn:E;
    [|reflexivity].
  apply existsb_exists in E. destruct E as (c & Hin & Hc).
  apply Z.eqb_eq in Hc. subst c. contradiction.
Qed.

End FallbackFacts.

(** X28: the fallback, end to end.  Let a chunk hold control bytes, then
    a text, then control bytes, where the text is made of printable
    characters, is not empty, has no white space at its ends and no two
    white-space characters in a row, holds neither an asterisk nor a
    dash, is not made of hexadecimal digits alone and does not begin with
    a digit.  Then the extractor returns exactly the text. *)
Theorem extractTextFromChunk_fallback (pre text post : list Z) :
  Forall isControlByte pre -> Forall isControlByte post ->
  Forall isReadable text -> text <> [] -> trim text = text ->
  ~ In 42 text -> ~ In 45 text -> noWideGap text = true ->
  looksLikeId text = false ->
  match text with c :: _ => isDigit c = false | [] => True end ->
  extractTextFromChunk (pre ++ text ++ post) = Returned text.
Proof.
  intros Hpre Hpost Hr Hne Ht H42 H45 Hgap Hid Hdigit.
  assert (Hreadable : readableOf (pre ++ text ++ post) = text).
  { unfold readableOf, toStringUtf8.
    rewrite utf8Decode_low by (apply control_low; exact Hpre).
    rewrite utf8Decode_low by (apply readable_low; exact Hr).
    rewrite <- (app_nil_r post).
    rewrite utf8Decode_low by (apply control_low; exact Hpost).
    cbn [utf8Decode utf8Start needed Z.eqb]. rewrite app_nil_r.
    rewrite !replaceNonPrintable_app, (replaceNonPrintable_id text) by exact Hr.
    rewrite trim_padding by (apply control_replaced; assumption).
    exact Ht. }
  unfold extractTextFromChunk. cbv zeta. rewrite Hreadable.
  rewrite <- (app_nil_r text) at 1. rewrite markerMatch_skip by exact H42.
  cbn [markerMatch]. rewrite splitWide_single by exact Hgap.
  cbn [rev app firstCandidate]. unfold candidate.
  rewrite includesDash_false by exact H45. rewrite Hid.
  destruct text as [|c r]; [contradiction|].
  cbn [length]. rewrite Nat2Z.inj_succ.
  replace (0 <? Z.succ (Z.of_nat (length r))) with true
    by (symmetry; apply Z.ltb_lt; lia).
  cbn [andb negb]. cbv zeta.
  assert (Hlead : stripLead (c :: r) = c :: r).
  { unfold stripLead. cbn [dropWhile]. rewrite Hdigit.
    destruct (trimmed_parts (c :: r) Ht) as [Hts _].
    assert (Hws : isWhiteSpace c = false).
    { cbn [trimStart] in Hts. destruct (isWhiteSpace c) eqn:E; [|reflexivity].
      exfalso. pose proof (trimStart_length r) as L. rewrite Hts in L.
      simpl in L. lia. }
    rewrite Hws.
    replace (isAsterisk c) with false; [reflexivity|].
    symmetry. apply Z.eqb_neq. intros ->. apply H42. left. reflexivity. }
  rewrite Hlead, Ht. cbn [length]. rewrite Nat2Z.inj_succ.
  replace (0 <? Z.succ (Z.of_nat (length r))) with true
    by (symmetry; apply Z.ltb_lt; lia).
  reflexivity.
Qed.

Lemma extractTextFromChunk_fallback_witness :
  extractTextFromChunk ([0; 0; 0; 0; 12; 10; 8] ++ lit "Hi there" ++ [24; 1])
  = Returned (lit "Hi there").
Proof.
  apply (extractTextFromChunk_fallback [0; 0; 0; 0; 12; 10; 8] (lit "Hi there")
           [24; 1]).
  - repeat (apply Forall_cons; [unfold isControlByte; lia|]). apply Forall_nil.
  - repeat (apply Forall_cons; [unfold isControlByte; lia|]). apply Forall_nil.
  - let l := eval vm_compute in (lit "Hi there") in change (Forall isReadable l).
    repeat (apply Forall_cons; [unfold isReadable; lia|]). apply Forall_nil.
  - discriminate.
  - vm_compute. reflexivity.
  - let l := eval vm_compute in (lit "Hi there") in change (~ In 42 l).
    cbn [In]. lia.
  - let l := eval vm_compute in (lit "Hi there") in change (~ In 45 l).
    cbn [In]. lia.
  - vm_compute. reflexivity.
  - vm_compute. reflexivity.
  - vm_compute. reflexivity.
Defined.
